(** * Block lifecycle and consensus engine of [server/controllers/blockController.js]

    A shallow embedding of the block controller (the version that exports
    [getWaitingBlock] and [validateBlockchain]) together with the
    properties of its state machine, its vote-threshold evaluation, its
    hash chain and its chain validator. The [createHibernateBlock] of the
    previous version, which the file holds too, is embedded in the module
    [Previous].

    The MongoDB collections are lists of documents in insertion order and
    a query without [sort] returns the matching documents in that order.
    Document identifiers are natural numbers, JavaScript numbers that hold
    lengths are binary64 floats ([PrimFloat]), and a handler is a function
    from the store to the store it leaves and its answer or error.

    The controller is embedded twice. As functions of the store, the
    handlers make the transition system [step], whose runs are those in
    which every request is handled from beginning to end before the next
    one starts. Await by await ([Async]), the handlers of several requests
    take turns at the store: these are the runs of [interleaved]. The two
    agree on a handler that nothing interrupts. *)

From Stdlib Require Import ZArith Lia Bool PrimFloat Uint63.
From stdpp Require Import base option sets strings pretty countable list.

Open Scope Z_scope.

(** ** JavaScript values *)

(** The property values of an embedded record that the controller can
    observe: numbers and strings. *)
Inductive JsValue : Type :=
  | JsNum (z : Z)
  | JsStr (s : string).

#[global] Instance JsValue_eq_dec : EqDecision JsValue.
Proof. solve_decision. Defined.

(** A plain object: its own properties in insertion order. *)
Abbreviation JsObject := (list (string * JsValue)).

(** [key in o] *)
Definition js_in (key : string) (o : JsObject) : bool :=
  bool_decide (key ∈ o.*1).

(** [o[key] = v]: an existing property keeps its place, a new one goes last. *)
Fixpoint js_set (key : string) (v : JsValue) (o : JsObject) : JsObject :=
  match o with
  | [] => [(key, v)]
  | (k, w) :: o' =>
      if decide (k = key) then (key, v) :: o' else (k, w) :: js_set key v o'
  end.

(** [a || b] on strings: the empty string is the only falsy one. *)
Definition js_or (a b : string) : string :=
  if decide (a = "") then b else a.

(** ** Documents *)

Inductive BlockStatus : Type :=
  | Hibernating
  | Pending
  | Approved
  | Rejected
  | inChain.

#[global] Instance BlockStatus_eq_dec : EqDecision BlockStatus.
Proof. solve_decision. Defined.

(** The string stored in the [status] field. *)
Definition statusName (st : BlockStatus) : string :=
  match st with
  | Hibernating => "Hibernating"
  | Pending => "Pending"
  | Approved => "Approved"
  | Rejected => "Rejected"
  | inChain => "inChain"
  end.

(** Modelled from the spec: [models/block.js] is missing from the sources.
    A block has a sequence number [blockId] (an integer), [prevHash], [hash]
    and [timestamp] (strings), a [status], an ordered list of embedded
    [records], and the [approvedBy] and [rejectedBy] lists of validator
    names. [_id] is the document identifier given by the store. A block
    created without a [status] is [Hibernating] (section 4.3), and
    [records], [approvedBy] and [rejectedBy] are empty unless given. *)
Record Block : Type := mkBlock {
  _id : nat;
  blockId : Z;
  prevHash : string;
  hash : string;
  timestamp : string;
  status : BlockStatus;
  records : list JsObject;
  approvedBy : list string;
  rejectedBy : list string;
}.

#[global] Instance Block_eq_dec : EqDecision Block.
Proof. solve_decision. Defined.

(** A document of [TransactionModel] or [SupplyChainModel]; the controller
    only reads and writes its [status]. *)
Record RecordDoc : Type := mkRecordDoc {
  doc_id : nat;
  doc_status : string;
  doc_fields : JsObject;
}.

(** A document of [ApprovedRecordModel]: [_id] and [records]. *)
Record ApprovedRecord : Type := mkApprovedRecord {
  ar_id : nat;
  ar_records : JsObject;
}.

(** A document of [UserModel]. *)
Record User : Type := mkUser {
  username : string;
  role : string;
}.

(** ** The store *)

Record Store : Type := mkStore {
  blocks : list Block;
  users : list User;
  transactions : list RecordDoc;
  supplyChain : list RecordDoc;
  approvedRecords : list ApprovedRecord;
  (** the next fresh document identifier *)
  nextObjectId : nat;
  (** how many times [new Date()] has been evaluated *)
  dateReads : nat;
}.

Definition with_blocks (bs : list Block) (s : Store) : Store :=
  mkStore bs (users s) (transactions s) (supplyChain s) (approvedRecords s)
          (nextObjectId s) (dateReads s).

Definition with_transactions (ts : list RecordDoc) (s : Store) : Store :=
  mkStore (blocks s) (users s) ts (supplyChain s) (approvedRecords s)
          (nextObjectId s) (dateReads s).

Definition with_supplyChain (ts : list RecordDoc) (s : Store) : Store :=
  mkStore (blocks s) (users s) (transactions s) ts (approvedRecords s)
          (nextObjectId s) (dateReads s).

Definition with_approvedRecords (rs : list ApprovedRecord) (s : Store) : Store :=
  mkStore (blocks s) (users s) (transactions s) (supplyChain s) rs
          (nextObjectId s) (dateReads s).

Definition emptyStore : Store := mkStore [] [] [] [] [] 0 0.

(** ** Errors and the handler monad *)

Inductive Error : Type :=
  | NotFoundError (msg : string)
  | BadRequestError (msg : string)
  | TypeError (msg : string).

(** A handler reads and writes the store and either returns or throws.
    Writes made before a throw stay: nothing is rolled back. *)
Definition M (A : Type) : Type := Store → Store * (Error + A).

#[global] Instance M_ret : MRet M := λ A a s, (s, inr a).

#[global] Instance M_bind : MBind M := λ A B k m s,
  match m s with
  | (s', inr a) => k a s'
  | (s', inl e) => (s', inl e)
  end.

Definition throw {A : Type} (e : Error) : M A := λ s, (s, inl e).

Definition getStore : M Store := λ s, (s, inr s).

Definition modifyStore (f : Store → Store) : M unit := λ s, (f s, inr tt).

(** The store a handler leaves behind, and what it answered. *)
Definition exec {A : Type} (m : M A) (s : Store) : Store := (m s).1.
Definition answer {A : Type} (m : M A) (s : Store) : Error + A := (m s).2.

(** ** What the controller takes from outside

    [createHash("sha256")], [JSON.stringify], the clock and
    [checkTransactionValidity] of the transaction controller are used by
    the block controller and defined elsewhere. *)
Class Platform : Type := mkPlatform {
  (** [createHash("sha256").update(x).digest("hex")] *)
  sha256 : string → string;
  (** [JSON.stringify] of a list of embedded records *)
  JSON_stringify : list JsObject → string;
  (** [checkTransactionValidity] of [transactionController] *)
  checkTransactionValidity : JsObject → bool;
  (** [new Date().toLocaleString("en-GB")] at its n-th evaluation *)
  toLocaleString : nat → string;
  (** the values [models/block.js] gives to [blockId], [prevHash] and
      [hash] of a block created without them *)
  defaultBlockId : Z;
  defaultPrevHash : string;
  defaultHash : string;
}.

(** [0.66] as JavaScript reads it: the double nearest to it. *)
Definition CONSENSUS_THRESHOLD : float := 0x1.51eb851eb851fp-1%float.
Definition GENESIS_BLOCK_ID : Z := 0.
Definition MAX_RECORD : nat := 2.

(** A length as a JavaScript number, as [parseFloat(validators.length)]
    and the implicit conversion of [block.approvedBy.length] give it. *)
Definition parseFloat (n : nat) : float :=
  PrimFloat.of_uint63 (Uint63.of_Z (Z.of_nat n)).

(** [x >= CONSENSUS_THRESHOLD] on doubles; false on [NaN]. *)
Definition reachesThreshold (x : float) : bool :=
  PrimFloat.leb CONSENSUS_THRESHOLD x.

(** ** Updates of a block document *)

Definition set_status (st : BlockStatus) (b : Block) : Block :=
  mkBlock (_id b) (blockId b) (prevHash b) (hash b) (timestamp b) st
          (records b) (approvedBy b) (rejectedBy b).

Definition set_timestamp (t : string) (b : Block) : Block :=
  mkBlock (_id b) (blockId b) (prevHash b) (hash b) t (status b)
          (records b) (approvedBy b) (rejectedBy b).

Definition set_records (rs : list JsObject) (b : Block) : Block :=
  mkBlock (_id b) (blockId b) (prevHash b) (hash b) (timestamp b) (status b)
          rs (approvedBy b) (rejectedBy b).

(** [$addToSet]: the value is added unless the array already holds it. *)
Definition addToSet (x : string) (l : list string) : list string :=
  if decide (x ∈ l) then l else l ++ [x].

Definition addToSet_approvedBy (u : string) (b : Block) : Block :=
  mkBlock (_id b) (blockId b) (prevHash b) (hash b) (timestamp b) (status b)
          (records b) (addToSet u (approvedBy b)) (rejectedBy b).

Definition addToSet_rejectedBy (u : string) (b : Block) : Block :=
  mkBlock (_id b) (blockId b) (prevHash b) (hash b) (timestamp b) (status b)
          (records b) (approvedBy b) (addToSet u (rejectedBy b)).

(** The update document of [appendToBlockchain]. *)
Definition set_chained (bid : Z) (ph h t : string) (b : Block) : Block :=
  mkBlock (_id b) bid ph h t inChain (records b) (approvedBy b) (rejectedBy b).

Section Controller.
Context `{Platform}.

(** ** Queries on [BlockModel] *)

Section Queries.
Context (P : Block → Prop) `{!∀ b, Decision (P b)}.

(** [BlockModel.find(P)] *)
Definition BlockModel_find : M (list Block) :=
  λ s, (s, inr (filter P (blocks s))).

(** [BlockModel.findOne(P)]; [None] is [null]. *)
Definition BlockModel_findOne : M (option Block) :=
  λ s, (s, inr (snd <$> list_find P (blocks s))).

(** [BlockModel.findOneAndUpdate(P, upd, { new: true })]: the first
    match is updated in place and the updated document returned. *)
Definition BlockModel_findOneAndUpdate (upd : Block → Block)
  : M (option Block) :=
  λ s, match list_find P (blocks s) with
       | Some (i, b) =>
           (with_blocks (<[i := upd b]> (blocks s)) s, inr (Some (upd b)))
       | None => (s, inr None)
       end.
End Queries.

(** [BlockModel.create(fields)]: the document [mk i] is added with the
    fresh identifier [i]; [mk] holds the given fields and the defaults of
    the schema for the others. *)
Definition BlockModel_create (mk : nat → Block) : M Block :=
  λ s, let b := mk (nextObjectId s) in
       (mkStore (blocks s ++ [b]) (users s) (transactions s) (supplyChain s)
                (approvedRecords s) (S (nextObjectId s)) (dateReads s),
        inr b).

Definition newDate : M string :=
  λ s, (mkStore (blocks s) (users s) (transactions s) (supplyChain s)
                (approvedRecords s) (nextObjectId s) (S (dateReads s)),
        inr (toLocaleString (dateReads s))).

(** [UserModel.find({ role: "Validator" })] *)
Definition UserModel_find_validators : M (list User) :=
  λ s, (s, inr (filter (λ u, role u = "Validator") (users s))).

(** [Model.updateMany({ status: from }, { status: to })] *)
Definition updateMany_status (from to : string) (docs : list RecordDoc)
  : list RecordDoc :=
  (λ d, if decide (doc_status d = from)
        then mkRecordDoc (doc_id d) to (doc_fields d) else d) <$> docs.

(** [ApprovedRecordModel.deleteOne({ _id: i })] *)
Fixpoint deleteOne (i : nat) (docs : list ApprovedRecord) : list ApprovedRecord :=
  match docs with
  | [] => []
  | d :: docs' => if decide (ar_id d = i) then docs' else d :: deleteOne i docs'
  end.

(** ** The controller *)

Definition computeBlockHash (blockId : Z) (prevHash timestamp : string)
    (record : list JsObject) : string :=
  sha256 (pretty blockId +:+ prevHash +:+ timestamp +:+ JSON_stringify record).

Definition createGenesisBlock : M Block :=
  let previousHash := "" in
  timestamp ← newDate;
  let record := [] in
  genesisBlock ← BlockModel_create (λ i,
    mkBlock i GENESIS_BLOCK_ID previousHash
            (computeBlockHash GENESIS_BLOCK_ID previousHash timestamp record)
            timestamp inChain [] [] []);
  mret genesisBlock.

(** The body of the loop of [createHibernateBlock] for the indices in
    [idxs]; reading [record[i].records] of a missing entry throws. *)
Fixpoint createHibernateBlock_loop (record : list ApprovedRecord)
    (idxs : list nat) (arr : list JsObject) : M (list JsObject) :=
  match idxs with
  | [] => mret arr
  | i :: idxs' =>
      match record !! i with
      | None =>
          throw (TypeError "Cannot read properties of undefined (reading 'records')")
      | Some r =>
          _ ← modifyStore (λ s,
                with_approvedRecords (deleteOne (ar_id r) (approvedRecords s)) s);
          createHibernateBlock_loop record idxs' (arr ++ [ar_records r])
      end
  end.

Definition createHibernateBlock : M Block :=
  s ← getStore;
  let record := approvedRecords s in
  arr ← (if (0 <? length record)%nat
         then createHibernateBlock_loop record (seq 0 MAX_RECORD) []
         else mret []);
  t ← newDate;
  hibernateBlock ← BlockModel_create (λ i,
    mkBlock i defaultBlockId defaultPrevHash defaultHash t Hibernating arr [] []);
  mret hibernateBlock.

(** The [blockchain] of the response is the array of the query, or the
    genesis document itself when the chain was just created. *)
Definition getBlockchain : M (list Block + Block) :=
  blockchain ← BlockModel_find (λ b, status b = inChain);
  if decide (length blockchain = 0%nat) then
    blockchain ← createGenesisBlock;
    _ ← createHibernateBlock;
    mret (inr blockchain)
  else mret (inl blockchain).

(** [status: "Hibernating" || "Pending"] is evaluated before the query
    is made. *)
Definition getWaitingBlock : M (option Block) :=
  waitingBlock ← BlockModel_findOne (λ b,
    statusName (status b) = js_or "Hibernating" "Pending");
  mret waitingBlock.

Definition activateBlock (blockID : nat) : M (option Block) :=
  selectedBlock ← BlockModel_findOne (λ b,
    _id b = blockID ∧ status b = Hibernating);
  match selectedBlock with
  | None =>
      throw (NotFoundError
        ("No block with id " +:+ pretty blockID +:+
         " or block has already been activated"))
  | Some selectedBlock =>
      let isMaxRecord := bool_decide (length (records selectedBlock) = MAX_RECORD) in
      if negb isMaxRecord then
        throw (BadRequestError "Insufficient records in this block")
      else
        t ← newDate;
        activated ← BlockModel_findOneAndUpdate (λ b, _id b = blockID)
          (λ b, set_timestamp t (set_status Pending b));
        mret activated
  end.

(** [.sort({ blockId: -1 })]: a stable sort by descending [blockId]. *)
Fixpoint insert_desc (b : Block) (l : list Block) : list Block :=
  match l with
  | [] => [b]
  | x :: l' =>
      if decide (blockId x ≤ blockId b) then b :: x :: l'
      else x :: insert_desc b l'
  end.

Definition sort_desc (l : list Block) : list Block :=
  foldr insert_desc [] l.

Definition updateRecordsStatus : M unit :=
  _ ← modifyStore (λ s,
        with_transactions (updateMany_status "inBlock" "inChain" (transactions s)) s);
  modifyStore (λ s,
        with_supplyChain (updateMany_status "inBlock" "inChain" (supplyChain s)) s).

Definition rejectRecords : M unit :=
  _ ← modifyStore (λ s,
        with_transactions (updateMany_status "inBlock" "Rejected" (transactions s)) s);
  modifyStore (λ s,
        with_supplyChain (updateMany_status "inBlock" "Rejected" (supplyChain s)) s).

(** [block.records[i].status = st] for the indices in [idxs], on the
    in-memory document; a missing [records[i]] throws. *)
Fixpoint setStatusInBlock_loop (st : string) (idxs : list nat)
    (recs : list JsObject) : Error + list JsObject :=
  match idxs with
  | [] => inr recs
  | i :: idxs' =>
      match recs !! i with
      | None =>
          inl (TypeError "Cannot set properties of undefined (setting 'status')")
      | Some r =>
          setStatusInBlock_loop st idxs' (<[i := js_set "status" (JsStr st) r]> recs)
      end
  end.

(** [block.save()] after [markModified("records")]: the stored document
    with the [_id] of [block] gets its [records]. *)
Definition save_records (block : Block) : M unit :=
  _ ← BlockModel_findOneAndUpdate (λ b, _id b = _id block)
        (set_records (records block));
  mret tt.

(** The caller's [block] is the document that is changed here, so the
    changed document is handed back. A [null] block throws. *)
Definition setRecordsStatusInBlock (st : string) (block : option Block)
  : M Block :=
  match block with
  | None => throw (TypeError "Cannot read properties of null (reading 'records')")
  | Some block =>
      match setStatusInBlock_loop st (seq 0 MAX_RECORD) (records block) with
      | inl e => throw e
      | inr recs =>
          let block := set_records recs block in
          _ ← save_records block;
          mret block
      end
  end.

Definition updateRecordsStatusInBlock := setRecordsStatusInBlock "inChain".
Definition rejectRecordsStatusInBlock := setRecordsStatusInBlock "Rejected".

Definition appendToBlockchain (block : Block) (id : nat) : M (option Block) :=
  blockchain ← BlockModel_find (λ b, status b = inChain);
  let blockchain := sort_desc blockchain in
  match blockchain !! 0%nat with
  | None => throw (TypeError "Cannot read properties of undefined (reading 'blockId')")
  | Some top =>
      let blockId := blockId top + 1 in
      let prevHash := hash top in
      timestamp ← newDate;
      updatedBlock ← BlockModel_findOneAndUpdate
        (λ b, _id b = id ∧ status b = Approved)
        (set_chained blockId prevHash
           (computeBlockHash blockId prevHash timestamp (records block))
           timestamp);
      _ ← createHibernateBlock;
      mret updatedBlock
  end.

(** [None] is the [undefined] returned for a block that is not
    [Pending], and the [null] of an update that matched nothing. *)
Definition blockConsensus (block : Block) (id : nat) : M (option Block) :=
  if decide (status block = Pending) then
    validators ← UserModel_find_validators;
    let approvedPercentage :=
      PrimFloat.div (parseFloat (length (approvedBy block)))
                    (parseFloat (length validators)) in
    let rejectedPercentage :=
      PrimFloat.div (parseFloat (length (rejectedBy block)))
                    (parseFloat (length validators)) in
    if reachesThreshold approvedPercentage then
      block ← BlockModel_findOneAndUpdate (λ b, _id b = id) (set_status Approved);
      _ ← updateRecordsStatus;
      block ← updateRecordsStatusInBlock block;
      block ← appendToBlockchain block id;
      mret block
    else if reachesThreshold rejectedPercentage then
      t ← newDate;
      block ← BlockModel_findOneAndUpdate (λ b, _id b = id)
        (λ b, set_timestamp t (set_status Rejected b));
      _ ← rejectRecords;
      block ← rejectRecordsStatusInBlock block;
      _ ← createHibernateBlock;
      mret (Some block)
    else mret (Some block)
  else mret None.

Definition approveBlock (blockID : nat) (isApproved : bool) (username : string)
  : M (string * option Block) :=
  hasApproveBefore ← BlockModel_findOne (λ b,
    _id b = blockID ∧ (username ∈ approvedBy b ∨ username ∈ rejectedBy b));
  if bool_decide (is_Some hasApproveBefore) then
    throw (BadRequestError "Already rejected or approved this block")
  else
    block ← BlockModel_findOneAndUpdate
      (λ b, _id b = blockID ∧ status b = Pending)
      (if isApproved then addToSet_approvedBy username
       else addToSet_rejectedBy username);
    match block with
    | None =>
        throw (NotFoundError
          ("No pending block with id " +:+ pretty blockID +:+
           " or block has not been activated"))
    | Some block =>
        block ← blockConsensus block blockID;
        let message :=
          if isApproved then "You have approved this block"
          else "You have rejected this block" in
        mret (message, block)
    end.

(** ** The chain validator *)

Fixpoint validateBlockRecords (records : list JsObject) : bool :=
  match records with
  | [] => true
  | record :: records' =>
      if js_in "amount" record && negb (checkTransactionValidity record)
      then false
      else validateBlockRecords records'
  end.

(** What [console.log] prints. *)
Inductive LogItem : Type :=
  | LogBlock (b : Block)
  | LogString (s : string).

(** The body of the loop of [validateBlocks] at index [i]: what it
    prints, and whether the loop goes on ([false]: [return false]). *)
Definition validateBlocks_body (blocks : list Block) (i : nat)
    (currentBlock : Block) : list LogItem * bool :=
  if decide (i = 0%nat) then
    let genesisBlock := currentBlock in
    let computed := computeBlockHash (blockId genesisBlock) (prevHash genesisBlock)
                      (timestamp genesisBlock) (records genesisBlock) in
    let out := [LogBlock genesisBlock; LogString (hash genesisBlock);
                LogString computed] in
    if negb (bool_decide (hash genesisBlock = computed)) then (out, false)
    else
      let out := out ++ [LogString (prevHash genesisBlock)] in
      if negb (bool_decide (prevHash genesisBlock = "")) then (out, false)
      else if negb (validateBlockRecords (records genesisBlock)) then (out, false)
      else (out, true)
  else
    match blocks !! (i - 1)%nat with
    | None => ([], false)
    | Some prevBlock =>
        let computed := computeBlockHash (blockId currentBlock) (prevHash currentBlock)
                          (timestamp currentBlock) (records currentBlock) in
        let out := [LogBlock currentBlock; LogBlock prevBlock;
                    LogString (hash currentBlock); LogString computed] in
        if negb (bool_decide (hash currentBlock = computed)) then (out, false)
        else
          let out := out ++ [LogString (prevHash currentBlock);
                             LogString (hash prevBlock)] in
          if negb (bool_decide (prevHash currentBlock = hash prevBlock))
          then (out, false)
          else if negb (validateBlockRecords (records currentBlock)) then (out, false)
          else (out, true)
    end.

(** The loop from index [i] on, [rest] being [blocks] from [i]. *)
Fixpoint validateBlocks_from (blocks : list Block) (i : nat)
    (rest : list Block) : list LogItem * bool :=
  match rest with
  | [] => ([], true)
  | currentBlock :: rest' =>
      let '(out, go) := validateBlocks_body blocks i currentBlock in
      if go then
        let '(out', r) := validateBlocks_from blocks (S i) rest' in
        (out ++ out', r)
      else (out, false)
  end.

(** The console output and the returned boolean. *)
Definition validateBlocks (blocks : list Block) : list LogItem * bool :=
  validateBlocks_from blocks 0 blocks.

Definition validateBlockchain : M (bool * list Block) :=
  blockchain ← BlockModel_find (λ b, status b = inChain);
  let isValid := (validateBlocks blockchain).2 in
  mret (isValid, blockchain).

Definition getBlock (blockID : Z) : M Block :=
  block ← BlockModel_findOne (λ b, blockId b = blockID);
  match block with
  | None => throw (NotFoundError ("No block with block id " +:+ pretty blockID))
  | Some block => mret block
  end.

Definition validateBlock (blockID : nat) : M bool :=
  block ← BlockModel_findOne (λ b, _id b = blockID);
  match block with
  | None => throw (BadRequestError ("No block with id " +:+ pretty blockID))
  | Some block => mret (validateBlockRecords (records block))
  end.

(** ** The system as a transition system *)

(** The requests the router hands to the controller. *)
Inductive Request : Type :=
  | GetBlockchain
  | GetBlock (blockID : Z)
  | GetWaitingBlock
  | ValidateBlock (blockID : nat)
  | ActivateBlock (blockID : nat)
  | ApproveBlock (blockID : nat) (isApproved : bool) (username : string)
  | ValidateBlockchain.

(** The store after a request, whether it was answered or failed. *)
Definition handle (r : Request) (s : Store) : Store :=
  match r with
  | GetBlockchain => exec getBlockchain s
  | GetBlock blockID => exec (getBlock blockID) s
  | GetWaitingBlock => exec getWaitingBlock s
  | ValidateBlock blockID => exec (validateBlock blockID) s
  | ActivateBlock blockID => exec (activateBlock blockID) s
  | ApproveBlock blockID isApproved username =>
      exec (approveBlock blockID isApproved username) s
  | ValidateBlockchain => exec validateBlockchain s
  end.

(** What the other controllers may do to a block: fill the record batch
    of a [Hibernating] block. *)
Definition outside_block (b b' : Block) : Prop :=
  b' = b ∨ (status b = Hibernating ∧ ∃ rs, b' = set_records rs b).

(** A change made outside the block controller: users, transactions,
    supply-chain records, the pool of approved records and the clock move
    freely; of the blocks only the batches of [Hibernating] ones. *)
Definition outside_change (s s' : Store) : Prop :=
  nextObjectId s' = nextObjectId s ∧ Forall2 outside_block (blocks s) (blocks s').

(** One transition: a request handled from beginning to end with nothing
    in between, or a change made outside the block controller. *)
Inductive step : Store → Store → Prop :=
  | step_request (r : Request) (s : Store) : step s (handle r s)
  | step_outside (s s' : Store) : outside_change s s' → step s s'.

(** The states the system can be in when the requests are handled one
    after the other: it starts without blocks. What it can come to when
    handlers overlap is [interleaved], further down. *)
Inductive reachable : Store → Prop :=
  | reachable_init (s : Store) : blocks s = [] → reachable s
  | reachable_step (s s' : Store) : reachable s → step s s' → reachable s'.
End Controller.

(** ** Results of a handler *)

Definition returns {A : Type} (r : Error + A) : Prop := ∃ a, r = inr a.

Definition throws {A : Type} (r : Error + A) : Prop := ∃ e, r = inl e.

(** Unfolds the monad and the store primitives in the goal. *)
Ltac run_handler :=
  repeat (cbn;
          unfold mbind, M_bind, mret, M_ret, getStore, modifyStore, throw,
            newDate, BlockModel_create, BlockModel_find, BlockModel_findOne,
            BlockModel_findOneAndUpdate, UserModel_find_validators;
          cbn).

(** ** The shape of the block collection and what a request makes of it *)

Section Derived.
Context `{Platform}.

(** A block that no request changes any more. *)
Definition settled (b : Block) : Prop := status b = inChain ∨ status b = Rejected.

(** The staging block: [Hibernating], or [Pending] with a full batch. *)
Definition staged (b : Block) : Prop :=
  status b = Hibernating ∨ (status b = Pending ∧ length (records b) = MAX_RECORD).

(** Nobody is twice among the voters of the block. *)
Definition votes_distinct (b : Block) : Prop := NoDup (approvedBy b ++ rejectedBy b).

(** The committed chain, as [BlockModel.find({ status: "inChain" })] gives it. *)
Definition chain_of (bs : list Block) : list Block :=
  filter (λ b, status b = inChain) bs.

(** The stored hash is the hash of the stored fields. *)
Definition hash_ok (b : Block) : Prop :=
  hash b = computeBlockHash (blockId b) (prevHash b) (timestamp b) (records b).

(** The i-th block of the chain has sequence number i, carries the hash
    of its own fields and the hash of its predecessor. *)
Definition linked (chain : list Block) : Prop :=
  ∀ i b, chain !! i = Some b →
    blockId b = Z.of_nat i ∧ hash_ok b ∧
    match i with
    | O => prevHash b = ""
    | S j => ∃ p, chain !! j = Some p ∧ prevHash b = hash p
    end.

(** Every block is settled, except possibly the last one, which is then
    the staging block. *)
Definition shape (bs : list Block) : Prop :=
  Forall settled bs ∨ ∃ done b, bs = done ++ [b] ∧ Forall settled done ∧ staged b.

(** The invariant of the block collection, [n] being the next fresh
    identifier. *)
Record wf_blocks (n : nat) (bs : list Block) : Prop := mk_wf_blocks {
  wf_ids : NoDup (_id <$> bs);
  wf_fresh : Forall (λ b, (_id b < n)%nat) bs;
  wf_votes : Forall votes_distinct bs;
  wf_shape : shape bs;
  wf_linked : linked (chain_of bs);
  wf_genesis : bs ≠ [] → chain_of bs ≠ [];
}.

Definition well_formed (s : Store) : Prop := wf_blocks (nextObjectId s) (blocks s).

(** The records after the loop of [updateRecordsStatusInBlock] or
    [rejectRecordsStatusInBlock] on a full batch. *)
Definition set_record_statuses (st : string) (recs : list JsObject) : list JsObject :=
  js_set "status" (JsStr st) <$> recs.

(** The block that [blockConsensus] commits: [voted] after the update to
    [Approved], the change of its records and [appendToBlockchain]. *)
Definition committed_block (top : Block) (t : string) (voted : Block) : Block :=
  let recs := set_record_statuses "inChain" (records voted) in
  set_chained (blockId top + 1) (hash top)
    (computeBlockHash (blockId top + 1) (hash top) t recs) t
    (set_records recs (set_status Approved voted)).

(** The block that [blockConsensus] rejects. *)
Definition rejected_block (t : string) (voted : Block) : Block :=
  set_records (set_record_statuses "Rejected" (records voted))
    (set_timestamp t (set_status Rejected voted)).

(** The two fractions of [blockConsensus]. *)
Definition approvedPercentage (voted : Block) (us : list User) : float :=
  PrimFloat.div (parseFloat (length (approvedBy voted)))
    (parseFloat (length (filter (λ u, role u = "Validator") us))).

Definition rejectedPercentage (voted : Block) (us : list User) : float :=
  PrimFloat.div (parseFloat (length (rejectedBy voted)))
    (parseFloat (length (filter (λ u, role u = "Validator") us))).

(** The vote that [approveBlock] records. *)
Definition vote (isApproved : bool) (u : string) : Block → Block :=
  if isApproved then addToSet_approvedBy u else addToSet_rejectedBy u.

Definition approve_message (isApproved : bool) : string :=
  if isApproved then "You have approved this block"
  else "You have rejected this block".

(** The documents that [createGenesisBlock] and [createHibernateBlock]
    create. *)
Definition genesis_block (i : nat) (t : string) : Block :=
  mkBlock i GENESIS_BLOCK_ID "" (computeBlockHash GENESIS_BLOCK_ID "" t []) t
          inChain [] [] [].

Definition hibernate_block (i : nat) (t : string) (arr : list JsObject) : Block :=
  mkBlock i defaultBlockId defaultPrevHash defaultHash t Hibernating arr [] [].

(** The store when the threshold of approvals is reached, before the next
    staging block is created. *)
Definition store_committed (s : Store) (done : list Block) (c : Block) : Store :=
  mkStore (done ++ [c]) (users s)
    (updateMany_status "inBlock" "inChain" (transactions s))
    (updateMany_status "inBlock" "inChain" (supplyChain s))
    (approvedRecords s) (nextObjectId s) (S (dateReads s)).

(** The store when the threshold of rejections is reached, before the
    next staging block is created. *)
Definition store_rejected (s : Store) (done : list Block) (r : Block) : Store :=
  mkStore (done ++ [r]) (users s)
    (updateMany_status "inBlock" "Rejected" (transactions s))
    (updateMany_status "inBlock" "Rejected" (supplyChain s))
    (approvedRecords s) (nextObjectId s) (S (dateReads s)).

(** A later version of a block that has every vote of the earlier one,
    in the same place. *)
Definition keeps_votes (b b' : Block) : Prop :=
  _id b' = _id b ∧ approvedBy b `prefix_of` approvedBy b'
  ∧ rejectedBy b `prefix_of` rejectedBy b'.

(** Structural validity of an embedded record: one with an [amount] has
    to pass [checkTransactionValidity]. *)
Definition record_valid (r : JsObject) : Prop :=
  js_in "amount" r = true → checkTransactionValidity r = true.

(** What [validateBlocks] asks of the block at index [i] of [blocks]. *)
Definition block_valid_at (blocks : list Block) (i : nat) (b : Block) : Prop :=
  hash b = computeBlockHash (blockId b) (prevHash b) (timestamp b) (records b)
  ∧ match i with
    | O => prevHash b = ""
    | S j => ∃ p, blocks !! j = Some p ∧ prevHash b = hash p
    end
  ∧ Forall record_valid (records b).

(** One of the hashed fields of a committed block, or its stored hash,
    is given another value; everything else stays. *)
Inductive tampered (b : Block) : Block → Prop :=
  | tamper_blockId (z : Z) :
      z ≠ blockId b →
      tampered b (mkBlock (_id b) z (prevHash b) (hash b) (timestamp b)
                    (status b) (records b) (approvedBy b) (rejectedBy b))
  | tamper_prevHash (p : string) :
      p ≠ prevHash b →
      tampered b (mkBlock (_id b) (blockId b) p (hash b) (timestamp b)
                    (status b) (records b) (approvedBy b) (rejectedBy b))
  | tamper_timestamp (t : string) :
      t ≠ timestamp b →
      tampered b (mkBlock (_id b) (blockId b) (prevHash b) (hash b) t
                    (status b) (records b) (approvedBy b) (rejectedBy b))
  | tamper_hash (h : string) :
      h ≠ hash b →
      tampered b (mkBlock (_id b) (blockId b) (prevHash b) h (timestamp b)
                    (status b) (records b) (approvedBy b) (rejectedBy b))
  | tamper_records (rs : list JsObject) :
      rs ≠ records b →
      tampered b (mkBlock (_id b) (blockId b) (prevHash b) (hash b) (timestamp b)
                    (status b) rs (approvedBy b) (rejectedBy b)).
End Derived.

(** ** Reads, frames and transitions *)

(** A later version of a transaction or supply-chain document: the same
    document, its status kept or moved on from ["inBlock"]. *)
Definition status_moved (d d' : RecordDoc) : Prop :=
  doc_id d' = doc_id d ∧ doc_fields d' = doc_fields d
  ∧ (doc_status d' = doc_status d
     ∨ doc_status d = "inBlock"
       ∧ (doc_status d' = "inChain" ∨ doc_status d' = "Rejected")).

(** What the block controller can make of a store, whatever the store
    and the request. *)
Record frame (s s' : Store) : Prop := mk_frame {
  frame_users : users s' = users s;
  frame_transactions : Forall2 status_moved (transactions s) (transactions s');
  frame_supplyChain : Forall2 status_moved (supplyChain s) (supplyChain s');
  frame_pool : approvedRecords s' `sublist_of` approvedRecords s;
  frame_blocks : (_id <$> blocks s) `prefix_of` (_id <$> blocks s');
}.

(** [m] takes every store to a store in relation [R] with it, whether it
    returns or throws. *)
Definition keeps {A : Type} (R : relation Store) (m : M A) : Prop :=
  ∀ s, R s (exec m s).

(** Nothing is left for [updateRecordsStatus] and [rejectRecords] to do. *)
Definition propagated (s : Store) : Prop :=
  Forall (λ d, doc_status d ≠ "inBlock") (transactions s ++ supplyChain s)
  ∧ exec updateRecordsStatus s = s
  ∧ exec rejectRecords s = s.

(** For [1 <= n <= N] validators and [k <= n] votes, the comparison of
    [blockConsensus] on doubles is the comparison of [k/n] with [33/50]. *)
Definition threshold_exact_upto (N : nat) : bool :=
  forallb (λ n, forallb (λ k,
      bool_decide (reachesThreshold (parseFloat k / parseFloat n)
                   = bool_decide (33 * Z.of_nat n ≤ 50 * Z.of_nat k)))
    (seq 0 (S n))) (seq 1 N).

Section Transitions.
Context `{Platform}.

(** What a step makes of the staging block [b], [done] being the blocks
    before it and [us] the users: another controller fills its batch, it
    is activated, it gets a vote that settles nothing, or a vote commits
    or rejects it. *)
Inductive staging_step (us : list User) (done : list Block) (b : Block)
  : Block → Prop :=
  | staging_filled (rs : list JsObject) :
      status b = Hibernating → staging_step us done b (set_records rs b)
  | staging_activated (t : string) :
      status b = Hibernating → length (records b) = MAX_RECORD →
      staging_step us done b (set_timestamp t (set_status Pending b))
  | staging_voted (isApproved : bool) (u : string) :
      status b = Pending → length (records b) = MAX_RECORD →
      u ∉ approvedBy b → u ∉ rejectedBy b →
      reachesThreshold (approvedPercentage (vote isApproved u b) us) = false →
      reachesThreshold (rejectedPercentage (vote isApproved u b) us) = false →
      staging_step us done b (vote isApproved u b)
  | staging_committed (top : Block) (t : string) (isApproved : bool) (u : string) :
      status b = Pending → length (records b) = MAX_RECORD →
      u ∉ approvedBy b → u ∉ rejectedBy b →
      list.last (chain_of done) = Some top →
      reachesThreshold (approvedPercentage (vote isApproved u b) us) = true →
      staging_step us done b (committed_block top t (vote isApproved u b))
  | staging_rejected (t : string) (isApproved : bool) (u : string) :
      status b = Pending → length (records b) = MAX_RECORD →
      u ∉ approvedBy b → u ∉ rejectedBy b →
      reachesThreshold (approvedPercentage (vote isApproved u b) us) = false →
      reachesThreshold (rejectedPercentage (vote isApproved u b) us) = true →
      staging_step us done b (rejected_block t (vote isApproved u b)).

(** The blocks that a call of [createHibernateBlock] adds: none when it
    throws, one staging block when it returns. *)
Definition new_staging (tl : list Block) : Prop :=
  tl = [] ∨ ∃ i t arr, tl = [hibernate_block i t arr].

(** What a step makes of the block collection of a well-formed store
    with the users [us]. *)
Inductive blocks_step (us : list User) : list Block → list Block → Prop :=
  | blocks_same (bs : list Block) : blocks_step us bs bs
  | blocks_bootstrap (i : nat) (t : string) (tl : list Block) :
      new_staging tl → blocks_step us [] (genesis_block i t :: tl)
  | blocks_staging (done : list Block) (b b' : Block) (tl : list Block) :
      Forall settled done → staged b → staging_step us done b b' →
      tl = [] ∨ (settled b' ∧ new_staging tl) →
      blocks_step us (done ++ [b]) (done ++ b' :: tl).
End Transitions.

(** ** The previous version of the controller

    [blockController.js] starts with the previous version of the
    controller. Most of its functions are the ones above word for word.
    Its [createHibernateBlock] is another one: it fills the new block
    from the approved transactions, not from a pool of approved
    records. *)

(** The document after [doc.status = "inBlock"]. *)
Definition marked_inBlock (d : RecordDoc) : RecordDoc :=
  mkRecordDoc (doc_id d) "inBlock" (doc_fields d).

Module Previous.
Section Controller.
Context `{Platform}.

(** How a transaction document reads as an embedded record of a block. *)
Context (toObject : RecordDoc → JsObject).

(** [TransactionModel.find({ status: "Approved" })] *)
Definition TransactionModel_find_Approved : M (list RecordDoc) :=
  λ s, (s, inr (filter (λ d, doc_status d = "Approved") (transactions s))).

(** [doc.save()]: the stored document with the [_id] of [doc] becomes
    [doc]. *)
Fixpoint save (doc : RecordDoc) (docs : list RecordDoc) : list RecordDoc :=
  match docs with
  | [] => []
  | d :: docs' =>
      if decide (doc_id d = doc_id doc) then doc :: docs' else d :: save doc docs'
  end.

(** [waitingTransactions[i].status = "inBlock"] and
    [await waitingTransactions[i].save()] for the indices in [idxs]; the
    array holds the changed documents afterwards. *)
Fixpoint mark_inBlock (idxs : list nat) (waitingTransactions : list RecordDoc)
  : M (list RecordDoc) :=
  match idxs with
  | [] => mret waitingTransactions
  | i :: idxs' =>
      match waitingTransactions !! i with
      | None =>
          throw (TypeError "Cannot set properties of undefined (setting 'status')")
      | Some d =>
          let d' := marked_inBlock d in
          _ ← modifyStore (λ s, with_transactions (save d' (transactions s)) s);
          mark_inBlock idxs' (<[i := d']> waitingTransactions)
      end
  end.

Definition createHibernateBlock : M (option Block) :=
  t ← newDate;
  hibernateBlock ← BlockModel_create (λ i,
    mkBlock i defaultBlockId defaultPrevHash defaultHash t Hibernating [] [] []);
  waitingTransactions ← TransactionModel_find_Approved;
  if decide (MAX_RECORD < length waitingTransactions)%nat then
    waitingTransactions ← mark_inBlock (seq 0 MAX_RECORD) waitingTransactions;
    hibernateBlock ← BlockModel_findOneAndUpdate (λ b, status b = Hibernating)
      (set_records (toObject <$> take MAX_RECORD waitingTransactions));
    mret hibernateBlock
  else
    waitingTransactions ← mark_inBlock (seq 0 (length waitingTransactions))
                            waitingTransactions;
    hibernateBlock ← BlockModel_findOneAndUpdate (λ b, status b = Hibernating)
      (set_records (toObject <$> waitingTransactions));
    mret hibernateBlock.
End Controller.
End Previous.

(** ** The handlers, await by await

    [step] runs a handler as a whole. The server does not: an [async]
    handler runs alone from one [await] to the next only, and while it
    waits for the answer of the store the handlers of other requests go
    on. A [Promise] is a handler as far as it has come: settled, with its
    answer or error, or waiting for one access to the store after which it
    goes on with the answer. What a handler computes between two accesses
    is inside the continuation. *)
Inductive Promise (A : Type) : Type :=
  | Settled (r : Error + A)
  | Await {X : Type} (op : M X) (k : X → Promise A).

Arguments Settled {A} r.
Arguments Await {A X} op k.

#[global] Instance Promise_ret : MRet Promise := λ A a, Settled (inr a).

(** [p.then(k)]; an error goes through. *)
Fixpoint Promise_then {A B : Type} (k : A → Promise B) (p : Promise A)
  : Promise B :=
  match p with
  | Settled (inr a) => k a
  | Settled (inl e) => Settled (inl e)
  | Await op k' => Await op (λ x, Promise_then k (k' x))
  end.

#[global] Instance Promise_bind : MBind Promise := @Promise_then.

(** [await op]: one access to the store. A reading of the clock is a
    step of the same kind: the handler reads the clock when it wakes up,
    and the access it asks for next is made some time later. *)
Definition await {X : Type} (op : M X) : Promise X :=
  Await op (λ x, Settled (inr x)).

Definition reject {A : Type} (e : Error) : Promise A := Settled (inl e).


(** One step of a waiting handler: the access is made and the handler
    goes on to its next [await]. *)
Definition advance {A : Type} (p : Promise A) (s : Store) : Store * Promise A :=
  match p with
  | Settled r => (s, p)
  | Await op k =>
      match op s with
      | (s', inr x) => (s', k x)
      | (s', inl e) => (s', Settled (inl e))
      end
  end.

Definition is_settled {A : Type} (p : Promise A) : bool :=
  match p with Settled _ => true | Await _ _ => false end.

(** The controller again, with one step for every [await] of the source
    and one for every [new Date()].

    Two things are coarser than the server. The loop of
    [createHibernateBlock] is one step, with its deletions: its counter
    [i] is not declared in the source and so is one variable for all
    requests, shared with the loops of [updateRecordsStatusInBlock] and
    [rejectRecordsStatusInBlock], and kept in one piece the loop does what
    the source does. An [updateMany] is one step although the store
    updates document by document. Both leave runs of the server out and
    add none: every run below is a run of the server. *)
Module Async.
Section Controller.
Context `{Platform}.

Definition createGenesisBlock : Promise Block :=
  let previousHash := "" in
  timestamp ← await newDate;
  let record := [] in
  genesisBlock ← await (BlockModel_create (λ i,
    mkBlock i GENESIS_BLOCK_ID previousHash
            (computeBlockHash GENESIS_BLOCK_ID previousHash timestamp record)
            timestamp inChain [] [] []));
  mret genesisBlock.

Definition createHibernateBlock : Promise Block :=
  s ← await getStore;
  let record := approvedRecords s in
  arr ← (if (0 <? length record)%nat
         then await (createHibernateBlock_loop record (seq 0 MAX_RECORD) [])
         else mret []);
  t ← await newDate;
  hibernateBlock ← await (BlockModel_create (λ i,
    mkBlock i defaultBlockId defaultPrevHash defaultHash t Hibernating arr [] []));
  mret hibernateBlock.

Definition getBlockchain : Promise (list Block + Block) :=
  blockchain ← await (BlockModel_find (λ b, status b = inChain));
  if decide (length blockchain = 0%nat) then
    blockchain ← createGenesisBlock;
    _ ← createHibernateBlock;
    mret (inr blockchain)
  else mret (inl blockchain).

Definition getWaitingBlock : Promise (option Block) :=
  waitingBlock ← await (BlockModel_findOne (λ b,
    statusName (status b) = js_or "Hibernating" "Pending"));
  mret waitingBlock.

Definition activateBlock (blockID : nat) : Promise (option Block) :=
  selectedBlock ← await (BlockModel_findOne (λ b,
    _id b = blockID ∧ status b = Hibernating));
  match selectedBlock with
  | None =>
      reject (NotFoundError
        ("No block with id " +:+ pretty blockID +:+
         " or block has already been activated"))
  | Some selectedBlock =>
      let isMaxRecord := bool_decide (length (records selectedBlock) = MAX_RECORD) in
      if negb isMaxRecord then
        reject (BadRequestError "Insufficient records in this block")
      else
        t ← await newDate;
        activated ← await (BlockModel_findOneAndUpdate (λ b, _id b = blockID)
          (λ b, set_timestamp t (set_status Pending b)));
        mret activated
  end.

Definition updateRecordsStatus : Promise unit :=
  _ ← await (modifyStore (λ s,
        with_transactions (updateMany_status "inBlock" "inChain" (transactions s)) s));
  await (modifyStore (λ s,
        with_supplyChain (updateMany_status "inBlock" "inChain" (supplyChain s)) s)).

Definition rejectRecords : Promise unit :=
  _ ← await (modifyStore (λ s,
        with_transactions (updateMany_status "inBlock" "Rejected" (transactions s)) s));
  await (modifyStore (λ s,
        with_supplyChain (updateMany_status "inBlock" "Rejected" (supplyChain s)) s)).

(** The loop works on the document in memory; [block.save()] is the one
    access. *)
Definition setRecordsStatusInBlock (st : string) (block : option Block)
  : Promise Block :=
  match block with
  | None => reject (TypeError "Cannot read properties of null (reading 'records')")
  | Some block =>
      match setStatusInBlock_loop st (seq 0 MAX_RECORD) (records block) with
      | inl e => reject e
      | inr recs =>
          let block := set_records recs block in
          _ ← await (save_records block);
          mret block
      end
  end.

Definition updateRecordsStatusInBlock := setRecordsStatusInBlock "inChain".
Definition rejectRecordsStatusInBlock := setRecordsStatusInBlock "Rejected".

Definition appendToBlockchain (block : Block) (id : nat) : Promise (option Block) :=
  blockchain ← await (BlockModel_find (λ b, status b = inChain));
  let blockchain := sort_desc blockchain in
  match blockchain !! 0%nat with
  | None => reject (TypeError "Cannot read properties of undefined (reading 'blockId')")
  | Some top =>
      let blockId := blockId top + 1 in
      let prevHash := hash top in
      timestamp ← await newDate;
      updatedBlock ← await (BlockModel_findOneAndUpdate
        (λ b, _id b = id ∧ status b = Approved)
        (set_chained blockId prevHash
           (computeBlockHash blockId prevHash timestamp (records block))
           timestamp));
      _ ← createHibernateBlock;
      mret updatedBlock
  end.

(** [block] is the document that [approveBlock] got back from its own
    write: what other requests have done to the stored block since is not
    in it. *)
Definition blockConsensus (block : Block) (id : nat) : Promise (option Block) :=
  if decide (status block = Pending) then
    validators ← await UserModel_find_validators;
    let approvedPercentage :=
      PrimFloat.div (parseFloat (length (approvedBy block)))
                    (parseFloat (length validators)) in
    let rejectedPercentage :=
      PrimFloat.div (parseFloat (length (rejectedBy block)))
                    (parseFloat (length validators)) in
    if reachesThreshold approvedPercentage then
      block ← await (BlockModel_findOneAndUpdate (λ b, _id b = id) (set_status Approved));
      _ ← updateRecordsStatus;
      block ← updateRecordsStatusInBlock block;
      block ← appendToBlockchain block id;
      mret block
    else if reachesThreshold rejectedPercentage then
      t ← await newDate;
      block ← await (BlockModel_findOneAndUpdate (λ b, _id b = id)
        (λ b, set_timestamp t (set_status Rejected b)));
      _ ← rejectRecords;
      block ← rejectRecordsStatusInBlock block;
      _ ← createHibernateBlock;
      mret (Some block)
    else mret (Some block)
  else mret None.

Definition approveBlock (blockID : nat) (isApproved : bool) (username : string)
  : Promise (string * option Block) :=
  hasApproveBefore ← await (BlockModel_findOne (λ b,
    _id b = blockID ∧ (username ∈ approvedBy b ∨ username ∈ rejectedBy b)));
  if bool_decide (is_Some hasApproveBefore) then
    reject (BadRequestError "Already rejected or approved this block")
  else
    block ← await (BlockModel_findOneAndUpdate
      (λ b, _id b = blockID ∧ status b = Pending)
      (if isApproved then addToSet_approvedBy username
       else addToSet_rejectedBy username));
    match block with
    | None =>
        reject (NotFoundError
          ("No pending block with id " +:+ pretty blockID +:+
           " or block has not been activated"))
    | Some block =>
        block ← blockConsensus block blockID;
        let message :=
          if isApproved then "You have approved this block"
          else "You have rejected this block" in
        mret (message, block)
    end.

Definition validateBlockchain : Promise (bool * list Block) :=
  blockchain ← await (BlockModel_find (λ b, status b = inChain));
  let isValid := (validateBlocks blockchain).2 in
  mret (isValid, blockchain).

Definition getBlock (blockID : Z) : Promise Block :=
  block ← await (BlockModel_findOne (λ b, blockId b = blockID));
  match block with
  | None => reject (NotFoundError ("No block with block id " +:+ pretty blockID))
  | Some block => mret block
  end.

Definition validateBlock (blockID : nat) : Promise bool :=
  block ← await (BlockModel_findOne (λ b, _id b = blockID));
  match block with
  | None => reject (BadRequestError ("No block with id " +:+ pretty blockID))
  | Some block => mret (validateBlockRecords (records block))
  end.

(** The handler of a request; what it answers is left out, an error is
    kept. *)
Definition serve (r : Request) : Promise unit :=
  match r with
  | GetBlockchain => _ ← getBlockchain; mret tt
  | GetBlock blockID => _ ← getBlock blockID; mret tt
  | GetWaitingBlock => _ ← getWaitingBlock; mret tt
  | ValidateBlock blockID => _ ← validateBlock blockID; mret tt
  | ActivateBlock blockID => _ ← activateBlock blockID; mret tt
  | ApproveBlock blockID isApproved username =>
      _ ← approveBlock blockID isApproved username; mret tt
  | ValidateBlockchain => _ ← validateBlockchain; mret tt
  end.
End Controller.
End Async.

(** ** The server with several requests in flight *)

(** The store and the handlers that have been started, each as far as it
    has come. *)
Record Server : Type := mkServer {
  store : Store;
  inFlight : list (Promise unit);
}.

(** A request arrives and its handler is started; the handler at place
    [i] makes its next access; the settled handlers leave. *)
Inductive Event : Type :=
  | Arrive (r : Request)
  | Resume (i : nat)
  | Respond.

Section Interleaving.
Context `{Platform}.

Definition react (e : Event) (srv : Server) : Server :=
  match e with
  | Arrive r => mkServer (store srv) (inFlight srv ++ [Async.serve r])
  | Resume i =>
      match inFlight srv !! i with
      | None => srv
      | Some p =>
          let '(s', p') := advance p (store srv) in
          mkServer s' (<[i := p']> (inFlight srv))
      end
  | Respond =>
      mkServer (store srv) (filter (λ p, is_settled p = false) (inFlight srv))
  end.

Definition play (es : list Event) (srv : Server) : Server :=
  foldl (λ srv e, react e srv) srv es.

(** What the server can come to, from a collection without blocks and
    with no request in flight: by the events above in any order, and by
    the changes that the other controllers make. *)
Inductive interleaved : Server → Prop :=
  | interleaved_init (s : Store) : blocks s = [] → interleaved (mkServer s [])
  | interleaved_event (e : Event) (srv : Server) :
      interleaved srv → interleaved (react e srv)
  | interleaved_outside (srv : Server) (s' : Store) :
      interleaved srv → outside_change (store srv) s' →
      interleaved (mkServer s' (inFlight srv)).
End Interleaving.

(** ** A platform and stores to run the controller on *)

Module Scenario.

#[local] Instance JsValue_countable : Countable JsValue :=
  inj_countable'
    (λ v, match v with JsNum z => inl z | JsStr s => inr s end)
    (λ x, match x with inl z => JsNum z | inr s => JsStr s end)
    (λ v, match v with JsNum _ => eq_refl | JsStr _ => eq_refl end).

(** A platform to run the controller on: the hash only tags its input,
    the serialization is an injective numbering of the record lists, every
    transaction is valid and the clock counts. *)
Definition demo : Platform :=
  mkPlatform (String.app "sha256:")
             (λ rs, pretty (encode rs))
             (λ _, true)
             (λ n, "day " +:+ pretty n)
             (-1) "" "".

#[local] Existing Instance demo.

Definition s0 : Store :=
  mkStore []
    [mkUser "ann" "Validator"; mkUser "bob" "Validator";
     mkUser "cat" "Validator"; mkUser "dan" "Admin"]
    [mkRecordDoc 0 "inBlock" []; mkRecordDoc 1 "Created" []]
    [mkRecordDoc 0 "inBlock" []]
    [mkApprovedRecord 0 [("amount", JsNum 5)]; mkApprovedRecord 1 [("item", JsStr "x")]]
    0 0.

(** The empty store with one approved record waiting. *)
Definition s_one : Store :=
  mkStore [] [] [] [] [mkApprovedRecord 0 [("amount", JsNum 5)]] 0 0.

Definition s1 : Store := Eval vm_compute in handle GetBlockchain s0.
Definition s2 : Store := Eval vm_compute in handle (ActivateBlock 1) s1.
Definition s3 : Store := Eval vm_compute in handle (ApproveBlock 1 true "ann") s2.
Definition s4 : Store := Eval vm_compute in handle (ApproveBlock 1 true "bob") s3.

(** The spec's reject scenario: two of three validators reject. *)
Definition r3 : Store := Eval vm_compute in handle (ApproveBlock 1 false "ann") s2.
Definition r4 : Store := Eval vm_compute in handle (ApproveBlock 1 false "bob") r3.

Definition staging (s : Store) : Block :=
  default (genesis_block 0 "") (list.last (blocks s)).

Definition b1 : Block := Eval vm_compute in staging s1.
Definition b2 : Block := Eval vm_compute in staging s2.
Definition b3 : Block := Eval vm_compute in staging s3.

(** The block committed in [s4], and the same block with another
    timestamp. *)
Definition committed : Block :=
  Eval vm_compute in default (genesis_block 0 "") (chain_of (blocks s4) !! 1%nat).

Definition forged : Block :=
  Eval vm_compute in
    mkBlock (_id committed) (blockId committed) (prevHash committed)
            (hash committed) "day 9" (status committed) (records committed)
            (approvedBy committed) (rejectedBy committed).

(** The genesis block of the scenario. *)
Definition genesis : Block :=
  Eval vm_compute in default (genesis_block 0 "") (blocks s1 !! 0%nat).

(** The staging block that [createHibernateBlock] creates on [s0]. *)
Definition h0 : Block :=
  Eval vm_compute in
    hibernate_block 0 "day 0" [[("amount", JsNum 5)]; [("item", JsStr "x")]].

(** A store without validators, its staging block activated. *)
Definition v0 : Store :=
  mkStore [] [mkUser "dan" "Admin"] [] []
    [mkApprovedRecord 0 [("amount", JsNum 5)]; mkApprovedRecord 1 [("item", JsStr "x")]]
    0 0.

Definition v1 : Store := Eval vm_compute in handle GetBlockchain v0.
Definition v2 : Store := Eval vm_compute in handle (ActivateBlock 1) v1.
Definition w2 : Block := Eval vm_compute in staging v2.

(** A store with four approved records waiting: two batches. *)
Definition p0 : Store :=
  mkStore []
    [mkUser "ann" "Validator"; mkUser "bob" "Validator";
     mkUser "cat" "Validator"; mkUser "dan" "Admin"]
    [mkRecordDoc 0 "inBlock" []; mkRecordDoc 1 "Created" []]
    [mkRecordDoc 0 "inBlock" []]
    [mkApprovedRecord 0 [("amount", JsNum 5)]; mkApprovedRecord 1 [("item", JsStr "x")];
     mkApprovedRecord 2 [("amount", JsNum 7)]; mkApprovedRecord 3 [("item", JsStr "y")]]
    0 0.

(** The handler at place [i] goes on until it has settled (no handler
    makes more than 40 accesses). *)
Definition finish (i : nat) : list Event := repeat (Resume i) 40.

(** [ann] sends her approval and her rejection of block 1 together: both
    handlers have asked whether she has voted before either writes. *)
Definition double_vote : list Event :=
  [Arrive GetBlockchain] ++ finish 0 ++
  [Arrive (ActivateBlock 1)] ++ finish 1 ++
  [Arrive (ApproveBlock 1 true "ann"); Arrive (ApproveBlock 1 false "ann");
   Resume 2; Resume 3; Resume 2; Resume 3] ++ finish 2 ++ finish 3.

Definition after_double_vote : Server := play double_vote (mkServer s0 []).

(** The approval of [bob] is written and his handler then waits, with
    the block as its write has returned it ([Pending], approved by [ann]
    and [bob]). Meanwhile the approval of [cat] commits block 1, and block
    2 is activated, approved and committed on top of it. *)
Definition vote_stalls : list Event :=
  [Arrive GetBlockchain] ++ finish 0 ++
  [Arrive (ActivateBlock 1)] ++ finish 1 ++
  [Arrive (ApproveBlock 1 true "ann")] ++ finish 2 ++
  [Arrive (ApproveBlock 1 true "bob"); Resume 3; Resume 3] ++
  [Arrive (ApproveBlock 1 true "cat")] ++ finish 4 ++
  [Arrive (ActivateBlock 2)] ++ finish 5 ++
  [Arrive (ApproveBlock 2 true "ann")] ++ finish 6 ++
  [Arrive (ApproveBlock 2 true "bob")] ++ finish 7.

Definition vote_stalled : Server := play vote_stalls (mkServer p0 []).

(** The handler of [bob] goes on. *)
Definition after_stalled_vote : Server := play (finish 3) vote_stalled.

(** Block 1 as the chain has it while the vote is stalled, block 1 as the
    vote commits it again, and block 2, committed on top of the former. *)
Definition first_commit : Block :=
  Eval vm_compute in
    default (genesis_block 0 "") (blocks (store vote_stalled) !! 1%nat).

Definition second_commit : Block :=
  Eval vm_compute in
    default (genesis_block 0 "") (blocks (store after_stalled_vote) !! 1%nat).

Definition orphan : Block :=
  Eval vm_compute in
    default (genesis_block 0 "") (blocks (store after_stalled_vote) !! 2%nat).

(** The block with both votes of [ann]. *)
Definition twice_voted : Block :=
  Eval vm_compute in
    default (genesis_block 0 "") (blocks (store after_double_vote) !! 1%nat).
End Scenario.

(** * Properties *)

Lemma returns_inr {A : Type} (a : A) : returns (inr a : Error + A).
Proof. by exists a. Qed.

Lemma not_returns_inl {A : Type} (e : Error) : ¬ returns (inl e : Error + A).
Proof. by intros [a ?]. Qed.

(** ** Lists of documents *)

Section ListFacts.
Context {A : Type} (P : A → Prop) `{!∀ x, Decision (P x)}.

Lemma list_find_snoc (l : list A) (x : A) :
  Forall (λ y, ¬ P y) l →
  list_find P (l ++ [x]) = if decide (P x) then Some (length l, x) else None.
Proof.
  intros Hl. case_decide as HP.
  - apply list_find_Some. split_and!.
    + by rewrite lookup_app_r, Nat.sub_diag.
    + done.
    + intros j y Hj Hlt. rewrite lookup_app_l in Hj by done.
      eapply Forall_lookup_1 in Hl; eauto.
  - apply list_find_None. apply Forall_app. split; [done|].
    by apply Forall_singleton.
Qed.

Lemma insert_snoc (l : list A) (x y : A) : <[length l := y]> (l ++ [x]) = l ++ [y].
Proof.
  replace (length l) with (length l + 0)%nat by lia.
  by rewrite insert_app_r.
Qed.

End ListFacts.

(** ** The handler monad *)

Lemma run_bind {A B : Type} (m : M A) (k : A → M B) (s s' : Store) (a : A) :
  m s = (s', inr a) → (m ≫= k) s = k a s'.
Proof. unfold mbind, M_bind. by intros ->. Qed.

Lemma run_bind_ret {A : Type} (m : M A) (s : Store) :
  (m ≫= λ a, mret a) s = m s.
Proof. unfold mbind, M_bind, mret, M_ret. by destruct (m s) as [s' [e|a]]. Qed.

Lemma exec_bind_mret {A B : Type} (m : M A) (f : A → B) (s : Store) :
  exec (m ≫= λ a, mret (f a)) s = exec m s.
Proof.
  unfold exec, mbind, M_bind, mret, M_ret. by destruct (m s) as [s' [e|a]].
Qed.

Lemma bind_mret_assoc {A B C : Type} (m : M A) (m' : M B) (a : A) (f : A → C)
    (s s1 : Store) :
  m s = (m' ≫= λ _, mret a) s1 →
  (m ≫= λ x, mret (f x)) s = (m' ≫= λ _, mret (f a)) s1.
Proof.
  unfold mbind, M_bind, mret, M_ret. intros ->.
  by destruct (m' s1) as [s' [e|b]].
Qed.

(** Runs the first handler of a bind on the left of an equation,
    [tac] proving what it returns. *)
Ltac run_step tac :=
  etrans; [eapply run_bind; tac|]; cbn beta.

Section Properties.
Context `{Platform}.

(** ** The committed chain *)

Lemma settled_not_staged b : settled b → ¬ staged b.
Proof. intros [?|?] [?|[? _]]; congruence. Qed.

Lemma chain_of_app l1 l2 : chain_of (l1 ++ l2) = chain_of l1 ++ chain_of l2.
Proof. apply list.filter_app. Qed.

Lemma chain_of_singleton b :
  chain_of [b] = if decide (status b = inChain) then [b] else [].
Proof. unfold chain_of. rewrite filter_cons, filter_nil. by case_decide. Qed.

Lemma chain_of_snoc_other l b : status b ≠ inChain → chain_of (l ++ [b]) = chain_of l.
Proof.
  intros. rewrite chain_of_app, chain_of_singleton, decide_False by done.
  apply app_nil_r.
Qed.

Lemma chain_of_snoc_inChain l b :
  status b = inChain → chain_of (l ++ [b]) = chain_of l ++ [b].
Proof. intros. by rewrite chain_of_app, chain_of_singleton, decide_True. Qed.

Lemma shape_snoc_inv done b :
  shape (done ++ [b]) → staged b → Forall settled done.
Proof.
  intros [Hall|(done' & b' & Heq & Hdone & _)] Hb.
  - rewrite Forall_app, Forall_singleton in Hall. destruct Hall as [_ Hb'].
    by destruct (settled_not_staged b Hb' Hb).
  - by apply app_inj_tail in Heq as [-> _].
Qed.

Lemma linked_singleton g :
  blockId g = 0 → prevHash g = "" → hash_ok g → linked [g].
Proof.
  intros Hid Hprev Hhash [|i] b Hi.
  - cbn in Hi. simplify_eq. by rewrite Hid.
  - by destruct i.
Qed.

Lemma linked_last chain top :
  linked chain → list.last chain = Some top →
  blockId top = Z.of_nat (length chain) - 1.
Proof.
  intros Hl Hlast. rewrite last_lookup in Hlast.
  destruct (Hl _ _ Hlast) as [-> _].
  apply lookup_lt_Some in Hlast. lia.
Qed.

Lemma linked_snoc chain top b :
  linked chain → list.last chain = Some top →
  blockId b = blockId top + 1 → prevHash b = hash top → hash_ok b →
  linked (chain ++ [b]).
Proof.
  intros Hl Hlast Hid Hprev Hhash i x Hi.
  pose proof (linked_last _ _ Hl Hlast) as Htop.
  apply lookup_app_Some in Hi as [Hi|[Hge Hi]].
  - destruct (Hl _ _ Hi) as (? & ? & Hp). split_and!; [done..|].
    destruct i as [|j]; [done|]. destruct Hp as (p & Hp & ?).
    exists p. split; [|done]. by apply lookup_app_l_Some.
  - apply list_lookup_singleton_Some in Hi as [Hi <-].
    assert (i = length chain) as -> by lia.
    split_and!; [lia|done|].
    rewrite last_lookup in Hlast.
    destruct (length chain) as [|j] eqn:Hlen.
    + apply lookup_lt_Some in Hlast. lia.
    + exists top. split; [|done]. by apply lookup_app_l_Some.
Qed.

(** The head of the sorted query of [appendToBlockchain] is a block
    with the greatest [blockId]. *)
Lemma insert_desc_head b l :
  ∃ m rest, insert_desc b l = m :: rest ∧
    (m = b ∧ Forall (λ x, blockId x ≤ blockId b) (take 1 l)
     ∨ head l = Some m ∧ blockId b < blockId m).
Proof.
  destruct l as [|x l']; cbn.
  - exists b, []. split; [done|]. left. by split.
  - case_decide as Hle.
    + exists b, (x :: l'). split; [done|]. left. split; [done|].
      rewrite take_0. by rewrite Forall_singleton.
    + exists x, (insert_desc b l'). split; [done|]. right. split; [done|lia].
Qed.

Lemma sort_desc_head l :
  l ≠ [] →
  ∃ m, sort_desc l !! 0%nat = Some m ∧ m ∈ l ∧ Forall (λ x, blockId x ≤ blockId m) l.
Proof.
  induction l as [|a l IH]; [done|]. intros _.
  change (sort_desc (a :: l)) with (insert_desc a (sort_desc l)).
  destruct (insert_desc_head a (sort_desc l)) as (m & rest & -> & Hcase).
  exists m. split; [done|].
  destruct l as [|a' l'].
  { cbn in Hcase. destruct Hcase as [[-> _]|[? _]]; [|done].
    split; [apply list_elem_of_here|]. apply Forall_singleton. lia. }
  destruct IH as (m' & Hm' & Hin & Hmax); [done|].
  rewrite <- head_lookup in Hm'.
  destruct Hcase as [[-> Hle]|[Hhd Hlt]].
  - split; [apply list_elem_of_here|].
    constructor; [lia|].
    destruct (sort_desc (a' :: l')) as [|y ys]; [done|].
    cbn in Hm', Hle. simplify_eq. rewrite take_0 in Hle.
    rewrite Forall_singleton in Hle.
    eapply Forall_impl; [exact Hmax|]. cbn. intros. lia.
  - rewrite Hhd in Hm'. simplify_eq.
    split; [by apply list_elem_of_further|].
    constructor; [lia|done].
Qed.

Lemma linked_top chain :
  linked chain → chain ≠ [] →
  ∃ top, list.last chain = Some top ∧ sort_desc chain !! 0%nat = Some top.
Proof.
  intros Hl Hne.
  destruct (sort_desc_head chain Hne) as (m & Hm & Hin & Hmax).
  destruct (list.last chain) as [top|] eqn:Hlast; [|by apply last_None in Hlast].
  exists top. split; [done|]. rewrite Hm. f_equal.
  pose proof (linked_last _ _ Hl Hlast) as Htop.
  apply list_elem_of_lookup in Hin as [i Hi].
  destruct (Hl _ _ Hi) as [Hmi _].
  pose proof (lookup_lt_Some _ _ _ Hi) as Hlt.
  rewrite last_lookup in Hlast.
  eapply Forall_lookup_1 in Hmax; [|exact Hlast]. cbn in Hmax.
  assert (i = pred (length chain)) as -> by lia.
  congruence.
Qed.

(** ** Well-formed collections of blocks *)

Lemma staged_not_inChain b : staged b → status b ≠ inChain.
Proof. intros [?|[? _]]; congruence. Qed.

Lemma wf_blocks_nil n : wf_blocks n [].
Proof.
  split; cbn; try done; try by constructor.
Qed.

(** The first block of the collection. *)
Lemma wf_blocks_genesis n g :
  _id g = n → status g = inChain → blockId g = 0 → prevHash g = "" →
  hash_ok g → votes_distinct g → wf_blocks (S n) [g].
Proof.
  intros Hid Hst Hbid Hprev Hhash Hvotes.
  assert (chain_of [g] = [g]) as Hchain.
  { by rewrite chain_of_singleton, decide_True. }
  split.
  - cbn. apply NoDup_singleton.
  - apply Forall_singleton. lia.
  - by apply Forall_singleton.
  - left. apply Forall_singleton. by left.
  - rewrite Hchain. by apply linked_singleton.
  - by rewrite Hchain.
Qed.

(** A new staging block after a collection of settled blocks. *)
Lemma wf_blocks_stage n bs hib :
  wf_blocks n bs → Forall settled bs → bs ≠ [] →
  _id hib = n → staged hib → votes_distinct hib →
  wf_blocks (S n) (bs ++ [hib]).
Proof.
  intros [Hids Hfresh Hvotes _ Hlinked Hgen] Hsettled Hne Hid Hst Hv.
  pose proof (staged_not_inChain _ Hst) as Hnot.
  split.
  - rewrite fmap_app. apply NoDup_app. split_and!; [done| |apply NoDup_singleton].
    intros i Hi Hi'. apply list_elem_of_singleton in Hi'. subst i.
    apply list_elem_of_fmap in Hi as (b & Hb & Hin).
    eapply Forall_forall in Hfresh; [|exact Hin]. cbn in *. lia.
  - apply Forall_app. split.
    + eapply Forall_impl; [exact Hfresh|]. cbn. intros. lia.
    + apply Forall_singleton. lia.
  - apply Forall_app. split; [done|]. by apply Forall_singleton.
  - right. by exists bs, hib.
  - by rewrite chain_of_snoc_other.
  - intros _. rewrite chain_of_snoc_other by done. auto.
Qed.

(** The staging block is replaced by a later version of itself. *)
Lemma wf_blocks_replace_last n done b b' :
  wf_blocks n (done ++ [b]) → staged b → _id b' = _id b → votes_distinct b' →
  (staged b' ∨ status b' = Rejected ∨
   (status b' = inChain ∧ ∃ top, list.last (chain_of done) = Some top ∧
      blockId b' = blockId top + 1 ∧ prevHash b' = hash top ∧ hash_ok b')) →
  wf_blocks n (done ++ [b']).
Proof.
  intros [Hids Hfresh Hvotes Hshape Hlinked Hgen] Hst Hid Hv Hcase.
  pose proof (shape_snoc_inv _ _ Hshape Hst) as Hdone.
  pose proof (staged_not_inChain _ Hst) as Hnot.
  rewrite chain_of_snoc_other in Hlinked, Hgen by done.
  assert (chain_of done ≠ []) as Hne.
  { apply Hgen. by destruct done. }
  apply Forall_app in Hfresh as [Hf1 Hf2]. rewrite Forall_singleton in Hf2.
  apply Forall_app in Hvotes as [Hv1 _].
  split.
  - rewrite fmap_app in *. cbn in *. by rewrite Hid.
  - apply Forall_app. split; [done|]. apply Forall_singleton. by rewrite Hid.
  - apply Forall_app. split; [done|]. by apply Forall_singleton.
  - destruct Hcase as [?|[?|[? _]]].
    + right. by exists done, b'.
    + left. apply Forall_app. split; [done|]. apply Forall_singleton. by right.
    + left. apply Forall_app. split; [done|]. apply Forall_singleton. by left.
  - destruct Hcase as [Hs|[Hs|[Hs (top & Hlast & ? & ? & ?)]]].
    + rewrite chain_of_snoc_other; [done|]. by apply staged_not_inChain.
    + rewrite chain_of_snoc_other; [done|]. congruence.
    + rewrite chain_of_snoc_inChain by done. by eapply linked_snoc.
  - intros _. rewrite chain_of_app. intros [? _]%app_eq_nil. done.
Qed.

(** ** What the handlers do to a store *)

(** [$addToSet] of a name the array does not hold appends it. *)
Lemma addToSet_new u l : u ∉ l → addToSet u l = l ++ [u].
Proof. intros. unfold addToSet. by rewrite decide_False. Qed.

Lemma setStatusInBlock_loop_full st recs :
  length recs = MAX_RECORD →
  setStatusInBlock_loop st (seq 0 MAX_RECORD) recs = inr (set_record_statuses st recs).
Proof.
  destruct recs as [|r0 [|r1 [|r2 recs]]]; try done.
Qed.

Lemma findOneAndUpdate_last (P : Block → Prop) `{!∀ x, Decision (P x)}
    (upd : Block → Block) (b : Block) done us ts sc pool n d :
  Forall (λ x, ¬ P x) done → P b →
  BlockModel_findOneAndUpdate P upd (mkStore (done ++ [b]) us ts sc pool n d)
  = (mkStore (done ++ [upd b]) us ts sc pool n d, inr (Some (upd b))).
Proof.
  intros Hdone Hb. unfold BlockModel_findOneAndUpdate. cbn.
  rewrite list_find_snoc, decide_True by done.
  unfold with_blocks. cbn. by rewrite insert_snoc.
Qed.

Lemma updateRecordsStatus_run bs us ts sc pool n d :
  updateRecordsStatus (mkStore bs us ts sc pool n d)
  = (mkStore bs us (updateMany_status "inBlock" "inChain" ts)
       (updateMany_status "inBlock" "inChain" sc) pool n d, inr tt).
Proof. done. Qed.

Lemma rejectRecords_run bs us ts sc pool n d :
  rejectRecords (mkStore bs us ts sc pool n d)
  = (mkStore bs us (updateMany_status "inBlock" "Rejected" ts)
       (updateMany_status "inBlock" "Rejected" sc) pool n d, inr tt).
Proof. done. Qed.

Lemma newDate_run bs us ts sc pool n d :
  newDate (mkStore bs us ts sc pool n d)
  = (mkStore bs us ts sc pool n (S d), inr (toLocaleString d)).
Proof. done. Qed.

Lemma find_validators_run bs us ts sc pool n d :
  UserModel_find_validators (mkStore bs us ts sc pool n d)
  = (mkStore bs us ts sc pool n d, inr (filter (λ u, role u = "Validator") us)).
Proof. done. Qed.

Lemma setRecordsStatusInBlock_run st a done us ts sc pool n d :
  Forall (λ x, _id x ≠ _id a) done → length (records a) = MAX_RECORD →
  setRecordsStatusInBlock st (Some a) (mkStore (done ++ [a]) us ts sc pool n d)
  = (mkStore (done ++ [set_records (set_record_statuses st (records a)) a])
             us ts sc pool n d,
     inr (set_records (set_record_statuses st (records a)) a)).
Proof.
  intros Hdone Hlen. unfold setRecordsStatusInBlock.
  rewrite setStatusInBlock_loop_full by done.
  unfold save_records.
  run_step ltac:(
    run_step ltac:(apply findOneAndUpdate_last; [|done];
                   eapply Forall_impl; [exact Hdone|]; cbn; congruence);
    done).
  done.
Qed.

Lemma appendToBlockchain_run (block a top : Block) id done us ts sc pool n d :
  _id a = id → Forall (λ x, _id x ≠ id) done → status a = Approved →
  sort_desc (chain_of done) !! 0%nat = Some top →
  let t := toLocaleString d in
  let committed :=
    set_chained (blockId top + 1) (hash top)
      (computeBlockHash (blockId top + 1) (hash top) t (records block)) t a in
  appendToBlockchain block id (mkStore (done ++ [a]) us ts sc pool n d)
  = (createHibernateBlock ≫= λ _, mret (Some committed))
      (mkStore (done ++ [committed]) us ts sc pool n (S d)).
Proof.
  intros <- Hdone Hst Htop t committed. unfold appendToBlockchain.
  run_step ltac:(done). cbn.
  fold (chain_of (done ++ [a])).
  rewrite chain_of_snoc_other by congruence.
  unfold sort_desc in Htop. rewrite Htop.
  run_step ltac:(apply newDate_run).
  run_step ltac:(apply findOneAndUpdate_last; [|done];
                 eapply Forall_impl; [exact Hdone|]; cbn; tauto).
  done.
Qed.

Lemma blockConsensus_run (voted top : Block) done us ts sc pool n d :
  Forall (λ x, _id x ≠ _id voted) done → status voted = Pending →
  length (records voted) = MAX_RECORD →
  sort_desc (chain_of done) !! 0%nat = Some top →
  let t := toLocaleString d in
  blockConsensus voted (_id voted) (mkStore (done ++ [voted]) us ts sc pool n d)
  = if reachesThreshold (approvedPercentage voted us) then
      (createHibernateBlock ≫= λ _, mret (Some (committed_block top t voted)))
        (mkStore (done ++ [committed_block top t voted]) us
           (updateMany_status "inBlock" "inChain" ts)
           (updateMany_status "inBlock" "inChain" sc) pool n (S d))
    else if reachesThreshold (rejectedPercentage voted us) then
      (createHibernateBlock ≫= λ _, mret (Some (rejected_block t voted)))
        (mkStore (done ++ [rejected_block t voted]) us
           (updateMany_status "inBlock" "Rejected" ts)
           (updateMany_status "inBlock" "Rejected" sc) pool n (S d))
    else (mkStore (done ++ [voted]) us ts sc pool n d, inr (Some voted)).
Proof.
  intros Hdone Hst Hlen Htop t. unfold blockConsensus.
  rewrite decide_True by done.
  run_step ltac:(apply find_validators_run). cbn zeta.
  fold (approvedPercentage voted us). fold (rejectedPercentage voted us).
  destruct (reachesThreshold (approvedPercentage voted us)).
  - run_step ltac:(by apply findOneAndUpdate_last).
    run_step ltac:(apply updateRecordsStatus_run).
    run_step ltac:(
      by apply (setRecordsStatusInBlock_run "inChain" (set_status Approved voted))).
    rewrite run_bind_ret.
    etrans;
      [by eapply (appendToBlockchain_run _
                    (set_records _ (set_status Approved voted)) top)|].
    done.
  - destruct (reachesThreshold (rejectedPercentage voted us)); [|done].
    run_step ltac:(apply newDate_run).
    run_step ltac:(by apply findOneAndUpdate_last).
    run_step ltac:(apply rejectRecords_run).
    run_step ltac:(
      by apply (setRecordsStatusInBlock_run "Rejected"
                  (set_timestamp _ (set_status Rejected voted)))).
    done.
Qed.

(** The three ways through [approveBlock]: the caller has voted on the
    block before, the block is not a [Pending] one, or the vote is
    recorded and the consensus evaluated. *)
Lemma approveBlock_cases (id : nat) (isApproved : bool) (u : string) (s : Store) :
  let voted_before := λ b, _id b = id ∧ (u ∈ approvedBy b ∨ u ∈ rejectedBy b) in
  let pending := λ b, _id b = id ∧ status b = Pending in
  (is_Some (list_find voted_before (blocks s))
   ∧ approveBlock id isApproved u s
     = (s, inl (BadRequestError "Already rejected or approved this block")))
  ∨ (list_find voted_before (blocks s) = None
     ∧ list_find pending (blocks s) = None
     ∧ approveBlock id isApproved u s
       = (s, inl (NotFoundError
            ("No pending block with id " +:+ pretty id +:+
             " or block has not been activated"))))
  ∨ (list_find voted_before (blocks s) = None
     ∧ ∃ i b, list_find pending (blocks s) = Some (i, b)
       ∧ approveBlock id isApproved u s
         = (blockConsensus (vote isApproved u b) id
              ≫= λ block, mret (approve_message isApproved, block))
             (with_blocks (<[i := vote isApproved u b]> (blocks s)) s)).
Proof.
  cbn zeta. unfold approveBlock, vote, approve_message.
  unfold mbind, M_bind, BlockModel_findOne, BlockModel_findOneAndUpdate.
  destruct (list_find _ (blocks s)) as [[j x]|] eqn:Hbefore.
  { left. split; [by eexists|]. done. }
  right. cbn.
  destruct (list_find (λ b, _id b = id ∧ status b = Pending) (blocks s))
    as [[i b]|] eqn:Hpending.
  - right. split; [done|]. exists i, b. split; [done|]. by destruct isApproved.
  - left. done.
Qed.

Lemma findOne_bind {B : Type} (P : Block → Prop) `{!∀ b, Decision (P b)}
    (k : option Block → M B) (s : Store) :
  (BlockModel_findOne P ≫= k) s = k (snd <$> list_find P (blocks s)) s.
Proof. done. Qed.

Lemma find_bind {B : Type} (P : Block → Prop) `{!∀ b, Decision (P b)}
    (k : list Block → M B) (s : Store) :
  (BlockModel_find P ≫= k) s = k (filter P (blocks s)) s.
Proof. done. Qed.

(** The two failures of [activateBlock] and its success. *)
Lemma activateBlock_cases (id : nat) (s : Store) :
  let hibernating := λ b, _id b = id ∧ status b = Hibernating in
  (list_find hibernating (blocks s) = None
   ∧ activateBlock id s
     = (s, inl (NotFoundError
          ("No block with id " +:+ pretty id +:+
           " or block has already been activated"))))
  ∨ (∃ i b, list_find hibernating (blocks s) = Some (i, b)
     ∧ length (records b) ≠ MAX_RECORD
     ∧ activateBlock id s
       = (s, inl (BadRequestError "Insufficient records in this block")))
  ∨ (∃ i b, list_find hibernating (blocks s) = Some (i, b)
     ∧ length (records b) = MAX_RECORD
     ∧ activateBlock id s
       = (newDate ≫= λ t,
            BlockModel_findOneAndUpdate (λ b, _id b = id)
              (λ b, set_timestamp t (set_status Pending b))) s).
Proof.
  cbn zeta. unfold activateBlock. rewrite findOne_bind.
  destruct (list_find _ (blocks s)) as [[i b]|] eqn:Hfind; cbn [fmap option_fmap option_map snd].
  - right. destruct (decide (length (records b) = MAX_RECORD)) as [Hlen|Hlen].
    + right. exists i, b. split_and!; [done..|].
      rewrite bool_decide_eq_true_2 by done. cbn [negb].
      unfold mbind, M_bind. destruct (newDate s) as [s1 [e|t]]; [done|].
      by destruct (BlockModel_findOneAndUpdate _ _ s1) as [s2 [e|a]].
    + left. exists i, b. split_and!; [done..|].
      by rewrite bool_decide_eq_false_2.
  - by left.
Qed.

Lemma createGenesisBlock_run bs us ts sc pool n d :
  createGenesisBlock (mkStore bs us ts sc pool n d)
  = (mkStore (bs ++ [genesis_block n (toLocaleString d)]) us ts sc pool (S n) (S d),
     inr (genesis_block n (toLocaleString d))).
Proof. done. Qed.

Lemma getBlockchain_cases (s : Store) :
  (chain_of (blocks s) ≠ []
   ∧ getBlockchain s = (s, inr (inl (chain_of (blocks s)))))
  ∨ (chain_of (blocks s) = []
     ∧ getBlockchain s
       = (createGenesisBlock ≫= λ g, createHibernateBlock ≫= λ _, mret (inr g)) s).
Proof.
  unfold getBlockchain. rewrite find_bind. fold (chain_of (blocks s)).
  destruct (chain_of (blocks s)) as [|g chain]; [right|left]; done.
Qed.

(** [createHibernateBlock] leaves the blocks as they are and throws, or
    adds one [Hibernating] block with a fresh identifier; it never touches
    users, transactions or supply-chain records. *)
Lemma createHibernateBlock_exec (s : Store) :
  let s' := exec createHibernateBlock s in
  users s' = users s ∧ transactions s' = transactions s
  ∧ supplyChain s' = supplyChain s
  ∧ ((blocks s' = blocks s ∧ nextObjectId s' = nextObjectId s
      ∧ throws (answer createHibernateBlock s))
     ∨ ∃ t arr, blocks s' = blocks s ++ [hibernate_block (nextObjectId s) t arr]
         ∧ nextObjectId s' = S (nextObjectId s)
         ∧ answer createHibernateBlock s
           = inr (hibernate_block (nextObjectId s) t arr)).
Proof.
  destruct s as [bs us ts sc pool n d].
  unfold answer, exec, createHibernateBlock, MAX_RECORD.
  destruct pool as [|r0 [|r1 rest]]; run_handler; split_and!; try done.
  - right. by eexists _, _.
  - left. split_and!; [done..|]. by eexists.
  - right. by eexists _, _.
Qed.

(** ** Every reachable store is well formed *)

(** A block found by a query that settled blocks do not answer is the
    staging block, the last of the collection. *)
Lemma wf_find_staged (P : Block → Prop) `{!∀ b, Decision (P b)} n bs i b :
  wf_blocks n bs → list_find P bs = Some (i, b) → (∀ x, P x → ¬ settled x) →
  ∃ done, bs = done ++ [b] ∧ i = length done ∧ Forall settled done ∧ staged b
          ∧ Forall (λ x, _id x ≠ _id b) done.
Proof.
  intros Hwf Hfind HP.
  apply list_find_Some in Hfind as (Hi & HPb & _).
  destruct (wf_shape _ _ Hwf) as [Hall|(done & b' & -> & Hdone & Hb')].
  { eapply Forall_lookup_1 in Hall; [|exact Hi]. by destruct (HP b). }
  apply lookup_app_Some in Hi as [Hi|[Hge Hi]].
  { eapply Forall_lookup_1 in Hdone; [|exact Hi]. by destruct (HP b). }
  apply list_lookup_singleton_Some in Hi as [Hi <-].
  exists done. split_and!; [done|lia|done..|].
  pose proof (wf_ids _ _ Hwf) as Hids.
  rewrite fmap_app in Hids. apply NoDup_app in Hids as (_ & Hids & _).
  apply Forall_forall. intros x Hx Heq.
  apply (Hids (_id x)).
  - by apply list_elem_of_fmap_2.
  - rewrite Heq. cbn. apply list_elem_of_here.
Qed.

Lemma wf_createHibernateBlock (s : Store) :
  well_formed s → Forall settled (blocks s) → blocks s ≠ [] →
  well_formed (exec createHibernateBlock s).
Proof.
  intros Hwf Hsettled Hne. unfold well_formed in *.
  destruct (createHibernateBlock_exec s)
    as (_ & _ & _ & [(-> & -> & _)|(t & arr & -> & -> & _)]); [done|].
  apply wf_blocks_stage; try done.
  - by left.
  - unfold votes_distinct. cbn. constructor.
Qed.

Lemma Forall2_outside_settled (l l' : list Block) :
  Forall settled l → Forall2 outside_block l l' → l' = l.
Proof.
  intros Hl Hout. induction Hout as [|b b' l l' Hb _ IH]; [done|].
  apply Forall_cons in Hl as [Hs Hl]. rewrite IH by done. f_equal.
  destruct Hb as [->|[Hhib _]]; [done|].
  destruct Hs; congruence.
Qed.

Lemma outside_change_preserves (s s' : Store) :
  well_formed s → outside_change s s' → well_formed s'.
Proof.
  unfold well_formed. intros Hwf [-> Hout].
  destruct (wf_shape _ _ Hwf) as [Hall|(done & b & Hbs & Hdone & Hb)].
  { by rewrite (Forall2_outside_settled _ _ Hall Hout). }
  rewrite Hbs in Hout, Hwf.
  apply Forall2_app_inv_l in Hout as (done' & tl & Hd & Htl & ->).
  apply Forall2_cons_inv_l in Htl as (b' & tl' & Hb' & Htl & ->).
  apply Forall2_nil_inv_l in Htl as ->.
  rewrite (Forall2_outside_settled _ _ Hdone Hd).
  destruct Hb' as [->|[Hhib [rs ->]]]; [done|].
  eapply wf_blocks_replace_last; try done.
  - pose proof (wf_votes _ _ Hwf) as Hv.
    apply Forall_app in Hv as [_ Hv]. by rewrite Forall_singleton in Hv.
  - left. by left.
Qed.

Lemma vote_id isApproved u b : _id (vote isApproved u b) = _id b.
Proof. by destruct isApproved. Qed.

Lemma vote_status isApproved u b : status (vote isApproved u b) = status b.
Proof. by destruct isApproved. Qed.

Lemma vote_records isApproved u b : records (vote isApproved u b) = records b.
Proof. by destruct isApproved. Qed.

Lemma vote_distinct isApproved u b :
  votes_distinct b → u ∉ approvedBy b → u ∉ rejectedBy b →
  votes_distinct (vote isApproved u b).
Proof.
  unfold votes_distinct. intros Hnd Ha Hr.
  apply NoDup_app in Hnd as (Hna & Hdisj & Hnr).
  destruct isApproved; cbn; rewrite addToSet_new by done.
  - apply NoDup_app. split_and!; [|
      |done].
    + apply NoDup_app. split_and!; [done| |apply NoDup_singleton].
      intros x Hx ->%list_elem_of_singleton. done.
    + intros x [Hx| ->%list_elem_of_singleton]%elem_of_app; [by apply Hdisj|done].
  - apply NoDup_app. split_and!; [done| |].
    + intros x Hx [Hx'| ->%list_elem_of_singleton]%elem_of_app;
        [by apply (Hdisj x)|done].
    + apply NoDup_app. split_and!; [done| |apply NoDup_singleton].
      intros x Hx ->%list_elem_of_singleton. done.
Qed.

(** An accepted vote: the caller has not voted on the block, and the
    block is [Pending]. In a well-formed store the block is the staging
    block, and the request goes one of three ways. *)
Lemma approveBlock_accepted (s : Store) (id : nat) (isApproved : bool)
    (u : string) (i : nat) (b : Block) :
  well_formed s →
  list_find (λ b, _id b = id ∧ ((u ∈ approvedBy b) ∨ (u ∈ rejectedBy b))) (blocks s)
    = None →
  list_find (λ b, _id b = id ∧ status b = Pending) (blocks s) = Some (i, b) →
  ∃ done top,
    blocks s = done ++ [b] ∧ Forall settled done
    ∧ Forall (λ x, _id x ≠ _id b) done
    ∧ _id b = id ∧ status b = Pending ∧ length (records b) = MAX_RECORD
    ∧ (u ∉ approvedBy b) ∧ (u ∉ rejectedBy b)
    ∧ list.last (chain_of done) = Some top
    ∧ let voted := vote isApproved u b in
      let t := toLocaleString (dateReads s) in
      let msg := approve_message isApproved in
      approveBlock id isApproved u s
      = if reachesThreshold (approvedPercentage voted (users s)) then
          (createHibernateBlock ≫= λ _, mret (msg, Some (committed_block top t voted)))
            (store_committed s done (committed_block top t voted))
        else if reachesThreshold (rejectedPercentage voted (users s)) then
          (createHibernateBlock ≫= λ _, mret (msg, Some (rejected_block t voted)))
            (store_rejected s done (rejected_block t voted))
        else (with_blocks (done ++ [voted]) s, inr (msg, Some voted)).
Proof.
  intros Hwf Hbefore Hpending.
  destruct (approveBlock_cases id isApproved u s)
    as [[[? Hsome] _]|[(_ & Hnone & _)|(_ & i' & b' & Hfind & Hrun)]];
    [congruence..|].
  rewrite Hpending in Hfind. simplify_eq.
  destruct (wf_find_staged _ _ _ _ _ Hwf Hpending)
    as (done & Hbs & -> & Hdone & Hstaged & Hids).
  { intros x [_ Hx] [?|?]; congruence. }
  pose proof Hpending as Hb. apply list_find_Some in Hb as (_ & [Hid Hst] & _).
  destruct Hstaged as [?|[_ Hlen]]; [congruence|].
  assert ((u ∉ approvedBy b') ∧ (u ∉ rejectedBy b')) as [Hna Hnr].
  { apply list_find_None in Hbefore. rewrite Hbs in Hbefore.
    apply Forall_app in Hbefore as [_ Hb]. rewrite Forall_singleton in Hb.
    split; intros ?; apply Hb; auto. }
  assert (chain_of done ≠ []) as Hchain.
  { intros Hnil. apply (wf_genesis _ _ Hwf).
    - rewrite Hbs. by destruct done.
    - rewrite Hbs, chain_of_snoc_other by congruence. done. }
  pose proof (wf_linked _ _ Hwf) as Hlinked.
  rewrite Hbs, chain_of_snoc_other in Hlinked by congruence.
  destruct (linked_top _ Hlinked Hchain) as (top & Hlast & Htop).
  exists done, top. split_and!; try done.
  cbn zeta. rewrite Hrun, Hbs, insert_snoc. clear Hrun Hpending Hbefore Hwf.
  destruct s as [bs us ts sc pool n d]. cbn in Hbs. subst bs id.
  unfold with_blocks, store_committed, store_rejected.
  cbn [blocks users transactions supplyChain approvedRecords nextObjectId dateReads].
  rewrite <- (vote_id isApproved u b') at 1.
  pose proof (blockConsensus_run (vote isApproved u b') top done us ts sc pool n d)
    as Hcons.
  cbn zeta in Hcons.
  destruct (reachesThreshold (approvedPercentage (vote isApproved u b') us));
    [|destruct (reachesThreshold (rejectedPercentage (vote isApproved u b') us))].
  - apply bind_mret_assoc with (f := λ x, (approve_message isApproved, x)).
    apply Hcons; rewrite ?vote_id, ?vote_status, ?vote_records; done.
  - apply bind_mret_assoc with (f := λ x, (approve_message isApproved, x)).
    apply Hcons; rewrite ?vote_id, ?vote_status, ?vote_records; done.
  - etrans; [eapply run_bind; apply Hcons;
             rewrite ?vote_id, ?vote_status, ?vote_records; done|].
    done.
Qed.

Lemma exec_getBlock blockID s : exec (getBlock blockID) s = s.
Proof.
  unfold exec, getBlock. rewrite findOne_bind.
  by destruct (snd <$> list_find _ (blocks s)).
Qed.

Lemma exec_validateBlock blockID s : exec (validateBlock blockID) s = s.
Proof.
  unfold exec, validateBlock. rewrite findOne_bind.
  by destruct (snd <$> list_find _ (blocks s)).
Qed.

Lemma exec_getWaitingBlock s : exec getWaitingBlock s = s.
Proof. done. Qed.

Lemma exec_validateBlockchain s : exec validateBlockchain s = s.
Proof. done. Qed.

Lemma committed_block_wf n done b top t isApproved u :
  wf_blocks n (done ++ [b]) → staged b →
  (u ∉ approvedBy b) → (u ∉ rejectedBy b) →
  list.last (chain_of done) = Some top →
  wf_blocks n (done ++ [committed_block top t (vote isApproved u b)]).
Proof.
  intros Hwf Hst Hna Hnr Htop.
  eapply wf_blocks_replace_last; [exact Hwf|done|..].
  - cbn. apply vote_id.
  - pose proof (wf_votes _ _ Hwf) as Hv.
    apply Forall_app in Hv as [_ Hv]. rewrite Forall_singleton in Hv.
    by apply (vote_distinct isApproved u b).
  - right. right. split; [done|]. by exists top.
Qed.

Lemma rejected_block_wf n done b t isApproved u :
  wf_blocks n (done ++ [b]) → staged b →
  (u ∉ approvedBy b) → (u ∉ rejectedBy b) →
  wf_blocks n (done ++ [rejected_block t (vote isApproved u b)]).
Proof.
  intros Hwf Hst Hna Hnr.
  eapply wf_blocks_replace_last; [exact Hwf|done|..].
  - cbn. apply vote_id.
  - pose proof (wf_votes _ _ Hwf) as Hv.
    apply Forall_app in Hv as [_ Hv]. rewrite Forall_singleton in Hv.
    by apply (vote_distinct isApproved u b).
  - right. by left.
Qed.

Lemma voted_block_wf n done b isApproved u :
  wf_blocks n (done ++ [b]) → status b = Pending →
  length (records b) = MAX_RECORD →
  (u ∉ approvedBy b) → (u ∉ rejectedBy b) →
  wf_blocks n (done ++ [vote isApproved u b]).
Proof.
  intros Hwf Hst Hlen Hna Hnr.
  eapply wf_blocks_replace_last; [exact Hwf|by right|..].
  - apply vote_id.
  - pose proof (wf_votes _ _ Hwf) as Hv.
    apply Forall_app in Hv as [_ Hv]. rewrite Forall_singleton in Hv.
    by apply (vote_distinct isApproved u b).
  - left. right. by rewrite vote_status, vote_records.
Qed.

Lemma approveBlock_preserves id isApproved u s :
  well_formed s → well_formed (exec (approveBlock id isApproved u) s).
Proof.
  intros Hwf. unfold exec.
  destruct (approveBlock_cases id isApproved u s)
    as [[_ ->]|[(_ & _ & ->)|(Hbefore & i & b & Hfind & _)]]; [done..|].
  destruct (approveBlock_accepted s id isApproved u i b Hwf Hbefore Hfind)
    as (done & top & Hbs & Hdone & Hids & Hid & Hst & Hlen & Hna & Hnr & Htop & ->).
  unfold well_formed in Hwf. rewrite Hbs in Hwf.
  assert (staged b) as Hstaged by (by right).
  destruct (reachesThreshold _); [|destruct (reachesThreshold _)].
  - change (well_formed (exec (createHibernateBlock ≫= λ _,
              mret (approve_message isApproved,
                    Some (committed_block top (toLocaleString (dateReads s))
                            (vote isApproved u b))))
              (store_committed s done
                 (committed_block top (toLocaleString (dateReads s))
                    (vote isApproved u b))))).
    rewrite exec_bind_mret. apply wf_createHibernateBlock.
    + by apply committed_block_wf.
    + cbn. apply Forall_app. split; [done|]. apply Forall_singleton. by left.
    + cbn. by destruct done.
  - change (well_formed (exec (createHibernateBlock ≫= λ _,
              mret (approve_message isApproved,
                    Some (rejected_block (toLocaleString (dateReads s))
                            (vote isApproved u b))))
              (store_rejected s done
                 (rejected_block (toLocaleString (dateReads s))
                    (vote isApproved u b))))).
    rewrite exec_bind_mret. apply wf_createHibernateBlock.
    + by apply rejected_block_wf.
    + cbn. apply Forall_app. split; [done|]. apply Forall_singleton. by right.
    + cbn. by destruct done.
  - cbn. by apply voted_block_wf.
Qed.

Lemma activateBlock_accepted (s : Store) (id i : nat) (b : Block) :
  well_formed s →
  list_find (λ b, _id b = id ∧ status b = Hibernating) (blocks s) = Some (i, b) →
  length (records b) = MAX_RECORD →
  ∃ done, blocks s = done ++ [b] ∧ Forall settled done ∧ _id b = id
    ∧ status b = Hibernating
    ∧ let activated :=
        set_timestamp (toLocaleString (dateReads s)) (set_status Pending b) in
      activateBlock id s
      = (mkStore (done ++ [activated]) (users s) (transactions s) (supplyChain s)
           (approvedRecords s) (nextObjectId s) (S (dateReads s)),
         inr (Some activated)).
Proof.
  intros Hwf Hfind Hlen.
  destruct (activateBlock_cases id s)
    as [[Hnone _]|[(i' & b' & Hfind' & Hne & _)|(i' & b' & _ & _ & Hrun)]];
    [rewrite Hfind in *; by simplify_eq..|].
  destruct (wf_find_staged _ _ _ _ _ Hwf Hfind)
    as (done & Hbs & -> & Hdone & Hstaged & Hids).
  { intros x [_ Hx] [?|?]; congruence. }
  apply list_find_Some in Hfind as (_ & [Hid Hst] & _).
  exists done. split_and!; [done..|]. cbn zeta. rewrite Hrun.
  destruct s as [bs us ts sc pool n d]. cbn in Hbs. subst bs.
  cbn [blocks users transactions supplyChain approvedRecords nextObjectId dateReads].
  run_step ltac:(apply newDate_run).
  apply (findOneAndUpdate_last (λ b, _id b = id)
           (λ b, set_timestamp (toLocaleString d) (set_status Pending b)) b);
    [|done].
  eapply Forall_impl; [exact Hids|]. cbn. congruence.
Qed.

Lemma activateBlock_preserves id s :
  well_formed s → well_formed (exec (activateBlock id) s).
Proof.
  intros Hwf. unfold exec.
  destruct (activateBlock_cases id s)
    as [[_ ->]|[(i & b & _ & _ & ->)|(i & b & Hfind & Hlen & _)]]; [done..|].
  destruct (activateBlock_accepted s id i b Hwf Hfind Hlen)
    as (done & Hbs & Hdone & Hid & Hst & ->).
  unfold well_formed in *. cbn. rewrite Hbs in Hwf.
  eapply wf_blocks_replace_last; [exact Hwf|by left|done|..].
  - pose proof (wf_votes _ _ Hwf) as Hv.
    apply Forall_app in Hv as [_ Hv]. by rewrite Forall_singleton in Hv.
  - left. by right.
Qed.

Lemma getBlockchain_preserves s :
  well_formed s → well_formed (exec getBlockchain s).
Proof.
  intros Hwf. unfold exec.
  destruct (getBlockchain_cases s) as [[_ ->]|[Hnil ->]]; [done|].
  assert (blocks s = []) as Hbs.
  { destruct (decide (blocks s = [])) as [|Hne]; [done|].
    by destruct (wf_genesis _ _ Hwf Hne). }
  destruct s as [bs us ts sc pool n d]. cbn in Hbs. subst bs.
  erewrite run_bind; [|apply createGenesisBlock_run].
  change (well_formed (exec (createHibernateBlock ≫= λ _,
            mret (inr (genesis_block n (toLocaleString d)) : list Block + Block))
            (mkStore ([] ++ [genesis_block n (toLocaleString d)]) us ts sc pool
               (S n) (S d)))).
  rewrite exec_bind_mret. apply wf_createHibernateBlock.
  - by apply wf_blocks_genesis; [..|constructor].
  - apply Forall_singleton. by left.
  - done.
Qed.

Lemma handle_preserves (r : Request) (s : Store) :
  well_formed s → well_formed (handle r s).
Proof.
  destruct r; cbn [handle].
  - apply getBlockchain_preserves.
  - by rewrite exec_getBlock.
  - by rewrite exec_getWaitingBlock.
  - by rewrite exec_validateBlock.
  - apply activateBlock_preserves.
  - apply approveBlock_preserves.
  - by rewrite exec_validateBlockchain.
Qed.

(** Every reachable store is well formed. *)
Lemma reachable_well_formed (s : Store) : reachable s → well_formed s.
Proof.
  induction 1 as [s Hs|s s' _ IH Hstep].
  - unfold well_formed. rewrite Hs. apply wf_blocks_nil.
  - destruct Hstep as [r s|s s' Hout].
    + by apply handle_preserves.
    + by eapply outside_change_preserves.
Qed.

(** ** Votes and consensus *)

(** A block that is not settled is the staging block. *)
Lemma wf_staged_last n bs b :
  wf_blocks n bs → b ∈ bs → ¬ settled b →
  ∃ done, bs = done ++ [b] ∧ Forall settled done ∧ staged b
          ∧ Forall (λ x, _id x ≠ _id b) done.
Proof.
  intros Hwf Hin Hns.
  destruct (list_find_elem_of (λ x, x = b) bs b Hin eq_refl) as [[i x] Hfind].
  pose proof Hfind as Hx. apply list_find_Some in Hx as (_ & -> & _).
  destruct (wf_find_staged _ _ _ _ _ Hwf Hfind) as (done & ? & _ & ? & ? & ?).
  { by intros x ->. }
  by exists done.
Qed.

(** In a well-formed store, a vote on a [Pending] block by somebody who
    has not voted on it passes both checks of [approveBlock]. *)
Lemma accepted_vote_found (s : Store) (id : nat) (u : string) (b : Block) :
  well_formed s → b ∈ blocks s → _id b = id → status b = Pending →
  (u ∉ approvedBy b) → (u ∉ rejectedBy b) →
  list_find (λ b, _id b = id ∧ ((u ∈ approvedBy b) ∨ (u ∈ rejectedBy b))) (blocks s)
    = None
  ∧ ∃ i, list_find (λ b, _id b = id ∧ status b = Pending) (blocks s) = Some (i, b).
Proof.
  intros Hwf Hin Hid Hst Hna Hnr.
  destruct (wf_staged_last _ _ _ Hwf Hin) as (done & Hbs & Hdone & _ & Hids).
  { intros [?|?]; congruence. }
  rewrite Hbs. split.
  - apply list_find_None. apply Forall_app. split.
    + eapply Forall_impl; [exact Hids|]. cbn. intros x Hx [Hx' _]. congruence.
    + apply Forall_singleton. tauto.
  - exists (length done). rewrite list_find_snoc, decide_True; [done..|].
    eapply Forall_impl; [exact Hids|]. cbn. intros x Hx [Hx' _]. congruence.
Qed.

Lemma createHibernateBlock_blocks (s : Store) :
  ∃ tl, blocks (exec createHibernateBlock s) = blocks s ++ tl
        ∧ Forall (λ h, status h = Hibernating) tl.
Proof.
  destruct (createHibernateBlock_exec s)
    as (_ & _ & _ & [(-> & _)|(t & arr & -> & _)]).
  - exists []. by rewrite app_nil_r.
  - eexists [_]. split; [done|]. by apply Forall_singleton.
Qed.

(** C1. An accepted vote on a [Pending] block of a reachable store: the
    fractions are the lengths of [approvedBy] and [rejectedBy] after the
    vote over the number of users with role [Validator]. When the
    approved fraction reaches 0.66 the block is made [Approved] and
    [appendToBlockchain] then makes it [inChain]; otherwise, when the
    rejected fraction reaches 0.66, it is made [Rejected]; otherwise the
    store changes in the recorded vote only and the block stays
    [Pending]. *)
Theorem approveBlock_evaluates_consensus (s : Store) (id : nat)
    (isApproved : bool) (u : string) (b : Block) :
  reachable s → b ∈ blocks s → _id b = id → status b = Pending →
  (u ∉ approvedBy b) → (u ∉ rejectedBy b) →
  let voted := vote isApproved u b in
  let totalValidators := length (filter (λ x, role x = "Validator") (users s)) in
  let approvedFraction :=
    PrimFloat.div (parseFloat (length (approvedBy voted))) (parseFloat totalValidators) in
  let rejectedFraction :=
    PrimFloat.div (parseFloat (length (rejectedBy voted))) (parseFloat totalValidators) in
  let s' := exec (approveBlock id isApproved u) s in
  ∃ done, blocks s = done ++ [b] ∧
    if reachesThreshold approvedFraction then
      (∃ a s_a, status a = Approved ∧ _id a = id ∧ blocks s_a = done ++ [a]
                ∧ s' = exec (appendToBlockchain a id) s_a)
      ∧ ∃ c tl, blocks s' = done ++ c :: tl ∧ _id c = id ∧ status c = inChain
                ∧ approvedBy c = approvedBy voted ∧ rejectedBy c = rejectedBy voted
    else if reachesThreshold rejectedFraction then
      ∃ r tl, blocks s' = done ++ r :: tl ∧ _id r = id ∧ status r = Rejected
              ∧ approvedBy r = approvedBy voted ∧ rejectedBy r = rejectedBy voted
    else s' = with_blocks (done ++ [voted]) s ∧ status voted = Pending.
Proof.
  intros Hreach Hin Hid Hst Hna Hnr voted total aF rF s'.
  pose proof (reachable_well_formed s Hreach) as Hwf.
  destruct (accepted_vote_found s id u b Hwf Hin Hid Hst Hna Hnr) as [Hbefore [i Hfind]].
  destruct (approveBlock_accepted s id isApproved u i b Hwf Hbefore Hfind)
    as (done & top & Hbs & Hdone & Hids & _ & _ & Hlen & _ & _ & Htop & Hrun).
  cbn zeta in Hrun. exists done. split; [done|].
  subst s'. unfold exec. rewrite Hrun. clear Hrun.
  change (approvedPercentage (vote isApproved u b) (users s)) with aF.
  change (rejectedPercentage (vote isApproved u b) (users s)) with rF.
  destruct (reachesThreshold aF); [|destruct (reachesThreshold rF)].
  - set (t := toLocaleString (dateReads s)).
    set (c := committed_block top t (vote isApproved u b)).
    change (((createHibernateBlock ≫= λ _, mret (approve_message isApproved, Some c))
              (store_committed s done c)).1)
      with (exec (createHibernateBlock ≫= λ _,
                    mret (approve_message isApproved, Some c))
              (store_committed s done c)).
    rewrite exec_bind_mret. split.
    + set (a := set_records (set_record_statuses "inChain" (records voted))
                  (set_status Approved voted)).
      exists a, (mkStore (done ++ [a]) (users s)
                   (updateMany_status "inBlock" "inChain" (transactions s))
                   (updateMany_status "inBlock" "inChain" (supplyChain s))
                   (approvedRecords s) (nextObjectId s) (dateReads s)).
      split_and!; [done|by rewrite <- Hid; apply vote_id|done|].
      symmetry. unfold exec at 1. erewrite (appendToBlockchain_run a a top id).
      * apply (exec_bind_mret createHibernateBlock (λ _, Some _)).
      * by rewrite <- Hid; apply vote_id.
      * eapply Forall_impl; [exact Hids|]. cbn. congruence.
      * done.
      * pose proof (wf_linked _ _ Hwf) as Hl.
        rewrite Hbs, chain_of_snoc_other in Hl by congruence.
        destruct (linked_top _ Hl) as (top' & Htop' & Hsort).
        { intros Hnil. rewrite Hnil in Htop. done. }
        congruence.
    + destruct (createHibernateBlock_blocks (store_committed s done c)) as (tl & -> & _).
      exists c, tl. cbn. rewrite <- app_assoc. split_and!; try done.
      by rewrite <- Hid; apply vote_id.
  - set (t := toLocaleString (dateReads s)).
    set (r := rejected_block t (vote isApproved u b)).
    change (((createHibernateBlock ≫= λ _, mret (approve_message isApproved, Some r))
              (store_rejected s done r)).1)
      with (exec (createHibernateBlock ≫= λ _,
                    mret (approve_message isApproved, Some r))
              (store_rejected s done r)).
    rewrite exec_bind_mret.
    destruct (createHibernateBlock_blocks (store_rejected s done r)) as (tl & -> & _).
    exists r, tl. cbn. rewrite <- app_assoc. split_and!; try done.
    by rewrite <- Hid; apply vote_id.
  - split; [done|]. unfold voted. by rewrite vote_status.
Qed.

Lemma elem_of_chain_of (bs : list Block) (b : Block) :
  b ∈ chain_of bs ↔ status b = inChain ∧ b ∈ bs.
Proof. unfold chain_of. by rewrite list_elem_of_filter. Qed.

Lemma linked_le chain top :
  linked chain → list.last chain = Some top →
  Forall (λ x, blockId x ≤ blockId top) chain.
Proof.
  intros Hl Hlast. rewrite (linked_last _ _ Hl Hlast).
  apply Forall_lookup. intros i x Hi.
  destruct (Hl _ _ Hi) as [-> _]. apply lookup_lt_Some in Hi. lia.
Qed.

(** With the requests handled one after the other: a block committed by
    an approving vote gets the greatest [blockId] of the chain plus one and
    the [hash] of that greatest block as [prevHash], and its [hash] is the
    hash of its final fields; and in every store so reached an [inChain]
    block other than the genesis block has as [prevHash] the [hash] of the
    [inChain] block with the [blockId] before its own. *)
Theorem committed_block_links_to_chain :
  (∀ (s : Store) (id : nat) (isApproved : bool) (u : string) (b : Block),
     reachable s → b ∈ blocks s → _id b = id → status b = Pending →
     (u ∉ approvedBy b) → (u ∉ rejectedBy b) →
     reachesThreshold (approvedPercentage (vote isApproved u b) (users s)) = true →
     ∃ top c,
       top ∈ chain_of (blocks s)
       ∧ Forall (λ x, blockId x ≤ blockId top) (chain_of (blocks s))
       ∧ c ∈ blocks (exec (approveBlock id isApproved u) s)
       ∧ _id c = id ∧ status c = inChain
       ∧ blockId c = blockId top + 1
       ∧ prevHash c = hash top
       ∧ hash c = computeBlockHash (blockId c) (prevHash c) (timestamp c) (records c))
  ∧ (∀ (s : Store) (b : Block),
       reachable s → b ∈ blocks s → status b = inChain →
       blockId b ≠ GENESIS_BLOCK_ID →
       ∃ p, p ∈ blocks s ∧ status p = inChain ∧ blockId p = blockId b - 1
            ∧ prevHash b = hash p).
Proof.
  split.
  - intros s id isApproved u b Hreach Hin Hid Hst Hna Hnr Hthr.
    pose proof (reachable_well_formed s Hreach) as Hwf.
    destruct (accepted_vote_found s id u b Hwf Hin Hid Hst Hna Hnr)
      as [Hbefore [i Hfind]].
    destruct (approveBlock_accepted s id isApproved u i b Hwf Hbefore Hfind)
      as (done & top & Hbs & Hdone & Hids & _ & _ & Hlen & _ & _ & Htop & Hrun).
    cbn zeta in Hrun. rewrite Hthr in Hrun.
    pose proof (wf_linked _ _ Hwf) as Hl.
    rewrite Hbs, chain_of_snoc_other in * by congruence.
    set (c := committed_block top (toLocaleString (dateReads s)) (vote isApproved u b))
      in *.
    exists top, c. split_and!.
    + by eapply last_Some_elem_of.
    + by apply linked_le.
    + unfold exec. rewrite Hrun.
      change (c ∈ blocks (exec (createHibernateBlock ≫= λ _,
                mret (approve_message isApproved, Some c))
                (store_committed s done c))).
      rewrite exec_bind_mret.
      destruct (createHibernateBlock_blocks (store_committed s done c)) as (tl & -> & _).
      cbn. rewrite !elem_of_app, list_elem_of_singleton. auto.
    + rewrite <- Hid. apply vote_id.
    + done.
    + done.
    + done.
    + done.
  - intros s b Hreach Hin Hst Hne.
    pose proof (reachable_well_formed s Hreach) as Hwf.
    pose proof (wf_linked _ _ Hwf) as Hl.
    assert (b ∈ chain_of (blocks s)) as Hb by (by apply elem_of_chain_of).
    apply list_elem_of_lookup in Hb as [i Hi].
    destruct (Hl _ _ Hi) as (Hbid & _ & Hprev).
    destruct i as [|j]; [done|]. destruct Hprev as (p & Hp & Hph).
    destruct (Hl _ _ Hp) as (Hpid & _ & _).
    apply list_elem_of_lookup_2 in Hp. apply elem_of_chain_of in Hp as [? ?].
    exists p. split_and!; [done..|lia|done].
Qed.

Lemma keeps_votes_refl b : keeps_votes b b.
Proof. by split_and!. Qed.

Lemma addToSet_prefix u l : l `prefix_of` addToSet u l.
Proof.
  unfold addToSet. case_decide; [done|]. by apply prefix_app_r.
Qed.

Lemma vote_keeps isApproved u b : keeps_votes b (vote isApproved u b).
Proof.
  destruct isApproved; split_and!; cbn; try done; apply addToSet_prefix.
Qed.

Lemma replace_last_keeps done b0 x tl b :
  keeps_votes b0 x → b ∈ done ++ [b0] →
  ∃ b', b' ∈ done ++ x :: tl ∧ keeps_votes b b'.
Proof.
  intros Hx [Hb| ->%list_elem_of_singleton]%elem_of_app.
  - exists b. split; [|apply keeps_votes_refl]. apply elem_of_app. by left.
  - exists x. split; [|done]. apply elem_of_app. right. apply list_elem_of_here.
Qed.

Lemma handle_keeps_votes (r : Request) (s : Store) (b : Block) :
  well_formed s → b ∈ blocks s →
  ∃ b', b' ∈ blocks (handle r s) ∧ keeps_votes b b'.
Proof.
  intros Hwf Hin.
  assert (∃ b', b' ∈ blocks s ∧ keeps_votes b b') as Hsame.
  { exists b. split; [done|apply keeps_votes_refl]. }
  destruct r as [| | | |id|id isApproved u|]; cbn [handle].
  - unfold exec. destruct (getBlockchain_cases s) as [[_ ->]|[Hnil _]]; [done|].
    destruct (decide (blocks s = [])) as [Hbs|Hne].
    + rewrite Hbs in Hin. by apply elem_of_nil in Hin.
    + by destruct (wf_genesis _ _ Hwf Hne).
  - by rewrite exec_getBlock.
  - by rewrite exec_getWaitingBlock.
  - by rewrite exec_validateBlock.
  - unfold exec. destruct (activateBlock_cases id s)
      as [[_ ->]|[(i & b0 & _ & _ & ->)|(i & b0 & Hfind & Hlen & _)]]; [done..|].
    destruct (activateBlock_accepted s id i b0 Hwf Hfind Hlen)
      as (done & Hbs & _ & _ & _ & ->).
    cbn. rewrite Hbs in Hin.
    eapply (replace_last_keeps done b0 _ []); [|done]. by split_and!.
  - unfold exec. destruct (approveBlock_cases id isApproved u s)
      as [[_ ->]|[(_ & _ & ->)|(Hbefore & i & b0 & Hfind & _)]]; [done..|].
    destruct (approveBlock_accepted s id isApproved u i b0 Hwf Hbefore Hfind)
      as (done & top & Hbs & _ & _ & _ & _ & _ & _ & _ & _ & ->).
    rewrite Hbs in Hin.
    destruct (reachesThreshold _); [|destruct (reachesThreshold _)].
    + set (c := committed_block top (toLocaleString (dateReads s)) (vote isApproved u b0)).
      change (∃ b', b' ∈ blocks (exec (createHibernateBlock ≫= λ _,
                mret (approve_message isApproved, Some c))
                (store_committed s done c)) ∧ keeps_votes b b').
      rewrite exec_bind_mret.
      destruct (createHibernateBlock_blocks (store_committed s done c)) as (tl & -> & _).
      cbn. rewrite <- app_assoc.
      eapply replace_last_keeps; [|done]. apply (vote_keeps isApproved u b0).
    + set (r := rejected_block (toLocaleString (dateReads s)) (vote isApproved u b0)).
      change (∃ b', b' ∈ blocks (exec (createHibernateBlock ≫= λ _,
                mret (approve_message isApproved, Some r))
                (store_rejected s done r)) ∧ keeps_votes b b').
      rewrite exec_bind_mret.
      destruct (createHibernateBlock_blocks (store_rejected s done r)) as (tl & -> & _).
      cbn. rewrite <- app_assoc.
      eapply replace_last_keeps; [|done]. apply (vote_keeps isApproved u b0).
    + cbn. eapply (replace_last_keeps done b0 _ []); [|done]. apply vote_keeps.
  - by rewrite exec_validateBlockchain.
Qed.

Lemma outside_keeps_votes (s s' : Store) (b : Block) :
  outside_change s s' → b ∈ blocks s →
  ∃ b', b' ∈ blocks s' ∧ keeps_votes b b'.
Proof.
  intros [_ Hout] Hin. apply list_elem_of_lookup in Hin as [i Hi].
  destruct (Forall2_lookup_l _ _ _ _ _ Hout Hi) as (b' & Hi' & Hb).
  exists b'. split; [by eapply list_elem_of_lookup_2|].
  destruct Hb as [->|[_ [rs ->]]]; by split_and!.
Qed.

(** A vote by somebody who is already in [approvedBy] or [rejectedBy]
    of the block fails with the duplicate-vote [BadRequestError] and
    leaves the store as it was. With the requests handled one after the
    other, no name occurs twice in [approvedBy] and [rejectedBy] of a block
    taken together, and a step keeps every block together with the votes
    it has. *)
Theorem approveBlock_refuses_second_vote :
  (∀ (s : Store) (id : nat) (isApproved : bool) (u : string) (b : Block),
     b ∈ blocks s → _id b = id → (u ∈ approvedBy b) ∨ (u ∈ rejectedBy b) →
     approveBlock id isApproved u s
     = (s, inl (BadRequestError "Already rejected or approved this block")))
  ∧ (∀ (s : Store) (b : Block),
       reachable s → b ∈ blocks s → NoDup (approvedBy b ++ rejectedBy b))
  ∧ (∀ (s s' : Store) (b : Block),
       reachable s → step s s' → b ∈ blocks s →
       ∃ b', b' ∈ blocks s' ∧ _id b' = _id b
             ∧ approvedBy b `prefix_of` approvedBy b'
             ∧ rejectedBy b `prefix_of` rejectedBy b').
Proof.
  split_and!.
  - intros s id isApproved u b Hin Hid Hu.
    destruct (approveBlock_cases id isApproved u s)
      as [[_ Hrun]|[(Hnone & _)|(Hnone & _)]]; [done|exfalso..];
      apply list_find_None in Hnone;
      (eapply Forall_forall in Hnone; [|exact Hin]); by destruct Hnone.
  - intros s b Hreach Hin.
    pose proof (wf_votes _ _ (reachable_well_formed s Hreach)) as Hv.
    eapply Forall_forall in Hv; [|exact Hin]. done.
  - intros s s' b Hreach Hstep Hin.
    pose proof (reachable_well_formed s Hreach) as Hwf.
    destruct Hstep as [r s|s s' Hout].
    + by apply handle_keeps_votes.
    + by eapply outside_keeps_votes.
Qed.

(** ** Activation *)

Lemma hibernating_found (s : Store) (id : nat) (b : Block) :
  well_formed s → b ∈ blocks s → _id b = id → status b = Hibernating →
  ∃ i, list_find (λ b, _id b = id ∧ status b = Hibernating) (blocks s) = Some (i, b).
Proof.
  intros Hwf Hin Hid Hst.
  destruct (wf_staged_last _ _ _ Hwf Hin) as (done & Hbs & Hdone & _ & Hids).
  { intros [?|?]; congruence. }
  exists (length done). rewrite Hbs, list_find_snoc, decide_True; [done..|].
  eapply Forall_impl; [exact Hids|]. cbn. intros x Hx [Hx' _]. congruence.
Qed.

(** C6. [activateBlock] on a [Hibernating] block of a reachable store:
    with exactly [MAX_RECORD] = 2 records the block becomes [Pending] (and
    gets a new timestamp); with any other number of records, so with fewer
    than 2, the request fails with the [BadRequestError] for insufficient
    records and the store is what it was. *)
Theorem activateBlock_needs_full_batch (s : Store) (id : nat) (b : Block) :
  reachable s → b ∈ blocks s → _id b = id → status b = Hibernating →
  MAX_RECORD = 2%nat
  ∧ (length (records b) = MAX_RECORD →
       let activated :=
         set_timestamp (toLocaleString (dateReads s)) (set_status Pending b) in
       ∃ done, blocks s = done ++ [b]
         ∧ answer (activateBlock id) s = inr (Some activated)
         ∧ blocks (exec (activateBlock id) s) = done ++ [activated]
         ∧ status activated = Pending)
  ∧ (length (records b) ≠ MAX_RECORD →
       activateBlock id s
       = (s, inl (BadRequestError "Insufficient records in this block")))
  ∧ ((length (records b) < 2)%nat →
       answer (activateBlock id) s
         = inl (BadRequestError "Insufficient records in this block")
       ∧ exec (activateBlock id) s = s).
Proof.
  intros Hreach Hin Hid Hst.
  pose proof (reachable_well_formed s Hreach) as Hwf.
  destruct (hibernating_found s id b Hwf Hin Hid Hst) as [i Hfind].
  assert (length (records b) ≠ MAX_RECORD →
          activateBlock id s
          = (s, inl (BadRequestError "Insufficient records in this block")))
    as Hshort.
  { intros Hne. destruct (activateBlock_cases id s)
      as [[Hnone _]|[(i' & b' & _ & _ & Hrun)|(i' & b' & Hfind' & Hlen' & _)]];
      [congruence|done|].
    rewrite Hfind in Hfind'. by simplify_eq. }
  split_and!; [done| |done|].
  - intros Hlen activated.
    destruct (activateBlock_accepted s id i b Hwf Hfind Hlen)
      as (done & Hbs & _ & _ & _ & Hrun).
    exists done. unfold answer, exec. rewrite Hrun. by split_and!.
  - intros Hlt. unfold answer, exec. rewrite Hshort; [done|].
    unfold MAX_RECORD. lia.
Qed.

(** ** The statuses of the records *)

Lemma updateMany_status_lookup (from to : string) (docs : list RecordDoc)
    (i : nat) (d : RecordDoc) :
  docs !! i = Some d →
  updateMany_status from to docs !! i
  = Some (if decide (doc_status d = from)
          then mkRecordDoc (doc_id d) to (doc_fields d) else d).
Proof. intros Hi. unfold updateMany_status. by rewrite list_lookup_fmap, Hi. Qed.

(** C9. When an accepted vote reaches the threshold of approvals, every
    document of the transaction store and of the supply-chain store with
    status [inBlock] gets status [inChain]; when it reaches the threshold
    of rejections instead, status [Rejected]. The update looks at the
    status of a document only, never at the batch of the block, and a
    document with another status stays as it is. *)
Theorem consensus_updates_every_inBlock_record (s : Store) (id : nat)
    (isApproved : bool) (u : string) (b : Block) :
  reachable s → b ∈ blocks s → _id b = id → status b = Pending →
  (u ∉ approvedBy b) → (u ∉ rejectedBy b) →
  let voted := vote isApproved u b in
  let s' := exec (approveBlock id isApproved u) s in
  let updated (to : string) (d : RecordDoc) : RecordDoc :=
    if decide (doc_status d = "inBlock")
    then mkRecordDoc (doc_id d) to (doc_fields d) else d in
  (reachesThreshold (approvedPercentage voted (users s)) = true →
     transactions s' = updated "inChain" <$> transactions s
     ∧ supplyChain s' = updated "inChain" <$> supplyChain s)
  ∧ (reachesThreshold (approvedPercentage voted (users s)) = false →
     reachesThreshold (rejectedPercentage voted (users s)) = true →
     transactions s' = updated "Rejected" <$> transactions s
     ∧ supplyChain s' = updated "Rejected" <$> supplyChain s)
  ∧ (reachesThreshold (approvedPercentage voted (users s)) = false →
     reachesThreshold (rejectedPercentage voted (users s)) = false →
     transactions s' = transactions s ∧ supplyChain s' = supplyChain s).
Proof.
  intros Hreach Hin Hid Hst Hna Hnr voted s' updated.
  pose proof (reachable_well_formed s Hreach) as Hwf.
  destruct (accepted_vote_found s id u b Hwf Hin Hid Hst Hna Hnr) as [Hbefore [i Hfind]].
  destruct (approveBlock_accepted s id isApproved u i b Hwf Hbefore Hfind)
    as (done & top & _ & _ & _ & _ & _ & _ & _ & _ & _ & Hrun).
  cbn zeta in Hrun. subst s'. unfold exec. rewrite Hrun. clear Hrun.
  fold voted.
  split_and!.
  - intros ->.
    set (c := committed_block top (toLocaleString (dateReads s)) voted).
    change (((createHibernateBlock ≫= λ _, mret (approve_message isApproved, Some c))
              (store_committed s done c)).1)
      with (exec (createHibernateBlock ≫= λ _,
                    mret (approve_message isApproved, Some c))
              (store_committed s done c)).
    rewrite exec_bind_mret.
    destruct (createHibernateBlock_exec (store_committed s done c))
      as (_ & -> & -> & _). done.
  - intros -> ->.
    set (r := rejected_block (toLocaleString (dateReads s)) voted).
    change (((createHibernateBlock ≫= λ _, mret (approve_message isApproved, Some r))
              (store_rejected s done r)).1)
      with (exec (createHibernateBlock ≫= λ _,
                    mret (approve_message isApproved, Some r))
              (store_rejected s done r)).
    rewrite exec_bind_mret.
    destruct (createHibernateBlock_exec (store_rejected s done r))
      as (_ & -> & -> & _). done.
  - by intros -> ->.
Qed.

(** ** The chain validator *)

Lemma validateBlockRecords_spec (recs : list JsObject) :
  validateBlockRecords recs = true ↔ Forall record_valid recs.
Proof.
  unfold record_valid. induction recs as [|r recs IH]; cbn.
  - split; [constructor|done].
  - rewrite Forall_cons, <- IH.
    destruct (js_in "amount" r), (checkTransactionValidity r); cbn; intuition congruence.
Qed.

Lemma validateBlocks_body_spec (blocks : list Block) (i : nat) (b : Block) :
  (validateBlocks_body blocks i b).2 = true ↔ block_valid_at blocks i b.
Proof.
  unfold validateBlocks_body, block_valid_at.
  rewrite <- validateBlockRecords_spec.
  destruct i as [|j].
  - rewrite decide_True by done. cbn zeta.
    repeat case_bool_decide; cbn [negb snd];
      try destruct (validateBlockRecords (records b)); cbn [negb snd];
      intuition congruence.
  - rewrite decide_False by done.
    replace (S j - 1)%nat with j by lia.
    destruct (blocks !! j) as [p|]; [|cbn; split; [done|intros (_ & (p & ? & _) & _); done]].
    cbn zeta.
    assert ((∃ p0, Some p = Some p0 ∧ prevHash b = hash p0) ↔ prevHash b = hash p)
      as ->.
    { split; [by intros (p0 & [= <-] & ?)|by exists p]. }
    repeat case_bool_decide; cbn [negb snd];
      try destruct (validateBlockRecords (records b)); cbn [negb snd];
      intuition congruence.
Qed.

Lemma validateBlocks_from_spec (blocks rest : list Block) (i : nat) :
  (validateBlocks_from blocks i rest).2 = true
  ↔ ∀ k b, rest !! k = Some b → block_valid_at blocks (i + k) b.
Proof.
  revert i. induction rest as [|c rest IH]; intros i; cbn.
  - split; [intros _ k b Hk; by rewrite lookup_nil in Hk|done].
  - pose proof (validateBlocks_body_spec blocks i c) as Hbody.
    destruct (validateBlocks_body blocks i c) as [out [|]]; cbn in Hbody.
    + specialize (IH (S i)).
      destruct (validateBlocks_from blocks (S i) rest) as [out' r]. cbn in *.
      rewrite IH. split.
      * intros Hrest [|k] b Hk; cbn in Hk.
        -- simplify_eq. rewrite Nat.add_0_r. by apply Hbody.
        -- rewrite Nat.add_succ_r. by apply Hrest.
      * intros Hall k b Hk. specialize (Hall (S k) b Hk).
        by rewrite Nat.add_succ_r in Hall.
    + cbn. split; [done|]. intros Hall.
      apply Hbody. rewrite <- (Nat.add_0_r i). by apply Hall.
Qed.



Lemma validateBlocks_spec (bs : list Block) :
  (validateBlocks bs).2 = true ↔ ∀ i b, bs !! i = Some b → block_valid_at bs i b.
Proof. unfold validateBlocks. by rewrite validateBlocks_from_spec. Qed.

(** The chain of a reachable store passes validation as soon as the
    records in it are structurally valid: hashes and links are right by
    construction. *)
Lemma reachable_chain_validates (s : Store) :
  reachable s →
  Forall (λ b, Forall record_valid (records b)) (chain_of (blocks s)) →
  (validateBlocks (chain_of (blocks s))).2 = true.
Proof.
  intros Hreach Hrecs.
  pose proof (wf_linked _ _ (reachable_well_formed s Hreach)) as Hl.
  apply validateBlocks_spec. intros i b Hi.
  destruct (Hl i b Hi) as (_ & Hhash & Hprev).
  split_and!; [done..|].
  eapply Forall_lookup_1 in Hrecs; [|exact Hi]. done.
Qed.


Lemma string_length_app (s1 s2 : string) :
  String.length (s1 +:+ s2) = (String.length s1 + String.length s2)%nat.
Proof.
  induction s1 as [|a s1 IH]; [done|].
  change (String a s1 +:+ s2) with (String a (s1 +:+ s2)). cbn. by rewrite IH.
Qed.

(** Appending the same string on the right is injective. *)
Lemma string_app_inv_tail (s1 s2 t : string) : s1 +:+ t = s2 +:+ t → s1 = s2.
Proof.
  revert s2. induction s1 as [|a s1 IH]; intros [|a' s2] Heq.
  - done.
  - apply (f_equal String.length) in Heq.
    rewrite !string_length_app in Heq. cbn in Heq. lia.
  - apply (f_equal String.length) in Heq.
    rewrite !string_length_app in Heq. cbn in Heq. lia.
  - change (String a (s1 +:+ t) = String a' (s2 +:+ t)) in Heq.
    injection Heq as -> Heq. f_equal. by apply IH.
Qed.

(** C4. When [validateBlocks] accepts a chain and one block of it is
    given another sequence number, [prevHash], [timestamp], [hash] or
    other records, [validateBlocks] rejects the changed chain, unless the
    change is a collision: the text that is hashed for the block has
    changed and SHA-256 gives both texts the same digest, or the records
    have changed and [JSON.stringify] gives both the same text. *)
Theorem validateBlocks_detects_tampering_or_collision (chain : list Block)
    (i : nat) (b b' : Block) :
  (validateBlocks chain).2 = true → chain !! i = Some b → tampered b b' →
  (validateBlocks (<[i := b']> chain)).2 = false
  ∨ (pretty (blockId b') +:+ prevHash b' +:+ timestamp b'
       +:+ JSON_stringify (records b')
     ≠ pretty (blockId b) +:+ prevHash b +:+ timestamp b
       +:+ JSON_stringify (records b)
     ∧ sha256 (pretty (blockId b') +:+ prevHash b' +:+ timestamp b'
               +:+ JSON_stringify (records b'))
       = sha256 (pretty (blockId b) +:+ prevHash b +:+ timestamp b
                 +:+ JSON_stringify (records b)))
  ∨ (records b' ≠ records b
     ∧ JSON_stringify (records b') = JSON_stringify (records b)).
Proof.
  intros Hvalid Hi Htamper.
  destruct (validateBlocks (<[i := b']> chain)).2 eqn:Hvalid'; [right|by left].
  pose proof (proj1 (validateBlocks_spec _) Hvalid) as Hok.
  pose proof (proj1 (validateBlocks_spec _) Hvalid') as Hok'.
  destruct (Hok i b Hi) as (Hhash & _).
  destruct (Hok' i b') as (Hhash' & _).
  { apply list_lookup_insert_eq. by eapply lookup_lt_Some. }
  unfold computeBlockHash in *.
  destruct Htamper as [z Hz|p Hp|t Ht|h Hh|rs Hrs]; cbn in *.
  - left. split; [|congruence]. intros Heq.
    apply string_app_inv_tail in Heq. by apply (inj pretty) in Heq.
  - left. split; [|congruence]. intros Heq.
    apply (inj (String.app _)) in Heq. by apply string_app_inv_tail in Heq.
  - left. split; [|congruence]. intros Heq.
    do 2 apply (inj (String.app _)) in Heq. by apply string_app_inv_tail in Heq.
  - congruence.
  - destruct (decide (JSON_stringify rs = JSON_stringify (records b)))
      as [Hjson|Hjson]; [by right|].
    left. split; [|congruence]. intros Heq.
    by do 3 apply (inj (String.app _)) in Heq.
Qed.

(** ** The staging block *)

Lemma createHibernateBlock_returns_iff (s : Store) :
  returns (answer createHibernateBlock s) ↔ length (approvedRecords s) ≠ 1%nat.
Proof.
  destruct s as [bs us ts sc pool n d].
  unfold answer, createHibernateBlock, MAX_RECORD.
  destruct pool as [|r0 [|r1 rest]]; run_handler.
  - split; [done|intros _; apply returns_inr].
  - split; [by intros ?%not_returns_inl|done].
  - split; [done|intros _; apply returns_inr].
Qed.

(** The first [getBlockchain] on a store without [inChain] blocks creates
    the genesis block, which [validateBlocks] accepts; the staging block
    is created too unless the pool holds exactly one approved record. *)
Lemma getBlockchain_bootstrap (s : Store) :
  chain_of (blocks s) = [] →
  let g := genesis_block (nextObjectId s) (toLocaleString (dateReads s)) in
  let s' := exec getBlockchain s in
  blockId g = 0 ∧ prevHash g = "" ∧ records g = [] ∧ status g = inChain
  ∧ chain_of (blocks s') = [g]
  ∧ (validateBlocks (chain_of (blocks s'))).2 = true
  ∧ (length (approvedRecords s) ≠ 1%nat →
       ∃ h, blocks s' = blocks s ++ [g; h] ∧ status h = Hibernating)
  ∧ (length (approvedRecords s) = 1%nat →
       blocks s' = blocks s ++ [g] ∧ throws (answer getBlockchain s)).
Proof.
  intros Hchain g s'. subst s'. unfold exec, answer.
  destruct (getBlockchain_cases s) as [[Hne _]|[_ ->]]; [done|].
  destruct s as [bs us ts sc pool n d].
  cbn [blocks nextObjectId dateReads] in Hchain, g.
  erewrite run_bind; [|apply createGenesisBlock_run]. fold g.
  set (s1 := mkStore (bs ++ [g]) us ts sc pool (S n) (S d)).
  change (((createHibernateBlock ≫= λ _, mret (inr g : list Block + Block)) s1).1)
    with (exec (createHibernateBlock ≫= λ _, mret (inr g : list Block + Block)) s1).
  rewrite exec_bind_mret.
  pose proof (createHibernateBlock_returns_iff s1) as Hret.
  cbn [approvedRecords s1] in Hret.
  destruct (createHibernateBlock_exec s1)
    as (_ & _ & _ & [(Hbs & _ & Hthrows)|(t & arr & Hbs & _ & Hans)]);
    rewrite Hbs; cbn [blocks nextObjectId approvedRecords s1].
  - assert (chain_of (bs ++ [g]) = [g]) as Hg.
    { by rewrite chain_of_snoc_inChain, Hchain. }
    rewrite Hg. split_and!; try done.
    + apply validateBlocks_spec. intros [|i] b Hi; [|by destruct i].
      cbn in Hi. simplify_eq. split_and!; [done..|]. constructor.
    + intros Hlen. apply Hret in Hlen. destruct Hthrows as [e He].
      rewrite He in Hlen. by apply not_returns_inl in Hlen.
    + intros _. split; [done|]. unfold mbind, M_bind.
      destruct Hthrows as [e He]. unfold answer in He.
      destruct (createHibernateBlock s1) as [s2 [e'|a]]; [by eexists|done].
  - assert (chain_of ((bs ++ [g]) ++ [hibernate_block (S n) t arr]) = [g]) as Hg.
    { rewrite chain_of_snoc_other by done.
      by rewrite chain_of_snoc_inChain, Hchain. }
    rewrite Hg. split_and!; try done.
    + apply validateBlocks_spec. intros [|i] b Hi; [|by destruct i].
      cbn in Hi. simplify_eq. split_and!; [done..|]. constructor.
    + intros _. eexists. by rewrite <- app_assoc.
    + intros Hlen. exfalso. apply Hret; [|exact Hlen]. rewrite Hans. apply returns_inr.
Qed.

(** C7. With exactly one approved record waiting, the first
    [getBlockchain] on the empty store creates the genesis block, throws a
    [TypeError] in [createHibernateBlock] and leaves no [Hibernating]
    block behind; the record is gone from the pool. *)
Theorem getBlockchain_one_approved_record_no_staging_block :
  let s := with_approvedRecords [mkApprovedRecord 0 []] emptyStore in
  chain_of (blocks s) = []
  ∧ answer getBlockchain s
    = inl (TypeError "Cannot read properties of undefined (reading 'records')")
  ∧ blocks (exec getBlockchain s) = [genesis_block 0 (toLocaleString 0)]
  ∧ Forall (λ b, status b ≠ Hibernating) (blocks (exec getBlockchain s))
  ∧ approvedRecords (exec getBlockchain s) = [].
Proof.
  cbn zeta. split_and!; try done.
  apply Forall_singleton. done.
Qed.

Lemma getWaitingBlock_answer (s : Store) :
  getWaitingBlock s
  = (s, inr (snd <$> list_find (λ b, statusName (status b) = "Hibernating") (blocks s))).
Proof. done. Qed.

(** C8. After the bootstrap with two approved records and the activation
    of the staging block, the staging block is [Pending] and
    [getWaitingBlock] answers [null]: the query it makes is
    [{ status: "Hibernating" }]. *)
Theorem getWaitingBlock_misses_pending_block :
  let s0 := with_approvedRecords [mkApprovedRecord 0 []; mkApprovedRecord 1 []]
              emptyStore in
  let s := handle (ActivateBlock 1) (handle GetBlockchain s0) in
  js_or "Hibernating" "Pending" = "Hibernating"
  ∧ reachable s
  ∧ (∃ b, list.last (blocks s) = Some b ∧ status b = Pending)
  ∧ answer getWaitingBlock s = inr None.
Proof.
  cbn zeta. split_and!.
  - done.
  - do 2 (eapply reachable_step; [|apply step_request]). by apply reachable_init.
  - eexists. split; [reflexivity|done].
  - done.
Qed.

(** C10. [createHibernateBlock] reads [record[0]] and [record[1]] whenever
    the pool of approved records is not empty: it returns exactly when the
    pool is empty or holds at least [MAX_RECORD] = 2 entries; with a pool
    of two or more the new block gets the records of the first two
    entries; with exactly one entry it throws a [TypeError] on
    [record[1]], after deleting that entry and without creating a block. *)
Theorem createHibernateBlock_reads_two_entries (s : Store) :
  (returns (answer createHibernateBlock s) ↔
     length (approvedRecords s) = 0%nat ∨ (MAX_RECORD ≤ length (approvedRecords s))%nat)
  ∧ (∀ r0 r1 rest, approvedRecords s = r0 :: r1 :: rest →
       ∃ b, answer createHibernateBlock s = inr b
            ∧ records b = [ar_records r0; ar_records r1]
            ∧ status b = Hibernating
            ∧ blocks (exec createHibernateBlock s) = blocks s ++ [b])
  ∧ (∀ r0, approvedRecords s = [r0] →
       throws (answer createHibernateBlock s)
       ∧ blocks (exec createHibernateBlock s) = blocks s
       ∧ approvedRecords (exec createHibernateBlock s) = []).
Proof.
  destruct s as [bs us ts sc pool n d].
  unfold answer, exec, createHibernateBlock, MAX_RECORD.
  destruct pool as [|r0 [|r1 rest]]; run_handler.
  - split; [|split]; [|intros; discriminate..].
    split; [auto|intros _; apply returns_inr].
  - split; [|split]; [|intros; discriminate|].
    + split; [by intros ?%not_returns_inl|intros [?|?]; [done|lia]].
    + intros ? [= <-]. split; [by eexists|]. by rewrite decide_True.
  - split; [|split]; [| |intros; discriminate].
    + split; [intros _; right; lia|intros _; apply returns_inr].
    + intros ? ? ? [= <- <- <-]. eexists. split; [done|]. done.
Qed.
End Properties.

(** * More of the controller

    Properties of the handlers on any store, frames of a request, and
    invariants of the reachable stores. *)

Section Functions.
Context `{Platform}.

(** ** The handlers on any store *)

(** X1. [getBlock] never changes the store. It fails with the
    [NotFoundError] for the [blockId] asked for exactly when no block of
    the collection, committed or not, has that [blockId]; a block it
    answers has that [blockId] and is in the collection. *)
Theorem getBlock_fails_iff_no_block_has_blockId (s : Store) (blockID : Z) :
  exec (getBlock blockID) s = s
  ∧ (answer (getBlock blockID) s
       = inl (NotFoundError ("No block with block id " +:+ pretty blockID))
     ↔ Forall (λ b, blockId b ≠ blockID) (blocks s))
  ∧ (∀ b, answer (getBlock blockID) s = inr b →
       blockId b = blockID ∧ b ∈ blocks s).
Proof.
  split; [apply exec_getBlock|].
  unfold answer, getBlock. rewrite findOne_bind.
  destruct (list_find _ (blocks s)) as [[i b]|] eqn:Hfind; cbn.
  - apply list_find_Some in Hfind as (Hi & Hb & _). split.
    + split; [done|]. intros Hall.
      eapply Forall_lookup_1 in Hall; [|exact Hi]. done.
    + intros b' [= <-]. split; [done|]. by eapply list_elem_of_lookup_2.
  - apply list_find_None in Hfind. split; [done|]. intros b' [=].
Qed.

(** X2. [validateBlock] never changes the store. It fails with a
    [BadRequestError] when no block has the identifier; otherwise it
    looks at the first block with that identifier and answers [true]
    exactly when every record of the batch that has an [amount] passes
    [checkTransactionValidity]. Records without an [amount] are not
    checked, and neither are the hash, the link or the status. *)
Theorem validateBlock_checks_records_with_amount (s : Store) (blockID : nat) :
  exec (validateBlock blockID) s = s
  ∧ (Forall (λ b, _id b ≠ blockID) (blocks s) →
     answer (validateBlock blockID) s
     = inl (BadRequestError ("No block with id " +:+ pretty blockID)))
  ∧ (∀ i b, blocks s !! i = Some b → _id b = blockID →
       (∀ j x, blocks s !! j = Some x → (j < i)%nat → _id x ≠ blockID) →
       ∃ isValid, answer (validateBlock blockID) s = inr isValid
         ∧ (isValid = true ↔
            ∀ r, r ∈ records b → js_in "amount" r = true →
                 checkTransactionValidity r = true)).
Proof.
  split; [apply exec_validateBlock|].
  unfold answer, validateBlock. rewrite findOne_bind. split.
  - intros Hall.
    assert (list_find (λ b, _id b = blockID) (blocks s) = None) as ->
      by (by apply list_find_None).
    done.
  - intros i b Hi Hb Hfirst.
    assert (list_find (λ b, _id b = blockID) (blocks s) = Some (i, b)) as ->.
    { apply list_find_Some. split_and!; [done..|]. intros j x Hj Hlt. by eapply Hfirst. }
    cbn. eexists. split; [done|].
    rewrite validateBlockRecords_spec, Forall_forall. done.
Qed.

(** X3. After a [getBlockchain] the chain is not empty, and a second
    [getBlockchain] changes nothing and answers the array of the [inChain]
    blocks. On a store that has an [inChain] block the first call changes
    nothing either. The call that creates the genesis block answers, when
    it returns, the genesis document itself and not an array. *)
Theorem getBlockchain_bootstraps_once (s : Store) :
  let s' := exec getBlockchain s in
  getBlockchain s' = (s', inr (inl (chain_of (blocks s'))))
  ∧ chain_of (blocks s') ≠ []
  ∧ (chain_of (blocks s) ≠ [] → s' = s)
  ∧ (chain_of (blocks s) = [] →
     ∀ a, answer getBlockchain s = inr a →
          a = inr (genesis_block (nextObjectId s) (toLocaleString (dateReads s)))).
Proof.
  intros s'.
  assert (chain_of (blocks s') ≠ []) as Hne.
  { subst s'. unfold exec.
    destruct (getBlockchain_cases s) as [[Hne ->]|[Hnil ->]]; [done|].
    destruct s as [bs us ts sc pool n d].
    erewrite run_bind; [|apply createGenesisBlock_run].
    set (g := genesis_block n (toLocaleString d)).
    set (s1 := mkStore (bs ++ [g]) us ts sc pool (S n) (S d)).
    change (chain_of (blocks (exec (createHibernateBlock ≫= λ _,
              mret (inr g : list Block + Block)) s1)) ≠ []).
    rewrite exec_bind_mret.
    destruct (createHibernateBlock_blocks s1) as (tl & -> & _).
    cbn. rewrite !chain_of_app, chain_of_singleton, decide_True by done.
    intros Heq. apply app_eq_nil in Heq as [Heq _].
    by apply app_eq_nil in Heq as [_ Heq]. }
  split_and!; [|done| |].
  - by destruct (getBlockchain_cases s') as [[_ ->]|[Hnil _]].
  - intros Hs. subst s'. unfold exec.
    by destruct (getBlockchain_cases s) as [[_ ->]|[Hnil _]].
  - intros Hnil a. unfold answer.
    destruct (getBlockchain_cases s) as [[Hs _]|[_ ->]]; [done|].
    destruct s as [bs us ts sc pool n d].
    erewrite run_bind; [|apply createGenesisBlock_run].
    unfold mbind, M_bind. cbn.
    destruct (createHibernateBlock _) as [s2 [e|h]]; cbn; [done|]. by intros [= <-].
Qed.

(** X4. When no block with the identifier is [Pending], [approveBlock]
    leaves the store as it is and fails: with the duplicate-vote
    [BadRequestError] exactly when the caller is among the voters of a
    block with that identifier, with the [NotFoundError] exactly when the
    caller is among the voters of none. The duplicate check comes
    first. *)
Theorem approveBlock_refuses_block_not_pending (s : Store) (id : nat)
    (isApproved : bool) (u : string) :
  Forall (λ b, _id b = id → status b ≠ Pending) (blocks s) →
  exec (approveBlock id isApproved u) s = s
  ∧ (answer (approveBlock id isApproved u) s
       = inl (BadRequestError "Already rejected or approved this block")
     ↔ ∃ b, b ∈ blocks s ∧ _id b = id ∧ (u ∈ approvedBy b ∨ u ∈ rejectedBy b))
  ∧ (answer (approveBlock id isApproved u) s
       = inl (NotFoundError ("No pending block with id " +:+ pretty id +:+
                             " or block has not been activated"))
     ↔ ∀ b, b ∈ blocks s → _id b = id → (u ∉ approvedBy b) ∧ (u ∉ rejectedBy b)).
Proof.
  intros Hnot. unfold exec, answer.
  destruct (approveBlock_cases id isApproved u s)
    as [[[[i b] Hsome] ->]|[(Hnone & _ & ->)|(_ & i & b & Hfind & _)]]; cbn.
  - apply list_find_Some in Hsome as (Hi & [Hid Hu] & _).
    apply list_elem_of_lookup_2 in Hi.
    split_and!; [done| |].
    + split; [|done]. intros _. by exists b.
    + split; [done|]. intros Hall. destruct (Hall b Hi Hid). tauto.
  - apply list_find_None in Hnone. rewrite Forall_forall in Hnone.
    split_and!; [done| |].
    + split; [done|]. intros (b & Hin & Hid & Hu). by destruct (Hnone b Hin).
    + split; [|done]. intros _ b Hin Hid. specialize (Hnone b Hin). tauto.
  - apply list_find_Some in Hfind as (Hi & [Hid Hst] & _).
    eapply Forall_lookup_1 in Hnot; [|exact Hi]. by destruct Hnot.
Qed.

(** X5. When [createHibernateBlock] returns, the records of the pool
    before the call are the batch of the new block followed by the
    records of the pool after the call: no approved record is lost or
    taken twice. The batch is empty or holds [MAX_RECORD] records, and
    the new block is [Hibernating], without votes and the last of the
    collection. *)
Theorem createHibernateBlock_moves_pool_entries_into_block (s : Store) (b : Block) :
  answer createHibernateBlock s = inr b →
  ar_records <$> approvedRecords s
  = records b ++ (ar_records <$> approvedRecords (exec createHibernateBlock s))
  ∧ (length (records b) = 0%nat ∨ length (records b) = MAX_RECORD)
  ∧ status b = Hibernating ∧ approvedBy b = [] ∧ rejectedBy b = []
  ∧ blocks (exec createHibernateBlock s) = blocks s ++ [b].
Proof.
  destruct s as [bs us ts sc pool n d].
  unfold answer, exec, createHibernateBlock, MAX_RECORD.
  destruct pool as [|r0 [|r1 rest]]; run_handler.
  - intros [= <-]. cbn. split_and!; auto.
  - done.
  - intros [= <-]. cbn. case_decide; [|done]. cbn. case_decide; [|done].
    split_and!; auto.
Qed.

(** X6. [updateRecordsStatusInBlock] and [rejectRecordsStatusInBlock]
    (here for any status [st]) set the [status] of the first [MAX_RECORD]
    records of the batch and of no other. On a batch with fewer records
    they throw a [TypeError] and write nothing, and so they do on a
    [null] block. *)
Theorem setRecordsStatusInBlock_marks_first_two (st : string) (block : Block)
    (s : Store) :
  (∀ r0 r1 rest, records block = r0 :: r1 :: rest →
     answer (setRecordsStatusInBlock st (Some block)) s
     = inr (set_records (js_set "status" (JsStr st) r0
                         :: js_set "status" (JsStr st) r1 :: rest) block))
  ∧ ((length (records block) < MAX_RECORD)%nat →
     setRecordsStatusInBlock st (Some block) s
     = (s, inl (TypeError "Cannot set properties of undefined (setting 'status')")))
  ∧ setRecordsStatusInBlock st None s
    = (s, inl (TypeError "Cannot read properties of null (reading 'records')")).
Proof.
  split_and!.
  - intros r0 r1 rest Hrecs. unfold answer, setRecordsStatusInBlock.
    rewrite Hrecs. cbn.
    unfold save_records, mbind, M_bind, BlockModel_findOneAndUpdate.
    by destruct (list_find _ (blocks s)) as [[i b]|].
  - unfold MAX_RECORD, setRecordsStatusInBlock.
    destruct (records block) as [|r0 [|r1 rest]]; cbn; intros; [done..|lia].
  - done.
Qed.

Lemma updateMany_status_none (from to : string) (docs : list RecordDoc) :
  from ≠ to → Forall (λ d, doc_status d ≠ from) (updateMany_status from to docs).
Proof.
  intros Hne. unfold updateMany_status. apply Forall_fmap, Forall_forall.
  intros d _. cbn. case_decide; cbn; congruence.
Qed.

Lemma updateMany_status_id (from to : string) (docs : list RecordDoc) :
  Forall (λ d, doc_status d ≠ from) docs → updateMany_status from to docs = docs.
Proof.
  intros Hall. unfold updateMany_status.
  induction Hall as [|d docs Hd _ IH]; [done|].
  cbn. by rewrite decide_False, IH.
Qed.

Lemma propagated_intro (s : Store) :
  Forall (λ d, doc_status d ≠ "inBlock") (transactions s) →
  Forall (λ d, doc_status d ≠ "inBlock") (supplyChain s) →
  propagated s.
Proof.
  intros Ht Hs. split; [by apply Forall_app|].
  destruct s as [bs us ts sc pool n d]. cbn in Ht, Hs.
  unfold exec. rewrite updateRecordsStatus_run, rejectRecords_run. cbn.
  by rewrite !updateMany_status_id.
Qed.

(** X7. After [updateRecordsStatus], and after [rejectRecords], no
    document of the transaction store or of the supply-chain store is
    [inBlock], and running either of the two again changes nothing. *)
Theorem record_propagation_settles_statuses (s : Store) :
  propagated (exec updateRecordsStatus s) ∧ propagated (exec rejectRecords s).
Proof.
  destruct s as [bs us ts sc pool n d]. unfold exec.
  rewrite updateRecordsStatus_run, rejectRecords_run. cbn [fst].
  split; apply propagated_intro; cbn; by apply updateMany_status_none.
Qed.

Lemma string_app_assoc (s1 s2 s3 : string) :
  (s1 +:+ s2) +:+ s3 = s1 +:+ (s2 +:+ s3).
Proof.
  induction s1 as [|a s1 IH]; [done|].
  change (String a ((s1 +:+ s2) +:+ s3) = String a (s1 +:+ (s2 +:+ s3))).
  by rewrite IH.
Qed.

(** X8. [computeBlockHash] hashes the plain concatenation of its
    fields, with nothing between them: text moved from the end of
    [prevHash] to the start of [timestamp] gives the same hash, and so
    does a digit moved from [prevHash] into [blockId]. *)
Theorem computeBlockHash_does_not_separate_fields :
  (∀ (blockId : Z) (prevHash x timestamp : string) (record : list JsObject),
     computeBlockHash blockId (prevHash +:+ x) timestamp record
     = computeBlockHash blockId prevHash (x +:+ timestamp) record)
  ∧ (∀ (prevHash timestamp : string) (record : list JsObject),
       computeBlockHash 1 ("2" +:+ prevHash) timestamp record
       = computeBlockHash 12 prevHash timestamp record).
Proof.
  split.
  - intros. unfold computeBlockHash. f_equal.
    by rewrite !string_app_assoc.
  - done.
Qed.

Lemma threshold_exact_upto_spec (N k n : nat) :
  threshold_exact_upto N = true → (1 ≤ n ≤ N)%nat → (k ≤ n)%nat →
  reachesThreshold (parseFloat k / parseFloat n)
  = bool_decide (33 * Z.of_nat n ≤ 50 * Z.of_nat k).
Proof.
  intros Hall Hn Hk. unfold threshold_exact_upto in Hall.
  pose proof (proj1 (forallb_forall _ _) Hall n) as Hrow.
  pose proof (proj1 (forallb_forall _ _) (Hrow ltac:(apply in_seq; lia)) k) as Hcell.
  apply bool_decide_eq_true_1 in Hcell; [done|]. apply in_seq. lia.
Qed.

Lemma threshold_exact_upto_256 : threshold_exact_upto 256 = true.
Proof. vm_compute. reflexivity. Qed.

(** X9. For up to 256 validators, the comparison
    [votes / validators >= 0.66] that [blockConsensus] makes on doubles
    is the comparison of the exact fraction with 33/50. *)
Theorem reachesThreshold_exact_up_to_256_validators (k n : nat) :
  (1 ≤ n ≤ 256)%nat → (k ≤ n)%nat →
  reachesThreshold (parseFloat k / parseFloat n)
  = bool_decide (33 * Z.of_nat n ≤ 50 * Z.of_nat k).
Proof. apply threshold_exact_upto_spec, threshold_exact_upto_256. Qed.

Lemma block_valid_at_prefix (l1 l2 : list Block) (i : nat) (b : Block) :
  l1 !! i = Some b → block_valid_at (l1 ++ l2) i b → block_valid_at l1 i b.
Proof.
  intros Hi (Hhash & Hprev & Hrecs). split_and!; [done| |done].
  destruct i as [|j]; [done|]. destruct Hprev as (p & Hp & Hph).
  exists p. split; [|done].
  apply lookup_lt_Some in Hi. by rewrite lookup_app_l in Hp by lia.
Qed.

(** X10. [validateBlocks] accepts every initial part of a chain it
    accepts, so it does not notice that the last blocks are missing. It
    compares neither [blockId] with the position nor [status] with
    anything: a single block with an empty [prevHash] and the hash of its
    own fields is accepted whatever its [blockId] and [status]. *)
Theorem validateBlocks_ignores_truncation_and_numbering :
  (∀ l1 l2 : list Block,
     (validateBlocks (l1 ++ l2)).2 = true → (validateBlocks l1).2 = true)
  ∧ (∀ (i : nat) (z : Z) (t : string) (st : BlockStatus),
       (validateBlocks
          [mkBlock i z "" (computeBlockHash z "" t []) t st [] [] []]).2 = true).
Proof.
  split.
  - intros l1 l2. rewrite !validateBlocks_spec. intros Hall i b Hi.
    apply (block_valid_at_prefix l1 l2); [done|].
    apply Hall. by apply lookup_app_l_Some.
  - intros i z t st. apply validateBlocks_spec. intros [|j] b Hj; [|by destruct j].
    cbn in Hj. injection Hj as <-. split_and!; [done..|]. constructor.
Qed.

End Functions.

(** ** What a request leaves alone *)

Section Frames.
Context `{Platform}.

Lemma status_moved_refl d : status_moved d d.
Proof. split_and!; auto. Qed.

Lemma status_moved_trans d1 d2 d3 :
  status_moved d1 d2 → status_moved d2 d3 → status_moved d1 d3.
Proof.
  intros (Hi1 & Hf1 & Hs1) (Hi2 & Hf2 & Hs2).
  split_and!; [congruence..|].
  destruct Hs1 as [Hs1|[Hs1 Hs1']], Hs2 as [Hs2|[Hs2 Hs2']].
  - left. congruence.
  - right. split; [congruence|done].
  - right. split; [done|]. rewrite Hs2. done.
  - destruct Hs1' as [Hs1'|Hs1']; rewrite Hs1' in Hs2; discriminate.
Qed.

Lemma Forall2_status_moved_refl l : Forall2 status_moved l l.
Proof. apply Forall_Forall2_diag, Forall_forall. intros. apply status_moved_refl. Qed.

Lemma Forall2_status_moved_trans l1 l2 l3 :
  Forall2 status_moved l1 l2 → Forall2 status_moved l2 l3 →
  Forall2 status_moved l1 l3.
Proof.
  intros H12. revert l3. induction H12 as [|d1 d2 l1 l2 Hd _ IH]; intros l3 H23.
  - by apply Forall2_nil_inv_l in H23 as ->.
  - apply Forall2_cons_inv_l in H23 as (d3 & l3' & Hd' & H23 & ->).
    constructor; [by eapply status_moved_trans|by apply IH].
Qed.

#[local] Instance frame_refl : Reflexive frame.
Proof.
  intros s. split; try done; apply Forall2_status_moved_refl.
Qed.

#[local] Instance frame_trans : Transitive frame.
Proof.
  intros s1 s2 s3 [Hu1 Ht1 Hc1 Hp1 Hb1] [Hu2 Ht2 Hc2 Hp2 Hb2]. split.
  - congruence.
  - by eapply Forall2_status_moved_trans.
  - by eapply Forall2_status_moved_trans.
  - by etrans.
  - by etrans.
Qed.

Section Keeps.
Context (R : relation Store) `{!Reflexive R, !Transitive R}.

Lemma keeps_mret {A : Type} (a : A) : keeps R (mret a).
Proof. intros s. apply reflexivity. Qed.

Lemma keeps_throw {A : Type} (e : Error) : keeps R (throw e : M A).
Proof. intros s. apply reflexivity. Qed.

Lemma keeps_bind {A B : Type} (m : M A) (k : A → M B) :
  keeps R m → (∀ a, keeps R (k a)) → keeps R (m ≫= k).
Proof.
  intros Hm Hk s. specialize (Hm s). unfold exec, mbind, M_bind in *.
  destruct (m s) as [s1 [e|a]]; [done|].
  etrans; [exact Hm|]. apply Hk.
Qed.

Lemma keeps_read {A : Type} (f : Store → A) : keeps R (λ s, (s, inr (f s))).
Proof. intros s. apply reflexivity. Qed.
End Keeps.

(** *** The store primitives *)

Lemma frame_findOneAndUpdate (P : Block → Prop) `{!∀ b, Decision (P b)}
    (upd : Block → Block) :
  (∀ b, _id (upd b) = _id b) → keeps frame (BlockModel_findOneAndUpdate P upd).
Proof.
  intros Hupd s. unfold exec, BlockModel_findOneAndUpdate.
  destruct (list_find P (blocks s)) as [[i b]|] eqn:Hfind; [|done].
  apply list_find_Some in Hfind as (Hi & _ & _).
  split; cbn; try done; try apply Forall2_status_moved_refl.
  rewrite list_fmap_insert, Hupd.
  rewrite list_insert_id; [done|]. by rewrite list_lookup_fmap, Hi.
Qed.

Lemma frame_create (mk : nat → Block) : keeps frame (BlockModel_create mk).
Proof.
  intros s. split; cbn; try done; try apply Forall2_status_moved_refl.
  rewrite fmap_app. by apply prefix_app_r.
Qed.

Lemma frame_newDate : keeps frame newDate.
Proof.
  intros s. split; cbn; try done; apply Forall2_status_moved_refl.
Qed.

Lemma updateMany_status_moved (to : string) (docs : list RecordDoc) :
  to = "inChain" ∨ to = "Rejected" →
  Forall2 status_moved docs (updateMany_status "inBlock" to docs).
Proof.
  intros Hto. unfold updateMany_status.
  apply Forall2_fmap_r, Forall_Forall2_diag, Forall_forall. intros d _. cbn.
  case_decide; [|apply status_moved_refl].
  split_and!; [done..|]. right. done.
Qed.

Lemma frame_updateRecordsStatus : keeps frame updateRecordsStatus.
Proof.
  intros s. split; cbn; try done;
    apply updateMany_status_moved; by left.
Qed.

Lemma frame_rejectRecords : keeps frame rejectRecords.
Proof.
  intros s. split; cbn; try done;
    apply updateMany_status_moved; by right.
Qed.

Lemma deleteOne_sublist (i : nat) (docs : list ApprovedRecord) :
  deleteOne i docs `sublist_of` docs.
Proof.
  induction docs as [|d docs IH]; cbn; [done|].
  case_decide; [by apply sublist_cons|by apply sublist_skip].
Qed.

Lemma frame_createHibernateBlock_loop record idxs arr :
  keeps frame (createHibernateBlock_loop record idxs arr).
Proof.
  revert arr. induction idxs as [|i idxs IH]; intros arr; cbn.
  - apply keeps_mret; apply _.
  - destruct (record !! i) as [r|]; [|apply keeps_throw; apply _].
    apply keeps_bind; [apply _| |intros _; apply IH].
    intros s. split; cbn; try done; try apply Forall2_status_moved_refl.
    apply deleteOne_sublist.
Qed.

(** Applies the rules of [keeps] along the structure of a handler;
    [tac] proves the calls of handlers that are already known to keep
    [frame]. *)
Ltac keeps_frame tac :=
  repeat first
    [ tac
    | apply keeps_mret; apply _
    | apply keeps_throw; apply _
    | apply frame_newDate
    | apply frame_create
    | apply frame_updateRecordsStatus
    | apply frame_rejectRecords
    | apply frame_createHibernateBlock_loop
    | apply frame_findOneAndUpdate; intros []; reflexivity
    | apply (keeps_read frame)
    | apply keeps_bind; [apply _| |intros ?]
    | progress cbv zeta
    | progress case_match ].

Lemma frame_createHibernateBlock : keeps frame createHibernateBlock.
Proof. unfold createHibernateBlock. keeps_frame fail. Qed.

Lemma frame_setRecordsStatusInBlock st block :
  keeps frame (setRecordsStatusInBlock st block).
Proof. unfold setRecordsStatusInBlock, save_records. keeps_frame fail. Qed.

Lemma frame_appendToBlockchain block id : keeps frame (appendToBlockchain block id).
Proof.
  unfold appendToBlockchain. keeps_frame ltac:(apply frame_createHibernateBlock).
Qed.

Lemma frame_blockConsensus block id : keeps frame (blockConsensus block id).
Proof.
  unfold blockConsensus, updateRecordsStatusInBlock, rejectRecordsStatusInBlock.
  keeps_frame ltac:(first [ apply frame_setRecordsStatusInBlock
                          | apply frame_appendToBlockchain
                          | apply frame_createHibernateBlock ]).
Qed.

Lemma frame_approveBlock id isApproved u : keeps frame (approveBlock id isApproved u).
Proof. unfold approveBlock. keeps_frame ltac:(apply frame_blockConsensus). Qed.

Lemma frame_activateBlock id : keeps frame (activateBlock id).
Proof. unfold activateBlock. keeps_frame fail. Qed.

Lemma frame_getBlockchain : keeps frame getBlockchain.
Proof.
  unfold getBlockchain, createGenesisBlock.
  keeps_frame ltac:(apply frame_createHibernateBlock).
Qed.

Lemma handle_frame (r : Request) (s : Store) : frame s (handle r s).
Proof.
  destruct r; cbn [handle].
  - apply frame_getBlockchain.
  - rewrite exec_getBlock. reflexivity.
  - rewrite exec_getWaitingBlock. reflexivity.
  - rewrite exec_validateBlock. reflexivity.
  - apply frame_activateBlock.
  - apply frame_approveBlock.
  - rewrite exec_validateBlockchain. reflexivity.
Qed.

(** X11. Whatever the store and the request, the block controller
    adds, removes and reorders no document of the transaction and
    supply-chain stores and changes none but in its status, and a status
    only from [inBlock] to [inChain] or [Rejected]. *)
Theorem requests_only_move_inBlock_statuses (r : Request) (s : Store) :
  Forall2 status_moved (transactions s) (transactions (handle r s))
  ∧ Forall2 status_moved (supplyChain s) (supplyChain (handle r s)).
Proof. split; apply handle_frame. Qed.

(** X12. Whatever the store and the request, the users stay as they
    are, and the pool of approved records afterwards is a part of the
    pool before, in the same order: the block controller never adds to
    it. *)
Theorem requests_leave_users_and_only_take_from_pool (r : Request) (s : Store) :
  users (handle r s) = users s
  ∧ approvedRecords (handle r s) `sublist_of` approvedRecords s.
Proof. split; apply handle_frame. Qed.

(** X13. Whatever the store and the request, every block stays in the
    collection at its place and under its identifier; new blocks go to
    the end. *)
Theorem requests_never_delete_blocks (r : Request) (s : Store) :
  (_id <$> blocks s) `prefix_of` (_id <$> blocks (handle r s)).
Proof. apply handle_frame. Qed.

End Frames.

(** ** The reachable stores, step by step *)

Section TransitionProperties.
Context `{Platform}.

Lemma createHibernateBlock_new_staging (s : Store) :
  ∃ tl, blocks (exec createHibernateBlock s) = blocks s ++ tl ∧ new_staging tl.
Proof.
  destruct (createHibernateBlock_exec s)
    as (_ & _ & _ & [(-> & _)|(t & arr & -> & _)]).
  - exists []. split; [by rewrite app_nil_r|by left].
  - eexists [_]. split; [done|]. right. by eexists _, _, _.
Qed.

(** A step from a well-formed store changes the blocks in one of three
    ways. *)
Lemma step_blocks (s s' : Store) :
  well_formed s → step s s' → blocks_step (users s) (blocks s) (blocks s').
Proof.
  intros Hwf Hstep. destruct Hstep as [r s0|s0 s0' [_ Hout]].
  - destruct r as [| | | |id|id isApproved u|]; cbn [handle].
    + unfold exec. destruct (getBlockchain_cases s0) as [[_ ->]|[Hnil ->]];
        [constructor|].
      assert (blocks s0 = []) as Hbs.
      { destruct (decide (blocks s0 = [])) as [|Hne]; [done|].
        by destruct (wf_genesis _ _ Hwf Hne). }
      destruct s0 as [bs us ts sc pool n d]. cbn in Hbs. subst bs.
      erewrite run_bind; [|apply createGenesisBlock_run].
      set (g := genesis_block n (toLocaleString d)).
      set (s1 := mkStore ([] ++ [g]) us ts sc pool (S n) (S d)).
      change (blocks_step us (blocks (mkStore [] us ts sc pool n d))
                (blocks (exec (createHibernateBlock ≫= λ _,
                   mret (inr g : list Block + Block)) s1))).
      rewrite exec_bind_mret.
      destruct (createHibernateBlock_new_staging s1) as (tl & -> & Htl).
      cbn. by constructor.
    + rewrite exec_getBlock. constructor.
    + rewrite exec_getWaitingBlock. constructor.
    + rewrite exec_validateBlock. constructor.
    + unfold exec. destruct (activateBlock_cases id s0)
        as [[_ ->]|[(i & b & _ & _ & ->)|(i & b & Hfind & Hlen & _)]];
        [constructor..|].
      destruct (activateBlock_accepted s0 id i b Hwf Hfind Hlen)
        as (done & Hbs & Hdone & _ & Hst & ->).
      cbn. rewrite Hbs. apply blocks_staging; [done|by left| |by left].
      by constructor.
    + unfold exec. destruct (approveBlock_cases id isApproved u s0)
        as [[_ ->]|[(_ & _ & ->)|(Hbefore & i & b & Hfind & _)]]; [constructor..|].
      destruct (approveBlock_accepted s0 id isApproved u i b Hwf Hbefore Hfind)
        as (done & top & Hbs & Hdone & _ & _ & Hst & Hlen & Hna & Hnr & Htop & ->).
      rewrite Hbs.
      destruct (reachesThreshold (approvedPercentage _ _)) eqn:Happ;
        [|destruct (reachesThreshold (rejectedPercentage _ _)) eqn:Hrej].
      * set (c := committed_block top (toLocaleString (dateReads s0))
                    (vote isApproved u b)).
        change (blocks_step (users s0) (done ++ [b])
                  (blocks (exec (createHibernateBlock ≫= λ _,
                     mret (approve_message isApproved, Some c))
                     (store_committed s0 done c)))).
        rewrite exec_bind_mret.
        destruct (createHibernateBlock_new_staging (store_committed s0 done c))
          as (tl & -> & Htl).
        cbn. rewrite <- app_assoc. apply blocks_staging; [done|by right| |].
        -- by constructor.
        -- right. split; [by left|done].
      * set (x := rejected_block (toLocaleString (dateReads s0))
                    (vote isApproved u b)).
        change (blocks_step (users s0) (done ++ [b])
                  (blocks (exec (createHibernateBlock ≫= λ _,
                     mret (approve_message isApproved, Some x))
                     (store_rejected s0 done x)))).
        rewrite exec_bind_mret.
        destruct (createHibernateBlock_new_staging (store_rejected s0 done x))
          as (tl & -> & Htl).
        cbn. rewrite <- app_assoc. apply blocks_staging; [done|by right| |].
        -- by constructor.
        -- right. split; [by right|done].
      * cbn. apply blocks_staging; [done|by right| |by left]. by constructor.
    + rewrite exec_validateBlockchain. constructor.
  - destruct (wf_shape _ _ Hwf) as [Hall|(done & b & Hbs & Hdone & Hb)].
    { rewrite (Forall2_outside_settled _ _ Hall Hout). constructor. }
    rewrite Hbs in Hout |- *.
    apply Forall2_app_inv_l in Hout as (done' & tl & Hd & Htl & ->).
    apply Forall2_cons_inv_l in Htl as (b' & tl' & Hb' & Htl & ->).
    apply Forall2_nil_inv_l in Htl as ->.
    rewrite (Forall2_outside_settled _ _ Hdone Hd).
    destruct Hb' as [->|[Hhib [rs ->]]]; [constructor|].
    apply blocks_staging; [done..| |by left]. by constructor.
Qed.

(** Induction over the reachable stores, by what a step makes of the
    blocks of a well-formed store. *)
Lemma reachable_blocks_ind (Q : list Block → Prop) :
  Q [] →
  (∀ n us bs bs', wf_blocks n bs → Q bs → blocks_step us bs bs' → Q bs') →
  ∀ s, reachable s → Q (blocks s).
Proof.
  intros Hnil Hstep s Hreach.
  induction Hreach as [s Hs|s s' Hreach IH Hs]; [by rewrite Hs|].
  pose proof (reachable_well_formed s Hreach) as Hwf.
  eapply Hstep; [exact Hwf|exact IH|]. by apply step_blocks.
Qed.

Lemma chain_of_new_staging (tl : list Block) : new_staging tl → chain_of tl = [].
Proof. by intros [->|(i & t & arr & ->)]. Qed.

(** X14. With the requests handled one after the other, a block that is
    [inChain] or [Rejected] is not changed any more: after a step, by a
    request handled as a whole or by another controller, the same document
    is at the same place. *)
Theorem settled_blocks_never_change (s s' : Store) (i : nat) (b : Block) :
  reachable s → step s s' → blocks s !! i = Some b → settled b →
  blocks s' !! i = Some b.
Proof.
  intros Hreach Hstep Hi Hb.
  destruct (step_blocks s s' (reachable_well_formed s Hreach) Hstep)
    as [bs|n t tl Htl|pre b0 b' tl Hdone Hb0 _ _]; [done..|].
  apply lookup_app_Some in Hi as [Hi|[_ Hi]].
  - by apply lookup_app_l_Some.
  - apply list_lookup_singleton_Some in Hi as [_ <-].
    by destruct (settled_not_staged b0).
Qed.

(** X15. With the requests handled one after the other, a step makes
    the committed chain grow at its end only, and by one block at most. *)
Theorem chain_only_grows (s s' : Store) :
  reachable s → step s s' →
  chain_of (blocks s) `prefix_of` chain_of (blocks s')
  ∧ (length (chain_of (blocks s')) ≤ S (length (chain_of (blocks s))))%nat.
Proof.
  intros Hreach Hstep.
  destruct (step_blocks s s' (reachable_well_formed s Hreach) Hstep)
    as [bs|n t tl Htl|pre b0 b' tl Hdone Hb0 _ Htl].
  - split; [done|lia].
  - split; [apply prefix_nil|].
    change (genesis_block n t :: tl) with ([genesis_block n t] ++ tl).
    rewrite chain_of_app, (chain_of_new_staging tl), chain_of_singleton by done.
    case_decide; cbn; lia.
  - rewrite chain_of_snoc_other by by apply staged_not_inChain.
    change (b' :: tl) with ([b'] ++ tl). rewrite !chain_of_app.
    assert (chain_of tl = []) as ->.
    { destruct Htl as [->|[_ Htl]]; [done|by apply chain_of_new_staging]. }
    rewrite app_nil_r. split; [by apply prefix_app_r|].
    rewrite length_app, chain_of_singleton. case_decide; cbn; lia.
Qed.

(** X16. With the requests handled one after the other, every block
    of the collection but the last is [inChain] or [Rejected]; no stored block has status [Approved], which exists
    inside [blockConsensus] only; and a [Pending] block holds exactly
    [MAX_RECORD] records. *)
Theorem at_most_one_open_block (s : Store) :
  reachable s →
  (∀ i b, blocks s !! i = Some b → (S i < length (blocks s))%nat → settled b)
  ∧ (∀ b, b ∈ blocks s → status b ≠ Approved)
  ∧ (∀ b, b ∈ blocks s → status b = Pending → length (records b) = MAX_RECORD).
Proof.
  intros Hreach.
  pose proof (wf_shape _ _ (reachable_well_formed s Hreach)) as Hshape.
  assert (Forall (λ b, settled b ∨ staged b) (blocks s)) as Hall.
  { destruct Hshape as [Hall|(done & b & -> & Hdone & Hb)].
    - eapply Forall_impl; [exact Hall|]. by left.
    - apply Forall_app. split.
      + eapply Forall_impl; [exact Hdone|]. by left.
      + apply Forall_singleton. by right. }
  rewrite Forall_forall in Hall. split_and!.
  - intros i b Hi Hlt.
    destruct Hshape as [Hs|(done & b0 & Hbs & Hdone & Hb)].
    + by eapply Forall_lookup_1 in Hs.
    + rewrite Hbs in Hi, Hlt. rewrite length_app in Hlt. cbn in Hlt.
      rewrite lookup_app_l in Hi by lia. by eapply Forall_lookup_1 in Hdone.
  - intros b Hin Hst.
    destruct (Hall b Hin) as [[?|?]|[?|[? _]]]; congruence.
  - intros b Hin Hst.
    destruct (Hall b Hin) as [[?|?]|[?|[_ ?]]]; congruence.
Qed.

(** X17. In a reachable store with blocks the first block is the
    genesis block: [inChain], with [blockId] 0, an empty [prevHash], no
    records, no votes, and the hash of its own fields. *)
Theorem genesis_block_stays_first (s : Store) :
  reachable s → blocks s ≠ [] →
  ∃ g, blocks s !! 0%nat = Some g
    ∧ status g = inChain ∧ blockId g = GENESIS_BLOCK_ID ∧ prevHash g = ""
    ∧ records g = [] ∧ approvedBy g = [] ∧ rejectedBy g = []
    ∧ hash g = computeBlockHash GENESIS_BLOCK_ID "" (timestamp g) [].
Proof.
  intros Hreach.
  assert (blocks s = [] ∨ ∃ i t rest, blocks s = genesis_block i t :: rest) as Hq.
  { revert s Hreach.
    apply (reachable_blocks_ind
             (λ bs, bs = [] ∨ ∃ i t rest, bs = genesis_block i t :: rest));
      [by left|].
    intros n us bs bs' _ Hq Hstep.
    destruct Hstep as [bs|i t tl _|pre b b' tl _ Hb _ _]; [done| |].
    - right. by eexists _, _, _.
    - right. destruct Hq as [Hq|(i & t & rest & Hq)].
      { by apply app_eq_nil in Hq as [_ ?]. }
      destruct pre as [|g pre].
      { cbn in Hq. injection Hq as -> _.
        by destruct (staged_not_inChain _ Hb). }
      cbn in Hq. injection Hq as -> _. by eexists _, _, _. }
  intros Hne. destruct Hq as [?|(i & t & rest & ->)]; [done|].
  eexists. split; [done|]. by split_and!.
Qed.

(** X18. In a reachable store a [Hibernating] block has no votes:
    votes are cast on activated blocks only. *)
Theorem hibernating_blocks_have_no_votes (s : Store) (b : Block) :
  reachable s → b ∈ blocks s → status b = Hibernating →
  approvedBy b = [] ∧ rejectedBy b = [].
Proof.
  intros Hreach.
  set (Q := λ x : Block, status x = Hibernating → approvedBy x = [] ∧ rejectedBy x = []).
  assert (Forall Q (blocks s)) as Hall.
  { revert s Hreach. apply (reachable_blocks_ind (Forall Q)); [constructor|].
    intros n us bs bs' _ Hq Hstep.
    assert (∀ tl, new_staging tl → Forall Q tl) as Hnew.
    { intros tl [->|(i & t & arr & ->)]; [constructor|].
      by apply Forall_singleton. }
    destruct Hstep as [bs|i t tl Htl|pre b0 b' tl _ _ Hb' Htl]; [done| |].
    - constructor; [done|by apply Hnew].
    - apply Forall_app in Hq as [Hdone Hb0]. rewrite Forall_singleton in Hb0.
      apply Forall_app. split; [done|]. constructor.
      + destruct Hb' as [rs Hst|t Hst ?|isA u Hst|top t isA u Hst|t isA u Hst];
          unfold Q; cbn; try done.
        rewrite vote_status. congruence.
      + destruct Htl as [->|[_ Htl]]; [constructor|by apply Hnew]. }
  intros Hin. rewrite Forall_forall in Hall. by apply Hall.
Qed.

(** X20. With the requests handled one after the other: a block that
    a step makes [inChain] is the genesis block of an empty collection, or was [Pending] and
    has, over the validators of that moment, an approved fraction that
    reaches the threshold. A block that the step makes [Rejected] was
    [Pending], its approved fraction does not reach the threshold and
    its rejected fraction does. *)
Theorem blocks_settle_only_at_threshold (s s' : Store) (c : Block) :
  reachable s → step s s' → c ∈ blocks s' → c ∉ blocks s →
  let validators := filter (λ u, role u = "Validator") (users s) in
  let approved :=
    (parseFloat (length (approvedBy c)) / parseFloat (length validators))%float in
  let rejected :=
    (parseFloat (length (rejectedBy c)) / parseFloat (length validators))%float in
  (status c = inChain →
     (blocks s = [] ∧ blockId c = GENESIS_BLOCK_ID)
     ∨ (reachesThreshold approved = true
        ∧ ∃ b, b ∈ blocks s ∧ status b = Pending ∧ _id b = _id c))
  ∧ (status c = Rejected →
     reachesThreshold approved = false ∧ reachesThreshold rejected = true
     ∧ ∃ b, b ∈ blocks s ∧ status b = Pending ∧ _id b = _id c).
Proof.
  intros Hreach Hstep Hin Hnew. cbv zeta.
  assert (∀ tl, new_staging tl → c ∈ tl → status c = Hibernating) as Hnewst.
  { intros tl [->|(i & t & arr & ->)] Hc; [by apply elem_of_nil in Hc|].
    by apply list_elem_of_singleton in Hc as ->. }
  destruct (step_blocks s s' (reachable_well_formed s Hreach) Hstep)
    as [bs|n t tl Htl|pre b0 b' tl _ _ Hb' Htl]; [done| |].
  - apply elem_of_cons in Hin as [->|Hin].
    + split; [intros _; by left|done].
    + rewrite (Hnewst tl Htl Hin). by split.
  - apply elem_of_app in Hin as [Hin|Hin].
    { destruct Hnew. apply elem_of_app. by left. }
    apply elem_of_cons in Hin as [->|Hin].
    2: { assert (status c = Hibernating) as ->; [|by split].
         destruct Htl as [->|[_ Htl]]; [by apply elem_of_nil in Hin|].
         by apply (Hnewst tl). }
    assert (b0 ∈ pre ++ [b0]) as Hb0.
    { apply elem_of_app. right. apply list_elem_of_here. }
    destruct Hb' as [rs Hst|t Hst ?|isA u Hst ? ? ? ? ?|top t isA u Hst ? ? ? ? Happ
                     |t isA u Hst ? ? ? Happ Hrej].
    + split; cbn; congruence.
    + split; cbn; congruence.
    + split; rewrite vote_status; congruence.
    + split; [|done]. intros _. right. split; [exact Happ|].
      exists b0. split_and!; [done..|]. cbn. by rewrite vote_id.
    + split; [done|]. intros _. split_and!; [exact Happ|exact Hrej|].
      exists b0. split_and!; [done..|]. cbn. by rewrite vote_id.
Qed.

Lemma throws_iff_not_returns {A : Type} (r : Error + A) : throws r ↔ ¬ returns r.
Proof.
  destruct r as [e|a]; split.
  - intros _. apply not_returns_inl.
  - intros _. by exists e.
  - intros [e ?]. done.
  - intros Hn. destruct Hn. apply returns_inr.
Qed.

Lemma answer_bind_mret_throws {A B : Type} (m : M A) (b : B) (s : Store) :
  throws (answer (m ≫= λ _, mret b) s) ↔ throws (answer m s).
Proof.
  unfold answer, mbind, M_bind, mret, M_ret.
  destruct (m s) as [s1 [e|a]]; cbn.
  - split; intros _; by exists e.
  - split; intros [e ?]; done.
Qed.

(** X21. An accepted vote on a [Pending] block of a reachable store
    throws exactly when it settles the block while the pool holds
    exactly one approved record. The vote and the settlement are stored
    all the same: the block is then [inChain] or [Rejected] with the
    vote in it. *)
Theorem accepted_vote_fails_iff_pool_holds_one_record (s : Store) (id : nat)
    (isApproved : bool) (u : string) (b : Block) :
  reachable s → b ∈ blocks s → _id b = id → status b = Pending →
  (u ∉ approvedBy b) → (u ∉ rejectedBy b) →
  let voted := vote isApproved u b in
  let settles :=
    reachesThreshold (approvedPercentage voted (users s))
    || reachesThreshold (rejectedPercentage voted (users s)) in
  (throws (answer (approveBlock id isApproved u) s)
   ↔ settles = true ∧ length (approvedRecords s) = 1%nat)
  ∧ (throws (answer (approveBlock id isApproved u) s) →
     ∃ x, x ∈ blocks (exec (approveBlock id isApproved u) s)
          ∧ _id x = id ∧ settled x
          ∧ approvedBy x = approvedBy voted ∧ rejectedBy x = rejectedBy voted).
Proof.
  intros Hreach Hin Hid Hst Hna Hnr voted settles.
  pose proof (reachable_well_formed s Hreach) as Hwf.
  destruct (accepted_vote_found s id u b Hwf Hin Hid Hst Hna Hnr) as [Hbefore [i Hfind]].
  destruct (approveBlock_accepted s id isApproved u i b Hwf Hbefore Hfind)
    as (pre & top & Hbs & _ & _ & _ & _ & _ & _ & _ & _ & Hrun).
  cbn zeta in Hrun. fold voted in Hrun.
  unfold answer, exec. rewrite Hrun. clear Hrun. subst settles.
  destruct (reachesThreshold (approvedPercentage voted (users s)));
    [|destruct (reachesThreshold (rejectedPercentage voted (users s)))]; cbn [orb].
  - set (c := committed_block top (toLocaleString (dateReads s)) voted).
    change (((createHibernateBlock ≫= λ _, mret (approve_message isApproved, Some c))
              (store_committed s pre c)).2)
      with (answer (createHibernateBlock ≫= λ _,
                      mret (approve_message isApproved, Some c))
              (store_committed s pre c)).
    change (((createHibernateBlock ≫= λ _, mret (approve_message isApproved, Some c))
              (store_committed s pre c)).1)
      with (exec (createHibernateBlock ≫= λ _,
                    mret (approve_message isApproved, Some c))
              (store_committed s pre c)).
    rewrite answer_bind_mret_throws, exec_bind_mret, throws_iff_not_returns,
      createHibernateBlock_returns_iff.
    split.
    + cbn. split; [intros Hn; split; [done|]; lia|intros [_ ->]; lia].
    + intros _.
      destruct (createHibernateBlock_blocks (store_committed s pre c)) as (tl & -> & _).
      exists c. cbn. split_and!; [|by unfold voted; rewrite vote_id|by left|done..].
      rewrite !elem_of_app, list_elem_of_singleton. auto.
  - set (c := rejected_block (toLocaleString (dateReads s)) voted).
    change (((createHibernateBlock ≫= λ _, mret (approve_message isApproved, Some c))
              (store_rejected s pre c)).2)
      with (answer (createHibernateBlock ≫= λ _,
                      mret (approve_message isApproved, Some c))
              (store_rejected s pre c)).
    change (((createHibernateBlock ≫= λ _, mret (approve_message isApproved, Some c))
              (store_rejected s pre c)).1)
      with (exec (createHibernateBlock ≫= λ _,
                    mret (approve_message isApproved, Some c))
              (store_rejected s pre c)).
    rewrite answer_bind_mret_throws, exec_bind_mret, throws_iff_not_returns,
      createHibernateBlock_returns_iff.
    split.
    + cbn. split; [intros Hn; split; [done|]; lia|intros [_ ->]; lia].
    + intros _.
      destruct (createHibernateBlock_blocks (store_rejected s pre c)) as (tl & -> & _).
      exists c. cbn. split_and!; [|by unfold voted; rewrite vote_id|by right|done..].
      rewrite !elem_of_app, list_elem_of_singleton. auto.
  - cbn. split.
    + split; [by intros [e ?]|by intros [? _]].
    + by intros [e ?].
Qed.

(** X22. With no user of role [Validator] the fractions are divisions
    by zero, and the first vote on a [Pending] block of a reachable store
    settles it: an approval commits the block, a rejection rejects
    it. *)
Theorem first_vote_settles_block_without_validators (s : Store) (id : nat)
    (isApproved : bool) (u : string) (b : Block) :
  reachable s → b ∈ blocks s → _id b = id → status b = Pending →
  approvedBy b = [] → rejectedBy b = [] →
  filter (λ x, role x = "Validator") (users s) = [] →
  ∃ x, x ∈ blocks (exec (approveBlock id isApproved u) s) ∧ _id x = id
       ∧ status x = (if isApproved then inChain else Rejected)
       ∧ approvedBy x = (if isApproved then [u] else [])
       ∧ rejectedBy x = (if isApproved then [] else [u]).
Proof.
  intros Hreach Hin Hid Hst Ha Hr Hnone.
  pose proof (reachable_well_formed s Hreach) as Hwf.
  assert (u ∉ approvedBy b) as Hna by (rewrite Ha; apply not_elem_of_nil).
  assert (u ∉ rejectedBy b) as Hnr by (rewrite Hr; apply not_elem_of_nil).
  destruct (accepted_vote_found s id u b Hwf Hin Hid Hst Hna Hnr) as [Hbefore [i Hfind]].
  destruct (approveBlock_accepted s id isApproved u i b Hwf Hbefore Hfind)
    as (pre & top & Hbs & _ & _ & _ & _ & _ & _ & _ & _ & Hrun).
  cbn zeta in Hrun. unfold exec. rewrite Hrun. clear Hrun.
  assert (approvedBy (vote isApproved u b) = if isApproved then [u] else []) as Hva.
  { destruct isApproved; cbn; [|done]. by rewrite addToSet_new, Ha. }
  assert (rejectedBy (vote isApproved u b) = if isApproved then [] else [u]) as Hvr.
  { destruct isApproved; cbn; [done|]. by rewrite addToSet_new, Hr. }
  unfold approvedPercentage, rejectedPercentage. rewrite Hva, Hvr, Hnone.
  set (voted := vote isApproved u b) in *.
  assert (_id voted = id) as Hvid by (unfold voted; by rewrite vote_id).
  clearbody voted.
  destruct isApproved; cbn [length].
  - change (reachesThreshold (parseFloat 1 / parseFloat 0)) with true. cbv iota.
    set (c := committed_block _ _ _).
    change (∃ x, x ∈ blocks (exec (createHibernateBlock ≫= λ _,
              mret (approve_message true, Some c)) (store_committed s pre c))
            ∧ _id x = id ∧ status x = inChain ∧ approvedBy x = [u]
            ∧ rejectedBy x = []).
    rewrite exec_bind_mret.
    destruct (createHibernateBlock_blocks (store_committed s pre c)) as (tl & -> & _).
    exists c. cbn. split_and!; try done.
    rewrite !elem_of_app, list_elem_of_singleton. auto.
  - change (reachesThreshold (parseFloat 0 / parseFloat 0)) with false.
    change (reachesThreshold (parseFloat 1 / parseFloat 0)) with true. cbv iota.
    set (c := rejected_block _ _).
    change (∃ x, x ∈ blocks (exec (createHibernateBlock ≫= λ _,
              mret (approve_message false, Some c)) (store_rejected s pre c))
            ∧ _id x = id ∧ status x = Rejected ∧ approvedBy x = []
            ∧ rejectedBy x = [u]).
    rewrite exec_bind_mret.
    destruct (createHibernateBlock_blocks (store_rejected s pre c)) as (tl & -> & _).
    exists c. cbn. split_and!; try done.
    rewrite !elem_of_app, list_elem_of_singleton. auto.
Qed.

(** X23. With the requests handled one after the other, the hashes
    and the links of the chain are right, so [validateBlockchain] answers [true] exactly when every
    record with an [amount] in an [inChain] block passes
    [checkTransactionValidity]. *)
Theorem validateBlockchain_accepts_reachable_chain_iff_records_valid (s : Store) :
  reachable s →
  answer validateBlockchain s = inr (true, chain_of (blocks s))
  ↔ ∀ b r, b ∈ blocks s → status b = inChain → r ∈ records b →
           js_in "amount" r = true → checkTransactionValidity r = true.
Proof.
  intros Hreach.
  pose proof (wf_linked _ _ (reachable_well_formed s Hreach)) as Hl.
  change (answer validateBlockchain s)
    with (inr ((validateBlocks (chain_of (blocks s))).2, chain_of (blocks s))
          : Error + (bool * list Block)).
  assert (inr ((validateBlocks (chain_of (blocks s))).2, chain_of (blocks s))
          = (inr (true, chain_of (blocks s)) : Error + (bool * list Block))
          ↔ (validateBlocks (chain_of (blocks s))).2 = true) as ->.
  { split; [by intros [= ->]|by intros ->]. }
  rewrite validateBlocks_spec. split.
  - intros Hok b r Hin Hst Hr.
    assert (b ∈ chain_of (blocks s)) as Hb by by apply elem_of_chain_of.
    apply list_elem_of_lookup in Hb as [i Hi].
    destruct (Hok i b Hi) as (_ & _ & Hrecs).
    rewrite Forall_forall in Hrecs. by apply Hrecs.
  - intros Hvalid i b Hi. destruct (Hl i b Hi) as (_ & Hhash & Hprev).
    split_and!; [done..|].
    apply list_elem_of_lookup_2, elem_of_chain_of in Hi as [Hst Hin].
    apply Forall_forall. intros r Hr Hamount. by apply (Hvalid b r).
Qed.

(** X24. When [validateBlockchain] answers [true] on a reachable
    store, [validateBlock] answers [true] for every [inChain] block. *)
Theorem valid_chain_has_valid_blocks (s : Store) (b : Block) :
  reachable s → answer validateBlockchain s = inr (true, chain_of (blocks s)) →
  b ∈ blocks s → status b = inChain →
  validateBlock (_id b) s = (s, inr true).
Proof.
  intros Hreach Hvalid Hin Hst.
  pose proof (reachable_well_formed s Hreach) as Hwf.
  assert ((validateBlocks (chain_of (blocks s))).2 = true) as Hok.
  { unfold answer in Hvalid. cbn in Hvalid. by injection Hvalid. }
  assert (validateBlockRecords (records b) = true) as Hrecs.
  { apply validateBlockRecords_spec.
    assert (b ∈ chain_of (blocks s)) as Hb by by apply elem_of_chain_of.
    apply list_elem_of_lookup in Hb as [i Hi].
    by destruct (proj1 (validateBlocks_spec _) Hok i b Hi) as (_ & _ & ?). }
  apply list_elem_of_lookup in Hin as [i Hi].
  assert (list_find (λ x, _id x = _id b) (blocks s) = Some (i, b)) as Hfind.
  { apply list_find_Some. split_and!; [done..|].
    intros j x Hj Hlt Hid.
    pose proof (wf_ids _ _ Hwf) as Hnd.
    assert (j = i); [|lia].
    eapply NoDup_lookup; [exact Hnd|..]; by rewrite list_lookup_fmap, ?Hj, ?Hi; cbn;
      rewrite ?Hid. }
  unfold validateBlock. rewrite findOne_bind, Hfind. cbn. by rewrite Hrecs.
Qed.

(** X25. After the activation of a [Hibernating] block with a full
    batch in a reachable store, a second [activateBlock] of the same
    block fails with the [NotFoundError] and changes nothing. *)
Theorem activateBlock_cannot_be_repeated (s : Store) (id : nat) (b : Block) :
  reachable s → b ∈ blocks s → _id b = id → status b = Hibernating →
  length (records b) = MAX_RECORD →
  let s' := exec (activateBlock id) s in
  returns (answer (activateBlock id) s)
  ∧ activateBlock id s'
    = (s', inl (NotFoundError ("No block with id " +:+ pretty id +:+
                               " or block has already been activated"))).
Proof.
  intros Hreach Hin Hid Hst Hlen s'.
  pose proof (reachable_well_formed s Hreach) as Hwf.
  destruct (hibernating_found s id b Hwf Hin Hid Hst) as [i Hfind].
  destruct (activateBlock_accepted s id i b Hwf Hfind Hlen)
    as (pre & Hbs & Hdone & _ & _ & Hrun).
  cbn zeta in Hrun. subst s'. unfold answer, exec. rewrite Hrun. cbn [fst snd].
  split; [apply returns_inr|].
  match goal with |- activateBlock id ?x = _ => set (s1 := x) end.
  destruct (activateBlock_cases id s1)
    as [[_ Hrun1]|[(j & x & Hfind1 & _)|(j & x & Hfind1 & _)]]; [done|exfalso..];
    apply list_find_Some in Hfind1 as (Hj & [_ Hx] & _);
    cbn in Hj; apply lookup_app_Some in Hj as [Hj|[_ Hj]];
    try (eapply Forall_lookup_1 in Hdone; [|exact Hj];
         destruct Hdone; congruence);
    apply list_lookup_singleton_Some in Hj as [_ <-]; done.
Qed.

Lemma createHibernateBlock_run_empty bs us ts sc n d :
  createHibernateBlock (mkStore bs us ts sc [] n d)
  = (mkStore (bs ++ [hibernate_block n (toLocaleString d) []]) us ts sc [] (S n) (S d),
     inr (hibernate_block n (toLocaleString d) [])).
Proof. done. Qed.

Lemma createHibernateBlock_run_two bs us ts sc r0 r1 rest n d :
  createHibernateBlock (mkStore bs us ts sc (r0 :: r1 :: rest) n d)
  = (mkStore (bs ++ [hibernate_block n (toLocaleString d) [ar_records r0; ar_records r1]])
       us ts sc rest (S n) (S d),
     inr (hibernate_block n (toLocaleString d) [ar_records r0; ar_records r1])).
Proof.
  unfold createHibernateBlock, MAX_RECORD. run_handler.
  case_decide; [|done]. cbn. case_decide; [|done]. done.
Qed.

(** X29. After the first [getBlockchain] on a store without blocks:
    with an empty pool the new staging block cannot be activated
    ([BadRequestError] for insufficient records, nothing changes); with
    two or more entries in the pool it can be activated at once and holds
    the records of the first two entries. *)
Theorem first_staging_block_activation (s : Store) :
  blocks s = [] →
  let s' := exec getBlockchain s in
  (approvedRecords s = [] →
     ∃ h, list.last (blocks s') = Some h ∧ status h = Hibernating
          ∧ activateBlock (_id h) s'
            = (s', inl (BadRequestError "Insufficient records in this block")))
  ∧ (∀ r0 r1 rest, approvedRecords s = r0 :: r1 :: rest →
       ∃ h b, list.last (blocks s') = Some h ∧ status h = Hibernating
              ∧ answer (activateBlock (_id h)) s' = inr (Some b)
              ∧ _id b = _id h ∧ status b = Pending
              ∧ records b = [ar_records r0; ar_records r1]).
Proof.
  destruct s as [bs us ts sc pool n d]. cbn [blocks nextObjectId approvedRecords].
  intros ->. cbv zeta.
  set (g := genesis_block n (toLocaleString d)).
  assert (∀ h : Block, _id h = S n → status h = Hibernating →
            list_find (λ b, _id b = S n ∧ status b = Hibernating) ([g] ++ [h])
            = Some (1%nat, h)) as Hfind.
  { intros h Hid Hst. rewrite list_find_snoc, decide_True; [done..|].
    apply Forall_singleton. intros [? _]. cbn in *. lia. }
  unfold exec.
  destruct (getBlockchain_cases (mkStore [] us ts sc pool n d)) as [[Hne _]|[_ ->]];
    [done|].
  erewrite run_bind; [|apply createGenesisBlock_run]. fold g.
  split.
  - intros ->. erewrite run_bind; [|apply createHibernateBlock_run_empty].
    cbn [fst mret M_ret].
    exists (hibernate_block (S n) (toLocaleString (S d)) []).
    split_and!; [done..|].
    unfold activateBlock. rewrite findOne_bind. cbn [blocks _id hibernate_block].
    rewrite Hfind by done. done.
  - intros r0 r1 rest ->. erewrite run_bind; [|apply createHibernateBlock_run_two].
    cbn [fst mret M_ret].
    set (h := hibernate_block (S n) (toLocaleString (S d))
                [ar_records r0; ar_records r1]).
    exists h, (set_timestamp (toLocaleString (S (S d))) (set_status Pending h)).
    split_and!; [done..| |done|done|done].
    unfold answer, activateBlock. rewrite findOne_bind. cbn [blocks _id h hibernate_block].
    rewrite Hfind by done. cbn [fmap option_fmap option_map snd].
    rewrite bool_decide_eq_true_2 by done. cbn [negb].
    erewrite run_bind; [|apply newDate_run].
    erewrite run_bind;
      [|apply (findOneAndUpdate_last (λ b, _id b = S n)); [|done];
        apply Forall_singleton; cbn; lia].
    done.
Qed.

End TransitionProperties.

(** ** The previous [createHibernateBlock] *)

Section PreviousProperties.
Context `{Platform} (toObject : RecordDoc → JsObject).

Lemma previous_createHibernateBlock_run (s : Store) :
  let waiting := filter (λ d, doc_status d = "Approved") (transactions s) in
  let batch := marked_inBlock <$> take MAX_RECORD waiting in
  let h := hibernate_block (nextObjectId s) (toLocaleString (dateReads s)) [] in
  Previous.createHibernateBlock toObject s
  = BlockModel_findOneAndUpdate (λ b, status b = Hibernating)
      (set_records (toObject <$> batch))
      (mkStore (blocks s ++ [h]) (users s)
         (foldl (λ acc d, Previous.save d acc) (transactions s) batch)
         (supplyChain s) (approvedRecords s)
         (S (nextObjectId s)) (S (dateReads s))).
Proof.
  destruct s as [bs us ts sc pool n d]. cbn zeta.
  cbn [blocks users transactions supplyChain approvedRecords nextObjectId dateReads].
  unfold Previous.createHibernateBlock.
  destruct (filter (λ d, doc_status d = "Approved") ts) as [|d0 [|d1 [|d2 rest]]] eqn:Hw.
  all: run_step ltac:(apply newDate_run).
  all: run_step ltac:(reflexivity).
  all: run_step ltac:(unfold Previous.TransactionModel_find_Approved; cbn; rewrite Hw; reflexivity).
  all: case_decide as Hlen; cbn in Hlen; unfold MAX_RECORD in Hlen; try lia.
  all: run_step ltac:(run_handler; reflexivity).
  all: rewrite run_bind_ret; reflexivity.
Qed.

(** X30. The previous [createHibernateBlock] always returns: it
    answers a [Hibernating] block whose batch is made of the first
    [MAX_RECORD] approved transactions, or of all of them when there are
    fewer, each saved with status [inBlock]; the two branches of its
    conditional do the same. When no block was [Hibernating] before, the
    block it answers is the new one, the last of the collection. *)
Theorem previous_createHibernateBlock_takes_up_to_two_approved (s : Store) :
  let waiting := filter (λ d, doc_status d = "Approved") (transactions s) in
  let batch := marked_inBlock <$> take MAX_RECORD waiting in
  let s' := exec (Previous.createHibernateBlock toObject) s in
  (∃ b, answer (Previous.createHibernateBlock toObject) s = inr (Some b)
        ∧ status b = Hibernating ∧ records b = toObject <$> batch)
  ∧ length batch = (MAX_RECORD `min` length waiting)%nat
  ∧ transactions s' = foldl (λ acc d, Previous.save d acc) (transactions s) batch
  ∧ (Forall (λ x, status x ≠ Hibernating) (blocks s) →
     blocks s'
     = blocks s ++ [hibernate_block (nextObjectId s) (toLocaleString (dateReads s))
                      (toObject <$> batch)]).
Proof.
  intros waiting batch s'. subst s'. unfold answer, exec.
  rewrite previous_createHibernateBlock_run. fold waiting. fold batch.
  set (h := hibernate_block (nextObjectId s) (toLocaleString (dateReads s)) []).
  unfold BlockModel_findOneAndUpdate. cbn [blocks].
  split_and!.
  - destruct (list_find_elem_of (λ b, status b = Hibernating) (blocks s ++ [h]) h)
      as [[i b] Hfind]; [set_solver|done|].
    rewrite Hfind. cbn. eexists. split; [done|].
    apply list_find_Some in Hfind as (_ & Hst & _). done.
  - unfold batch. by rewrite length_fmap, length_take.
  - by destruct (list_find _ (blocks s ++ [h])) as [[i b]|].
  - intros Hnone. rewrite list_find_snoc, decide_True by done. cbn.
    by rewrite insert_snoc.
Qed.

End PreviousProperties.

(** * The handlers with other requests in between *)

Section Interleavings.
Context `{Platform}.

(** ** A handler that nothing interrupts *)

























(** ** Runs of the server *)



Lemma interleaved_play (es : list Event) (srv : Server) :
  interleaved srv → interleaved (play es srv).
Proof.
  revert srv. induction es as [|e es IH]; intros srv Hsrv; cbn; [done|].
  apply IH. by constructor.
Qed.


(** ** Requests that overlap *)

Lemma list_find_insert_same {A : Type} (P : A → Prop) `{!∀ x, Decision (P x)}
    (l : list A) (i : nat) (x y : A) :
  list_find P l = Some (i, x) → P y → list_find P (<[i := y]> l) = Some (i, y).
Proof.
  intros Hfind Hy. apply list_find_Some in Hfind as (Hi & Hx & Hbefore).
  apply list_find_Some. split_and!.
  - apply list_lookup_insert_eq. by eapply lookup_lt_Some.
  - done.
  - intros j z Hj Hlt. rewrite list_lookup_insert_ne in Hj by lia. by eapply Hbefore.
Qed.

(** X33. Two [getBlockchain] on a collection without [inChain] block,
    the second making its query before the first has created anything:
    each of them finds the chain empty and creates a genesis block, so
    the collection has two more blocks that are [inChain] with [blockId]
    0, with the identifiers and timestamps of their creation. *)
Theorem overlapping_getBlockchain_create_two_genesis_blocks (s : Store) :
  filter (λ b, status b = inChain) (blocks s) = [] →
  blocks (store (play [Arrive GetBlockchain; Arrive GetBlockchain;
                       Resume 0; Resume 1; Resume 0; Resume 0; Resume 1; Resume 1]
                      (mkServer s [])))
  = blocks s ++ [genesis_block (nextObjectId s) (toLocaleString (dateReads s));
                 genesis_block (S (nextObjectId s)) (toLocaleString (S (dateReads s)))].
Proof.
  intros Hchain. unfold play. cbn. unfold BlockModel_find. rewrite Hchain. cbn.
  rewrite !decide_True by done. cbn.
  by rewrite <- app_assoc.
Qed.

(** X34. The approval and the rejection of one user for the same
    [Pending] block, on which the user has not voted, both asking for
    earlier votes before either writes: both are written, and the block
    has the user in [approvedBy] and in [rejectedBy]. The write is
    conditional on the status of the block only. *)
Theorem overlapping_votes_reach_both_lists (s : Store) (blockID : nat)
    (u : string) (i : nat) (b : Block) :
  list_find (λ x, _id x = blockID ∧ status x = Pending) (blocks s) = Some (i, b) →
  list_find (λ x, _id x = blockID ∧ (u ∈ approvedBy x ∨ u ∈ rejectedBy x))
            (blocks s) = None →
  blocks (store (play [Arrive (ApproveBlock blockID true u);
                       Arrive (ApproveBlock blockID false u);
                       Resume 0; Resume 1; Resume 0; Resume 1] (mkServer s [])))
  = <[i := addToSet_rejectedBy u (addToSet_approvedBy u b)]> (blocks s)
  ∧ u ∈ approvedBy (addToSet_rejectedBy u (addToSet_approvedBy u b))
  ∧ u ∈ rejectedBy (addToSet_rejectedBy u (addToSet_approvedBy u b)).
Proof.
  intros Hpending Hfresh. split_and!.
  - unfold play. cbn. unfold BlockModel_findOne. rewrite Hfresh. cbn.
    unfold BlockModel_findOneAndUpdate. rewrite Hpending. cbn.
    erewrite list_find_insert_same; [|exact Hpending|].
    + cbn. by rewrite list_insert_insert_eq.
    + by apply list_find_Some in Hpending as (_ & ? & _).
  - cbn. unfold addToSet. case_decide; set_solver.
  - cbn. unfold addToSet. case_decide; set_solver.
Qed.
End Interleavings.

(** * The scenarios of the spec, run *)

(** Decides a closed decidable proposition by evaluation. *)
Ltac by_evaluation := apply (bool_decide_unpack _); vm_compute; exact I.

(** Evaluates the condition of the conditional that hypothesis [H] is. *)
Ltac evaluate_condition H :=
  lazymatch type of H with
  | (if ?c then _ else _) =>
      let v := eval vm_compute in c in
      let Hc := fresh in
      assert (c = v) as Hc by (vm_compute; reflexivity);
      rewrite Hc in H; clear Hc
  end.

Module Checks.
Import Scenario.
#[local] Existing Instance demo.

(** The stores of the scenario are reachable. *)
Lemma reachable_s1 : reachable s1.
Proof.
  assert (s1 = handle GetBlockchain s0) as -> by (by vm_compute).
  apply (reachable_step s0); [by apply reachable_init|apply step_request].
Qed.

Lemma reachable_s2 : reachable s2.
Proof.
  assert (s2 = handle (ActivateBlock 1) s1) as -> by (by vm_compute).
  apply (reachable_step s1); [apply reachable_s1|apply step_request].
Qed.

Lemma reachable_s3 : reachable s3.
Proof.
  assert (s3 = handle (ApproveBlock 1 true "ann") s2) as -> by (by vm_compute).
  apply (reachable_step s2); [apply reachable_s2|apply step_request].
Qed.

Lemma reachable_s4 : reachable s4.
Proof.
  assert (s4 = handle (ApproveBlock 1 true "bob") s3) as -> by (by vm_compute).
  apply (reachable_step s3); [apply reachable_s3|apply step_request].
Qed.

(** The comparison with the threshold on some fractions; a division by
    zero gives [NaN] or infinity. *)
Example fractions :
  reachesThreshold (parseFloat 2 / parseFloat 3) = true
  ∧ reachesThreshold (parseFloat 1 / parseFloat 3) = false
  ∧ reachesThreshold (parseFloat 33 / parseFloat 50) = true
  ∧ reachesThreshold (parseFloat 13 / parseFloat 20) = false
  ∧ reachesThreshold (parseFloat 0 / parseFloat 0) = false
  ∧ reachesThreshold (parseFloat 1 / parseFloat 0) = true.
Proof. by vm_compute. Qed.

(** For up to 64 validators the comparison of doubles agrees with the
    comparison of the exact fraction with 33/50. *)
Example reachesThreshold_exact_up_to_64 :
  forallb (λ n, forallb (λ k,
      bool_decide (reachesThreshold (parseFloat k / parseFloat n)
                   = bool_decide (33 * Z.of_nat n ≤ 50 * Z.of_nat k)))
    (seq 0 (S n))) (seq 1 64) = true.
Proof. by vm_compute. Qed.

(** Three validators, two approvals: the block is committed, the
    [inBlock] transaction is [inChain], a new staging block exists and the
    chain validates. *)
Example approve_scenario :
  (λ b, (_id b, blockId b, status b, length (records b))) <$> blocks s4
  = [(0%nat, 0, inChain, 0%nat); (1%nat, 1, inChain, 2%nat);
     (2%nat, -1, Hibernating, 0%nat)]
  ∧ doc_status <$> transactions s4 = ["inChain"; "Created"]
  ∧ answer validateBlockchain s4 = inr (true, chain_of (blocks s4)).
Proof. by vm_compute. Qed.

(** Three validators, two rejections: the block is [Rejected], nothing
    is added to the chain and a new staging block exists. *)
Example reject_scenario :
  (λ b, (_id b, status b, rejectedBy b)) <$> blocks r4
  = [(0, inChain, []); (1, Rejected, ["ann"; "bob"]); (2, Hibernating, [])]%nat
  ∧ doc_status <$> transactions r4 = ["Rejected"; "Created"]
  ∧ length (chain_of (blocks r4)) = 1%nat.
Proof. by vm_compute. Qed.

(** A second vote of [ann], now a rejection, is refused. *)
Example second_vote_refused :
  answer (approveBlock 1 false "ann") s3
  = inl (BadRequestError "Already rejected or approved this block")
  ∧ exec (approveBlock 1 false "ann") s3 = s3.
Proof. by vm_compute. Qed.

(** The second approval of three validators commits block 1. *)
Lemma approve_witness :
  reachable s3 ∧ b3 ∈ blocks s3 ∧ status b3 = Pending
  ∧ ("bob" ∉ approvedBy b3) ∧ ("bob" ∉ rejectedBy b3)
  ∧ ∃ c, c ∈ blocks (exec (approveBlock 1 true "bob") s3)
         ∧ _id c = 1%nat ∧ status c = inChain.
Proof.
  assert (b3 ∈ blocks s3) as Hin by by_evaluation.
  assert ("bob" ∉ approvedBy b3) as Hna by by_evaluation.
  assert ("bob" ∉ rejectedBy b3) as Hnr by by_evaluation.
  split_and!; [apply reachable_s3|done..|].
  pose proof (approveBlock_evaluates_consensus s3 1 true "bob" b3
                reachable_s3 Hin eq_refl eq_refl Hna Hnr) as Hthm.
  cbv zeta in Hthm. destruct Hthm as (done & Hbs & Hcase).
  evaluate_condition Hcase.
  destruct Hcase as [_ (c & tl & Hblocks & Hid & Hst & _)].
  exists c. split; [|done]. rewrite Hblocks.
  apply elem_of_app. right. apply list_elem_of_here.
Defined.

(** The staging block of [s1] holds two records and is activated. *)
Lemma activate_witness :
  reachable s1 ∧ b1 ∈ blocks s1 ∧ status b1 = Hibernating
  ∧ length (records b1) = MAX_RECORD
  ∧ ∃ done, blocks s1 = done ++ [b1]
      ∧ answer (activateBlock 1) s1
        = inr (Some (set_timestamp (toLocaleString (dateReads s1))
                       (set_status Pending b1)))
      ∧ blocks (exec (activateBlock 1) s1)
        = done ++ [set_timestamp (toLocaleString (dateReads s1))
                     (set_status Pending b1)]
      ∧ status (set_timestamp (toLocaleString (dateReads s1))
                  (set_status Pending b1)) = Pending.
Proof.
  assert (b1 ∈ blocks s1) as Hin by by_evaluation.
  split_and!; [apply reachable_s1|done..|].
  pose proof (activateBlock_needs_full_batch s1 1 b1
                reachable_s1 Hin eq_refl eq_refl) as (_ & Hfull & _ & _).
  exact (Hfull eq_refl).
Defined.

(** The approval that commits block 1 moves the [inBlock] documents of
    both stores to [inChain]. *)
Lemma propagation_witness :
  reachesThreshold (approvedPercentage (vote true "bob" b3) (users s3)) = true
  ∧ transactions (exec (approveBlock 1 true "bob") s3)
    = (λ d, if decide (doc_status d = "inBlock")
            then mkRecordDoc (doc_id d) "inChain" (doc_fields d) else d)
        <$> transactions s3
  ∧ supplyChain (exec (approveBlock 1 true "bob") s3)
    = (λ d, if decide (doc_status d = "inBlock")
            then mkRecordDoc (doc_id d) "inChain" (doc_fields d) else d)
        <$> supplyChain s3.
Proof.
  assert (b3 ∈ blocks s3) as Hin by by_evaluation.
  assert ("bob" ∉ approvedBy b3) as Hna by by_evaluation.
  assert ("bob" ∉ rejectedBy b3) as Hnr by by_evaluation.
  assert (reachesThreshold (approvedPercentage (vote true "bob" b3) (users s3))
          = true) as Hthr by (vm_compute; reflexivity).
  split; [done|].
  pose proof (consensus_updates_every_inBlock_record s3 1 true "bob" b3
                reachable_s3 Hin eq_refl eq_refl Hna Hnr) as Hthm.
  cbv beta zeta in Hthm. destruct Hthm as (Happroved & _ & _).
  exact (Happroved Hthr).
Defined.

(** The serialization of the scenario separates record lists. *)
Lemma demo_JSON_stringify_inj : Inj (=) (=) (@JSON_stringify demo).
Proof.
  intros rs1 rs2 Heq. cbn in Heq.
  apply (inj pretty) in Heq. by apply (inj encode) in Heq.
Qed.

(** The chain of [s4] validates; with the timestamp of block 1 changed
    it does not: the hash of the scenario has no collisions. *)
Lemma tampering_witness :
  (validateBlocks (chain_of (blocks s4))).2 = true
  ∧ chain_of (blocks s4) !! 1%nat = Some committed
  ∧ tampered committed forged
  ∧ (validateBlocks (<[1%nat := forged]> (chain_of (blocks s4)))).2 = false.
Proof.
  assert ((validateBlocks (chain_of (blocks s4))).2 = true) as Hvalid
    by (vm_compute; reflexivity).
  assert (chain_of (blocks s4) !! 1%nat = Some committed) as Hlookup
    by (vm_compute; reflexivity).
  assert (tampered committed forged) as Htampered.
  { apply (tamper_timestamp committed "day 9"). discriminate. }
  split_and!; [done..|].
  destruct (validateBlocks_detects_tampering_or_collision
              (chain_of (blocks s4)) 1 committed forged Hvalid Hlookup Htampered)
    as [Hfalse|[[Hne Hsame]|[Hne _]]]; [done| |done].
  destruct Hne. exact (inj (String.app "sha256:") _ _ Hsame).
Defined.


(** Block 1 is committed on top of the genesis block. *)
Lemma chain_link_witness :
  (∃ top c, top ∈ chain_of (blocks s3)
     ∧ c ∈ blocks (exec (approveBlock 1 true "bob") s3)
     ∧ status c = inChain ∧ blockId c = blockId top + 1 ∧ prevHash c = hash top)
  ∧ (∃ p, p ∈ blocks s4 ∧ status p = inChain
       ∧ blockId p = blockId committed - 1 ∧ prevHash committed = hash p).
Proof.
  assert (b3 ∈ blocks s3) as Hin by by_evaluation.
  assert ("bob" ∉ approvedBy b3) as Hna by by_evaluation.
  assert ("bob" ∉ rejectedBy b3) as Hnr by by_evaluation.
  assert (reachesThreshold (approvedPercentage (vote true "bob" b3) (users s3))
          = true) as Hthr by (vm_compute; reflexivity).
  assert (committed ∈ blocks s4) as Hc by by_evaluation.
  assert (blockId committed ≠ GENESIS_BLOCK_ID) as Hne by by_evaluation.
  split.
  - destruct (proj1 committed_block_links_to_chain s3 1%nat true "bob" b3
                reachable_s3 Hin eq_refl eq_refl Hna Hnr Hthr)
      as (top & c & Htop & _ & Hcin & _ & Hst & Hbid & Hprev & _).
    by exists top, c.
  - exact (proj2 committed_block_links_to_chain s4 committed
             reachable_s4 Hc eq_refl Hne).
Defined.

(** [ann] cannot vote again on the block of [s3], and the vote of [bob]
    keeps hers. *)
Lemma second_vote_witness :
  b3 ∈ blocks s3 ∧ "ann" ∈ approvedBy b3
  ∧ approveBlock 1 false "ann" s3
    = (s3, inl (BadRequestError "Already rejected or approved this block"))
  ∧ NoDup (approvedBy committed ++ rejectedBy committed)
  ∧ ∃ b', b' ∈ blocks (handle (ApproveBlock 1 true "bob") s3) ∧ _id b' = _id b3
          ∧ approvedBy b3 `prefix_of` approvedBy b'
          ∧ rejectedBy b3 `prefix_of` rejectedBy b'.
Proof.
  assert (b3 ∈ blocks s3) as Hin by by_evaluation.
  assert ("ann" ∈ approvedBy b3) as Hann by by_evaluation.
  assert (committed ∈ blocks s4) as Hc by by_evaluation.
  destruct approveBlock_refuses_second_vote as (Hdup & Hnodup & Hkeep).
  split_and!; [done..| | |].
  - exact (Hdup s3 1%nat false "ann" b3 Hin eq_refl (or_introl Hann)).
  - exact (Hnodup s4 committed reachable_s4 Hc).
  - exact (Hkeep s3 _ b3 reachable_s3 (step_request (ApproveBlock 1 true "bob") s3) Hin).
Defined.

(** With one approved record waiting no staging block is created. *)
Lemma pool_witness :
  throws (answer createHibernateBlock s_one)
  ∧ blocks (exec createHibernateBlock s_one) = blocks s_one
  ∧ approvedRecords (exec createHibernateBlock s_one) = [].
Proof.
  exact (proj2 (proj2 (createHibernateBlock_reads_two_entries s_one))
           (mkApprovedRecord 0 [("amount", JsNum 5)]) eq_refl).
Defined.
End Checks.

(** * More scenarios, run *)

Module MoreChecks.
Import Scenario Checks.
#[local] Existing Instance demo.

(** The store without validators is reachable. *)
Lemma reachable_v2 : reachable v2.
Proof.
  assert (v2 = handle (ActivateBlock 1) (handle GetBlockchain v0)) as ->
    by (by vm_compute).
  do 2 (eapply reachable_step; [|apply step_request]). by apply reachable_init.
Qed.

(** Block 1 of [s4] is committed: a vote of [cat] on it is refused. *)
Lemma refused_vote_witness :
  Forall (λ b, _id b = 1%nat → status b ≠ Pending) (blocks s4)
  ∧ exec (approveBlock 1 true "cat") s4 = s4.
Proof.
  assert (Forall (λ b, _id b = 1%nat → status b ≠ Pending) (blocks s4)) as Hall
    by by_evaluation.
  split; [done|].
  exact (proj1 (approveBlock_refuses_block_not_pending s4 1 true "cat" Hall)).
Defined.

(** The two pool entries of [s0] go into the staging block. *)
Lemma pool_entries_witness :
  answer createHibernateBlock s0 = inr h0
  ∧ ar_records <$> approvedRecords s0
    = records h0 ++ (ar_records <$> approvedRecords (exec createHibernateBlock s0)).
Proof.
  assert (answer createHibernateBlock s0 = inr h0) as Hans by (vm_compute; reflexivity).
  split; [done|].
  exact (proj1 (createHibernateBlock_moves_pool_entries_into_block s0 h0 Hans)).
Defined.

(** Two votes of three validators. *)
Lemma two_of_three_witness :
  reachesThreshold (parseFloat 2 / parseFloat 3)
  = bool_decide (33 * Z.of_nat 3 ≤ 50 * Z.of_nat 2).
Proof.
  apply (reachesThreshold_exact_up_to_256_validators 2 3); lia.
Defined.

(** The vote that commits block 1 leaves the genesis block alone. *)
Lemma settled_witness :
  blocks s3 !! 0%nat = Some genesis ∧ settled genesis
  ∧ blocks (handle (ApproveBlock 1 true "bob") s3) !! 0%nat = Some genesis.
Proof.
  assert (blocks s3 !! 0%nat = Some genesis) as Hi by (vm_compute; reflexivity).
  assert (settled genesis) as Hs by (by left).
  split_and!; [done..|].
  exact (settled_blocks_never_change s3 _ 0 genesis reachable_s3
           (step_request (ApproveBlock 1 true "bob") s3) Hi Hs).
Defined.

(** The vote that commits block 1 extends the chain. *)
Lemma chain_grows_witness :
  chain_of (blocks s3) `prefix_of` chain_of (blocks (handle (ApproveBlock 1 true "bob") s3)).
Proof.
  exact (proj1 (chain_only_grows s3 _ reachable_s3
                  (step_request (ApproveBlock 1 true "bob") s3))).
Defined.

(** No block of [s4] is [Approved]. *)
Lemma open_block_witness :
  reachable s4 ∧ Forall (λ b, status b ≠ Approved) (blocks s4).
Proof.
  split; [apply reachable_s4|]. apply Forall_forall.
  exact (proj1 (proj2 (at_most_one_open_block s4 reachable_s4))).
Defined.

(** The first block of [s4] is the genesis block. *)
Lemma genesis_witness :
  blocks s4 ≠ []
  ∧ ∃ g, blocks s4 !! 0%nat = Some g ∧ status g = inChain
         ∧ blockId g = GENESIS_BLOCK_ID ∧ prevHash g = "" ∧ records g = [].
Proof.
  assert (blocks s4 ≠ []) as Hne by done.
  split; [done|].
  destruct (genesis_block_stays_first s4 reachable_s4 Hne)
    as (g & Hg & Hst & Hid & Hprev & Hrecs & _).
  by exists g.
Defined.

(** The staging block of [s1] has no votes. *)
Lemma no_votes_witness :
  b1 ∈ blocks s1 ∧ status b1 = Hibernating
  ∧ approvedBy b1 = [] ∧ rejectedBy b1 = [].
Proof.
  assert (b1 ∈ blocks s1) as Hin by by_evaluation.
  split_and!; [done..| |];
    apply (hibernating_blocks_have_no_votes s1 b1 reachable_s1 Hin eq_refl).
Defined.

(** The vote of [bob] on the block of [s3]. *)
Lemma vote_returns_witness :
  b3 ∈ blocks s3 ∧ status b3 = Pending
  ∧ (throws (answer (approveBlock 1 true "bob") s3)
     ↔ reachesThreshold (approvedPercentage (vote true "bob" b3) (users s3))
       || reachesThreshold (rejectedPercentage (vote true "bob" b3) (users s3)) = true
       ∧ length (approvedRecords s3) = 1%nat).
Proof.
  assert (b3 ∈ blocks s3) as Hin by by_evaluation.
  assert ("bob" ∉ approvedBy b3) as Hna by by_evaluation.
  assert ("bob" ∉ rejectedBy b3) as Hnr by by_evaluation.
  split_and!; [done..|].
  exact (proj1 (accepted_vote_fails_iff_pool_holds_one_record s3 1 true "bob" b3
                  reachable_s3 Hin eq_refl eq_refl Hna Hnr)).
Defined.

(** Without validators one approval commits the block. *)
Lemma no_validators_witness :
  w2 ∈ blocks v2 ∧ status w2 = Pending
  ∧ filter (λ x, role x = "Validator") (users v2) = []
  ∧ ∃ x, x ∈ blocks (exec (approveBlock 1 true "dan") v2) ∧ _id x = 1%nat
         ∧ status x = inChain.
Proof.
  assert (w2 ∈ blocks v2) as Hin by by_evaluation.
  assert (filter (λ x, role x = "Validator") (users v2) = []) as Hnone
    by (vm_compute; reflexivity).
  split_and!; [done..|].
  destruct (first_vote_settles_block_without_validators v2 1 true "dan" w2
              reachable_v2 Hin eq_refl eq_refl eq_refl eq_refl Hnone)
    as (x & Hx & Hid & Hst & _).
  by exists x.
Defined.

(** The chain of [s4]. *)
Lemma valid_chain_witness :
  reachable s4
  ∧ (answer validateBlockchain s4 = inr (true, chain_of (blocks s4))
     ↔ ∀ b r, b ∈ blocks s4 → status b = inChain → r ∈ records b →
              js_in "amount" r = true → checkTransactionValidity r = true).
Proof.
  split; [apply reachable_s4|].
  exact (validateBlockchain_accepts_reachable_chain_iff_records_valid s4 reachable_s4).
Defined.

(** The staging block of [s1] is activated once only. *)
Lemma repeated_activation_witness :
  b1 ∈ blocks s1 ∧ status b1 = Hibernating ∧ length (records b1) = MAX_RECORD
  ∧ activateBlock 1 (exec (activateBlock 1) s1)
    = (exec (activateBlock 1) s1,
       inl (NotFoundError ("No block with id " +:+ pretty 1%nat +:+
                           " or block has already been activated"))).
Proof.
  assert (b1 ∈ blocks s1) as Hin by by_evaluation.
  split_and!; [done..|].
  exact (proj2 (activateBlock_cannot_be_repeated s1 1 b1 reachable_s1 Hin
                  eq_refl eq_refl eq_refl)).
Defined.

(** The staging block of the bootstrap of [s0] is activated at once. *)
Lemma bootstrap_activation_witness :
  blocks s0 = []
  ∧ ∃ h b, list.last (blocks (exec getBlockchain s0)) = Some h
           ∧ status h = Hibernating
           ∧ answer (activateBlock (_id h)) (exec getBlockchain s0) = inr (Some b)
           ∧ _id b = _id h ∧ status b = Pending
           ∧ records b = [[("amount", JsNum 5)]; [("item", JsStr "x")]].
Proof.
  split; [done|].
  exact (proj2 (first_staging_block_activation s0 eq_refl)
           (mkApprovedRecord 0 [("amount", JsNum 5)])
           (mkApprovedRecord 1 [("item", JsStr "x")]) [] eq_refl).
Defined.

(** The block committed by the vote of [bob] has reached the threshold. *)
Lemma threshold_witness :
  committed ∈ blocks (handle (ApproveBlock 1 true "bob") s3)
  ∧ (committed ∉ blocks s3) ∧ status committed = inChain
  ∧ ((blocks s3 = [] ∧ blockId committed = GENESIS_BLOCK_ID)
     ∨ (reachesThreshold
          (parseFloat (length (approvedBy committed))
           / parseFloat (length (filter (λ u, role u = "Validator") (users s3))))
        = true
        ∧ ∃ b, b ∈ blocks s3 ∧ status b = Pending ∧ _id b = _id committed)).
Proof.
  assert (committed ∈ blocks (handle (ApproveBlock 1 true "bob") s3)) as Hin
    by by_evaluation.
  assert (committed ∉ blocks s3) as Hnew by by_evaluation.
  split_and!; [done..|].
  exact (proj1 (blocks_settle_only_at_threshold s3 _ committed reachable_s3
                  (step_request (ApproveBlock 1 true "bob") s3) Hin Hnew) eq_refl).
Defined.

(** The committed block of the valid chain of [s4] is valid. *)
Lemma valid_block_witness :
  answer validateBlockchain s4 = inr (true, chain_of (blocks s4))
  ∧ committed ∈ blocks s4
  ∧ validateBlock (_id committed) s4 = (s4, inr true).
Proof.
  assert (answer validateBlockchain s4 = inr (true, chain_of (blocks s4))) as Hvalid
    by (vm_compute; reflexivity).
  assert (committed ∈ blocks s4) as Hin by by_evaluation.
  split_and!; [done..|].
  exact (valid_chain_has_valid_blocks s4 committed reachable_s4 Hvalid Hin eq_refl).
Defined.

End MoreChecks.

(** * Overlapping requests, run *)

Module Races.
Import Scenario.
#[local] Existing Instance demo.

Lemma interleaved_vote_stalled : interleaved vote_stalled.
Proof. apply interleaved_play. by constructor. Qed.

Lemma interleaved_after_stalled_vote : interleaved after_stalled_vote.
Proof. apply interleaved_play, interleaved_vote_stalled. Qed.

Lemma interleaved_after_double_vote : interleaved after_double_vote.
Proof. apply interleaved_play. by constructor. Qed.

(** C2. The run [vote_stalls]: while the vote of [bob] on block 1 waits
    between its write and the query of [blockConsensus], the chain is the
    genesis block, block 1 with [blockId] 1 and block 2 with [blockId] 2
    and the hash of block 1 as [prevHash]. When the vote goes on,
    [blockConsensus] writes [Approved] over the [inChain] of block 1 and
    [appendToBlockchain] commits block 1 again, now with [blockId] 3, the
    hash of block 2 as [prevHash] and a new timestamp and hash. Every
    request has then been answered, and block 2 is an [inChain] block with
    [blockId] 2 whose [prevHash] is the hash of no [inChain] block: none
    has [blockId] 1. *)
Theorem stalled_vote_commits_block_again :
  interleaved vote_stalled ∧ interleaved after_stalled_vote
  ∧ (λ b, (_id b, status b, blockId b)) <$> blocks (store vote_stalled)
    = [(0%nat, inChain, 0); (1%nat, inChain, 1); (2%nat, inChain, 2);
       (3%nat, Hibernating, -1)]
  ∧ blocks (store vote_stalled) !! 1%nat = Some first_commit
  ∧ blocks (store vote_stalled) !! 2%nat = Some orphan
  ∧ prevHash orphan = hash first_commit
  ∧ (λ b, (_id b, status b, blockId b)) <$> blocks (store after_stalled_vote)
    = [(0%nat, inChain, 0); (1%nat, inChain, 3); (2%nat, inChain, 2);
       (3%nat, Hibernating, -1); (4%nat, Hibernating, -1)]
  ∧ blocks (store after_stalled_vote) !! 1%nat = Some second_commit
  ∧ blocks (store after_stalled_vote) !! 2%nat = Some orphan
  ∧ prevHash second_commit = hash orphan
  ∧ hash second_commit ≠ hash first_commit
  ∧ timestamp second_commit ≠ timestamp first_commit
  ∧ forallb is_settled (inFlight after_stalled_vote) = true
  ∧ status orphan = inChain ∧ blockId orphan = 2
  ∧ ¬ ∃ p, p ∈ blocks (store after_stalled_vote) ∧ status p = inChain
           ∧ blockId p = blockId orphan - 1 ∧ prevHash orphan = hash p.
Proof.
  assert ((λ b, (_id b, status b, blockId b)) <$> blocks (store after_stalled_vote)
          = [(0%nat, inChain, 0); (1%nat, inChain, 3); (2%nat, inChain, 2);
             (3%nat, Hibernating, -1); (4%nat, Hibernating, -1)]) as Hall
    by by vm_compute.
  split_and!;
    [apply interleaved_vote_stalled|apply interleaved_after_stalled_vote
    |by vm_compute..|].
  intros (p & Hp & Hstp & Hidp & _). change (blockId orphan) with 2 in Hidp.
  apply (list_elem_of_fmap_2 (λ b, (_id b, status b, blockId b))) in Hp.
  rewrite Hall in Hp. cbn beta in Hp. rewrite Hstp, Hidp in Hp.
  repeat (apply elem_of_cons in Hp as [Hp|Hp]; [by injection Hp|]).
  by apply elem_of_nil in Hp.
Qed.

(** C5. The run [double_vote]: [ann] approves and rejects block 1 in two
    requests, and each handler asks whether she has voted before the
    other has written. Both votes are accepted, neither request fails,
    and block 1 has [ann] in [approvedBy] and in [rejectedBy]. *)
Theorem overlapping_votes_are_both_recorded :
  interleaved after_double_vote
  ∧ inFlight after_double_vote !! 2%nat = Some (Settled (inr tt))
  ∧ inFlight after_double_vote !! 3%nat = Some (Settled (inr tt))
  ∧ blocks (store after_double_vote) !! 1%nat = Some twice_voted
  ∧ _id twice_voted = 1%nat ∧ status twice_voted = Pending
  ∧ approvedBy twice_voted = ["ann"] ∧ rejectedBy twice_voted = ["ann"]
  ∧ ¬ NoDup (approvedBy twice_voted ++ rejectedBy twice_voted).
Proof.
  split_and!; [apply interleaved_after_double_vote|by vm_compute..|].
  change (approvedBy twice_voted ++ rejectedBy twice_voted) with ["ann"; "ann"].
  intros Hnd. apply NoDup_cons in Hnd as [Hnd _]. apply Hnd. by left.
Qed.



(** Two first [getBlockchain] at once on the empty store. *)
Lemma two_genesis_witness :
  filter (λ b, status b = inChain) (blocks emptyStore) = []
  ∧ blocks (store (play [Arrive GetBlockchain; Arrive GetBlockchain;
                         Resume 0; Resume 1; Resume 0; Resume 0; Resume 1; Resume 1]
                        (mkServer emptyStore [])))
    = blocks emptyStore ++ [genesis_block 0 (toLocaleString 0);
                            genesis_block 1 (toLocaleString 1)].
Proof.
  split; [done|].
  exact (overlapping_getBlockchain_create_two_genesis_blocks emptyStore eq_refl).
Defined.

(** [ann] approves and rejects the [Pending] block of [s2] at once. *)
Lemma both_lists_witness :
  list_find (λ x, _id x = 1%nat ∧ status x = Pending) (blocks s2) = Some (1%nat, b2)
  ∧ list_find (λ x, _id x = 1%nat ∧ ("ann" ∈ approvedBy x ∨ "ann" ∈ rejectedBy x))
              (blocks s2) = None
  ∧ blocks (store (play [Arrive (ApproveBlock 1 true "ann");
                         Arrive (ApproveBlock 1 false "ann");
                         Resume 0; Resume 1; Resume 0; Resume 1] (mkServer s2 [])))
    = <[1%nat := addToSet_rejectedBy "ann" (addToSet_approvedBy "ann" b2)]> (blocks s2).
Proof.
  assert (list_find (λ x, _id x = 1%nat ∧ status x = Pending) (blocks s2)
          = Some (1%nat, b2)) as Hpending by by vm_compute.
  assert (list_find (λ x, _id x = 1%nat ∧ ("ann" ∈ approvedBy x ∨ "ann" ∈ rejectedBy x))
                    (blocks s2) = None) as Hfresh by by vm_compute.
  split_and!; [done..|].
  exact (proj1 (overlapping_votes_reach_both_lists s2 1 "ann" 1 b2 Hpending Hfresh)).
Defined.
End Races.
